(** * whatsapp-export-tools: the message parser and the link-preview cache

    A shallow embedding of [whatsapp_export_to_md_html.py]: the text
    normaliser [_norm_space], the header patterns and [parse_messages],
    [extract_urls], [safe_filename_stem], [choose_me_name], the attachment
    markers, [html_escape_keep_newlines] and the memoising [build_preview];
    and of [scrub_component] and [sanitize] of the audit script.

    Python strings are sequences of Unicode code points and are modelled as
    [list Z].  The regular expressions of the source are written in a small
    syntax covering exactly the constructs the source uses and are run by a
    backtracking matcher with the priorities of Python's [re] module.
    Exceptions are results [Raise]; the list [msgs] with its alias [last] is
    a list and an index into it; the preview cache and the requests sent to
    the network are the state of a small state monad.

    The character tables are those of CPython 3.11 (Unicode 14.0). *)

From Stdlib Require Import ZArith Lia List Bool String Ascii.
From stdpp Require Import base option list gmap sets.

Local Open Scope Z_scope.

(** ** Strings *)

Abbreviation str := (list Z).

(** An ASCII literal as a Python string. *)
Fixpoint py (s : string) : str :=
  match s with
  | EmptyString => []
  | String a s' => Z.of_nat (nat_of_ascii a) :: py s'
  end.

Module U.
Definition TAB := 9.
Definition LF := 10.
Definition CR := 13.
Definition SPACE := 32.
Definition HYPHEN := 45.
Definition DOT := 46.
Definition COLON := 58.
Definition NBSP := 160.        (* U+00A0 *)
Definition LONG_S := 383.      (* U+017F *)
Definition LRM := 8206.        (* U+200E *)
Definition RLM := 8207.        (* U+200F *)
Definition EN_DASH := 8211.    (* U+2013 *)
Definition LRE := 8234.        (* U+202A *)
Definition RLE := 8235.        (* U+202B *)
Definition PDF := 8236.        (* U+202C *)
Definition BOM := 65279.       (* U+FEFF *)
End U.

(** [str.isspace] on one code point; also what [\s] matches and what
    [str.strip()] and [str.split()] treat as white space. *)
Definition isspace (c : Z) : bool :=
  ((9 <=? c) && (c <=? 13)) || ((28 <=? c) && (c <=? 32))
  || (c =? 133) || (c =? 160) || (c =? 5760)
  || ((8192 <=? c) && (c <=? 8202))
  || (c =? 8232) || (c =? 8233) || (c =? 8239) || (c =? 8287) || (c =? 12288).

(** The zero digits of the decimal-digit blocks (general category Nd) of
    Unicode 14.0, the table of CPython 3.11; each block is ten consecutive
    code points.  [\d] matches these and [int] reads them. *)
Definition decimal_zeros : list Z :=
  [ 48; 1632; 1776; 1984; 2406; 2534; 2662; 2790; 2918; 3046; 3174; 3302;
    3430; 3558; 3664; 3792; 3872; 4160; 4240; 6112; 6160; 6470; 6608; 6784;
    6800; 6992; 7088; 7232; 7248; 42528; 43216; 43264; 43472; 43504; 43600;
    44016; 65296; 66720; 68912; 69734; 69872; 69942; 70096; 70384; 70736;
    70864; 71248; 71360; 71472; 71904; 72016; 72784; 73040; 73120; 92768;
    92864; 93008; 120782; 120792; 120802; 120812; 120822; 123200; 123632;
    125264; 130032 ].

Fixpoint digit_in (zs : list Z) (c : Z) : option Z :=
  match zs with
  | [] => None
  | z :: zs' => if (z <=? c) && (c <? z + 10) then Some (c - z) else digit_in zs' c
  end.

(** The decimal value of a code point, when it is a decimal digit. *)
Definition digit_value (c : Z) : option Z := digit_in decimal_zeros c.

Definition isdecimal (c : Z) : bool :=
  match digit_value c with Some _ => true | None => false end.

(** [s.replace(a, b)] for single characters [a] and [b]. *)
Definition replace_char (a b : Z) (s : str) : str :=
  List.map (fun c => if c =? a then b else c) s.

(** [s.replace(a, "")] for a single character [a]. *)
Definition remove_char (a : Z) (s : str) : str :=
  List.filter (fun c => negb (c =? a)) s.

Fixpoint drop_while (p : Z -> bool) (s : str) : str :=
  match s with
  | [] => []
  | c :: s' => if p c then drop_while p s' else s
  end.

Definition lstrip (p : Z -> bool) (s : str) : str := drop_while p s.
Definition rstrip (p : Z -> bool) (s : str) : str := rev (drop_while p (rev s)).

(** [s.strip()] *)
Definition strip (s : str) : str := rstrip isspace (lstrip isspace s).

(** [s.split()]: the maximal runs of characters that are not white space.
    [cur] is the run being read. *)
Fixpoint split_ws_from (cur : str) (s : str) : list str :=
  match s with
  | [] => match cur with [] => [] | _ => [cur] end
  | c :: s' =>
      if isspace c
      then match cur with
           | [] => split_ws_from [] s'
           | _ => cur :: split_ws_from [] s'
           end
      else split_ws_from (cur ++ [c]) s'
  end.

Definition split_ws (s : str) : list str := split_ws_from [] s.

(** [sep.join(parts)] *)
Fixpoint join (sep : str) (parts : list str) : str :=
  match parts with
  | [] => []
  | [p] => p
  | p :: ps => p ++ sep ++ join sep ps
  end.

(** [s.split(sep)] for a single character [sep]. *)
Fixpoint split_on_from (sep : Z) (cur : str) (s : str) : list str :=
  match s with
  | [] => [cur]
  | c :: s' =>
      if c =? sep then cur :: split_on_from sep [] s'
      else split_on_from sep (cur ++ [c]) s'
  end.

Definition split_on (sep : Z) (s : str) : list str := split_on_from sep [] s.

(** The five direction marks removed by [_norm_space]. *)
Definition direction_marks : list Z := [U.LRM; U.RLM; U.LRE; U.RLE; U.PDF].

Definition remove_chars (cs : list Z) (s : str) : str :=
  fold_left (fun acc c => remove_char c acc) cs s.

(** [_norm_space] *)
Definition _norm_space (s : str) : str :=
  let s := strip (replace_char U.NBSP U.SPACE s) in
  let s := remove_chars direction_marks s in
  join [U.SPACE] (split_ws s).

(** ** Regular expressions

    The syntax covers what the patterns of the source use: anchors, one
    character of a class, a counted repetition of a class (greedy or lazy),
    sequence, alternation, an optional part and capturing groups. *)

Inductive atom :=
| ADigit            (* \d *)
| ASpace            (* \s *)
| AChr (c : Z).     (* a literal character *)

Inductive cls :=
| CAtom (a : atom)
| CAny                      (* . without DOTALL: anything but a line feed *)
| CSet (l : list atom)      (* [...] *)
| CNot (l : list atom).     (* [^...] *)

Inductive re :=
| Bol                                               (* ^ *)
| Eol                                               (* $ *)
| One (c : cls)
| Rep (c : cls) (lo : nat) (hi : option nat) (greedy : bool)
| Seq (a b : re)
| Alt (a b : re)
| Opt (a : re)                                      (* (?:a)? *)
| Grp (i : nat) (a : re).                           (* group number i *)

Definition in_atom (a : atom) (x : Z) : bool :=
  match a with
  | ADigit => isdecimal x
  | ASpace => isspace x
  | AChr c => x =? c
  end.

Definition in_cls (c : cls) (x : Z) : bool :=
  match c with
  | CAtom a => in_atom a x
  | CAny => negb (x =? U.LF)
  | CSet l => existsb (fun a => in_atom a x) l
  | CNot l => negb (existsb (fun a => in_atom a x) l)
  end.

(** The matcher state: how many characters lie before the current position,
    the text from the current position on, and the groups set so far (most
    recent first). *)
Record mstate := MState {
  m_pos : nat;
  m_rest : str;
  m_groups : list (nat * str)
}.

Definition or_else {A} (x y : option A) : option A :=
  match x with Some _ => x | None => y end.

Definition hi_allows (hi : option nat) : bool :=
  match hi with Some O => false | _ => true end.

Definition hi_pred (hi : option nat) : option nat :=
  match hi with Some n => Some (Nat.pred n) | None => None end.

(** [c{lo,hi}] followed by the continuation [k].  A greedy repetition tries
    one more character before it tries to stop; a lazy one the other way. *)
Fixpoint rep {A} (c : cls) (greedy : bool) (lo : nat) (hi : option nat)
    (s : str) (k : str -> option A) {struct s} : option A :=
  let stop := match lo with O => k s | S _ => None end in
  match s with
  | x :: s' =>
      if in_cls c x && hi_allows hi then
        if greedy
        then or_else (rep c greedy (Nat.pred lo) (hi_pred hi) s' k) stop
        else or_else stop (rep c greedy (Nat.pred lo) (hi_pred hi) s' k)
      else stop
  | [] => stop
  end.

(** The state after the matcher has moved on to the suffix [s'] of its text. *)
Definition moved (st : mstate) (s' : str) : mstate :=
  MState (m_pos st + (length (m_rest st) - length s'))%nat s' (m_groups st).

(** Group [i] is the text between the states [st0] and [st1]. *)
Definition set_group (i : nat) (st0 st1 : mstate) : mstate :=
  MState (m_pos st1) (m_rest st1)
    ((i, take (m_pos st1 - m_pos st0)%nat (m_rest st0)) :: m_groups st1).

Fixpoint run {A} (r : re) (st : mstate) (k : mstate -> option A) : option A :=
  match r with
  | Bol => match m_pos st with O => k st | S _ => None end
  | Eol =>
      match m_rest st with
      | [] => k st
      | [x] => if x =? U.LF then k st else None
      | _ => None
      end
  | One c =>
      match m_rest st with
      | x :: s' => if in_cls c x then k (moved st s') else None
      | [] => None
      end
  | Rep c lo hi g => rep c g lo hi (m_rest st) (fun s' => k (moved st s'))
  | Seq a b => run a st (fun st' => run b st' k)
  | Alt a b => or_else (run a st k) (run b st k)
  | Opt a => or_else (run a st k) (k st)
  | Grp i a => run a st (fun st' => k (set_group i st st'))
  end.

(** A match object: the matched text and its groups. *)
Record rmatch := RMatch {
  m_len : nat;
  m_caps : list (nat * str)
}.

(** [m.group(i)], [None] when the group took no part in the match. *)
Definition group (m : rmatch) (i : nat) : option str :=
  snd <$> List.find (fun p => Nat.eqb (fst p) i) (m_caps m).

(** [m.groups()] of a pattern with [n] groups. *)
Definition groups (m : rmatch) (n : nat) : list (option str) :=
  List.map (group m) (List.seq 1 n).

(** The pattern applied at the position [pos] of a text whose rest is [s]. *)
Definition match_at (r : re) (pos : nat) (s : str) : option rmatch :=
  run r (MState pos s [])
    (fun st => Some (RMatch (m_pos st - pos) (m_groups st))).

(** [pattern.match(s)] *)
Definition re_match (r : re) (s : str) : option rmatch := match_at r 0 s.

(** [pattern.finditer(s)] for a pattern that matches no empty text: the
    matches from left to right, none overlapping an earlier one.  [skip]
    characters of the last match are still to be passed over. *)
Fixpoint finditer_from (r : re) (pos skip : nat) (s : str) : list rmatch :=
  match s with
  | [] => []
  | _ :: s' =>
      match skip with
      | S n => finditer_from r (S pos) n s'
      | O =>
          match match_at r pos s with
          | Some m => m :: finditer_from r (S pos) (Nat.pred (m_len m)) s'
          | None => finditer_from r (S pos) 0 s'
          end
      end
  end.

Definition finditer (r : re) (s : str) : list rmatch := finditer_from r 0 0 s.

(** *** Pattern notation *)

Definition digit := CAtom ADigit.
Definition space := CAtom ASpace.
Definition chr (s : string) : cls :=
  match py s with [c] => CAtom (AChr c) | _ => CSet [] end.
Definition lit (s : string) : re := One (chr s).

(** c{n}, c{lo,hi}, c+, c*, c+? *)
Definition times (c : cls) (n : nat) : re := Rep c n (Some n) true.
Definition between (c : cls) (lo hi : nat) : re := Rep c lo (Some hi) true.
Definition plus (c : cls) : re := Rep c 1 None true.
Definition star (c : cls) : re := Rep c 0 None true.
Definition plus_lazy (c : cls) : re := Rep c 1 None false.

Fixpoint cat (rs : list re) : re :=
  match rs with
  | [] => Opt Eol
  | [r] => r
  | r :: rs' => Seq r (cat rs')
  end.

Definition not_colon : cls := CNot [AChr U.COLON].

(** ** The header patterns *)

(** Source pattern, its last group written with spaces as under re.VERBOSE:
    ^(\d{4}-\d{2}-\d{2})[ T](\d{2}:\d{2}:\d{2})\s+([^:]+?):\s*( .* )$
    *)
Definition _pat_iso : re :=
  cat [ Bol;
        Grp 1 (cat [times digit 4; lit "-"; times digit 2; lit "-"; times digit 2]);
        One (CSet [AChr U.SPACE; AChr 84]);
        Grp 2 (cat [times digit 2; lit ":"; times digit 2; lit ":"; times digit 2]);
        plus space;
        Grp 3 (plus_lazy not_colon); lit ":"; star space;
        Grp 4 (star CAny); Eol ].

(** [\d{1,2}\.\d{1,2}\.\d{2,4}] *)
Definition date_de : re :=
  cat [between digit 1 2; lit "."; between digit 1 2; lit "."; between digit 2 4].

(** [\d{1,2}:\d{2}] *)
Definition time_hm : re := cat [between digit 1 2; lit ":"; times digit 2].

(** Source pattern, its last group written with spaces as under re.VERBOSE:
    ^(\d{1,2}\.\d{1,2}\.\d{2,4}),\s+(\d{1,2}:\d{2})(?::(\d{2}))?\s+-\s+([^:]+?):\s*( .* )$
    *)
Definition _pat_de : re :=
  cat [ Bol;
        Grp 1 date_de; lit ","; plus space;
        Grp 2 time_hm; Opt (Seq (lit ":") (Grp 3 (times digit 2)));
        plus space; lit "-"; plus space;
        Grp 4 (plus_lazy not_colon); lit ":"; star space;
        Grp 5 (star CAny); Eol ].

(** Source pattern, its last group written with spaces as under re.VERBOSE:
    ^\[(\d{1,2}\.\d{1,2}\.\d{2,4}),\s+(\d{1,2}:\d{2})(?::(\d{2}))?\]\s+([^:]+?):\s*( .* )$
    *)
Definition _pat_bracket : re :=
  cat [ Bol; lit "[";
        Grp 1 date_de; lit ","; plus space;
        Grp 2 time_hm; Opt (Seq (lit ":") (Grp 3 (times digit 2)));
        lit "]"; plus space;
        Grp 4 (plus_lazy not_colon); lit ":"; star space;
        Grp 5 (star CAny); Eol ].

Definition SYSTEM_AUTHOR : str := py "System".

(** [[-–]] *)
Definition dash : cls := CSet [AChr U.HYPHEN; AChr U.EN_DASH].

(** Source pattern, its last group written with spaces as under re.VERBOSE:
    ^(?P<date>\d{4}-\d{2}-\d{2})[ T](?P<time>\d{2}:\d{2}:\d{2})(?:\s+[-–]\s+|\s+)(?P<text>.* )$
   
    the named groups date, time and text are the groups 1, 2 and 3. *)
Definition _pat_iso_sys : re :=
  cat [ Bol;
        Grp 1 (cat [times digit 4; lit "-"; times digit 2; lit "-"; times digit 2]);
        One (CSet [AChr U.SPACE; AChr 84]);
        Grp 2 (cat [times digit 2; lit ":"; times digit 2; lit ":"; times digit 2]);
        Alt (cat [plus space; One dash; plus space]) (plus space);
        Grp 3 (star CAny); Eol ].

(** Source pattern, its last group written with spaces as under re.VERBOSE:
    ^(?P<date>\d{1,2}\.\d{1,2}\.\d{2,4}),\s+(?P<time>\d{1,2}:\d{2})(?::(?P<sec>\d{2}))?\s+[-–]\s+(?P<text>.* )$
   
    date, time, sec and text are the groups 1 to 4. *)
Definition _pat_de_sys : re :=
  cat [ Bol;
        Grp 1 date_de; lit ","; plus space;
        Grp 2 time_hm; Opt (Seq (lit ":") (Grp 3 (times digit 2)));
        plus space; One dash; plus space;
        Grp 4 (star CAny); Eol ].

(** Source pattern, its last group written with spaces as under re.VERBOSE:
    ^\[(?P<date>\d{1,2}\.\d{1,2}\.\d{2,4}),\s+(?P<time>\d{1,2}:\d{2})(?::(?P<sec>\d{2}))?\]\s+(?P<text>.* )$
    *)
Definition _pat_bracket_sys : re :=
  cat [ Bol; lit "[";
        Grp 1 date_de; lit ","; plus space;
        Grp 2 time_hm; Opt (Seq (lit ":") (Grp 3 (times digit 2)));
        lit "]"; plus space;
        Grp 4 (star CAny); Eol ].

(** ** Dates and times *)

Inductive exn := ValueError | TypeError.

Inductive result (A : Type) :=
| Ok (a : A)
| Raise (e : exn).
Arguments Ok {A} a.
Arguments Raise {A} e.

Definition bind {A B} (x : result A) (f : A -> result B) : result B :=
  match x with
  | Ok a => f a
  | Raise e => Raise e
  end.

Notation "'let*' x ':=' c1 'in' c2" := (bind c1 (fun x => c2))
  (at level 10, x name, c1 at level 100, c2 at level 200).

(** A [datetime.datetime] without time zone and with microsecond 0. *)
Record datetime := DateTime {
  year : Z; month : Z; day : Z; hour : Z; minute : Z; second : Z
}.

Definition is_leap (y : Z) : bool :=
  (y mod 4 =? 0) && (negb (y mod 100 =? 0) || (y mod 400 =? 0)).

Definition days_in_month (y m : Z) : Z :=
  if m =? 2 then (if is_leap y then 29 else 28)
  else if (m =? 4) || (m =? 6) || (m =? 9) || (m =? 11) then 30
  else 31.

Definition valid_datetime (y mo d h mi s : Z) : bool :=
  (1 <=? y) && (y <=? 9999) && (1 <=? mo) && (mo <=? 12)
  && (1 <=? d) && (d <=? days_in_month y mo)
  && (0 <=? h) && (h <=? 23) && (0 <=? mi) && (mi <=? 59)
  && (0 <=? s) && (s <=? 59).

(** [dt.datetime(y, mo, d, h, mi, s)]: a field out of range raises
    [ValueError]. *)
Definition datetime_new (y mo d h mi s : Z) : result datetime :=
  if valid_datetime y mo d h mi s then Ok (DateTime y mo d h mi s)
  else Raise ValueError.

(** [int(s)] on a string of decimal digits, the only strings the header
    patterns hand to it.  Python's [int] also reads a sign, white space
    around the number and single underscores between digits; no field the
    patterns capture holds one of them, and they are left out here: what is
    no string of decimal digits raises. *)
Fixpoint int_from (acc : Z) (s : str) : result Z :=
  match s with
  | [] => Ok acc
  | c :: s' =>
      match digit_value c with
      | Some d => int_from (10 * acc + d) s'
      | None => Raise ValueError
      end
  end.

Definition int (s : str) : result Z :=
  match s with
  | [] => Raise ValueError
  | _ => int_from 0 s
  end.

(** A field of [fromisoformat], which reads ASCII digits only. *)
Fixpoint ascii_int_from (acc : Z) (s : str) : result Z :=
  match s with
  | [] => Ok acc
  | c :: s' =>
      if (48 <=? c) && (c <=? 57) then ascii_int_from (10 * acc + (c - 48)) s'
      else Raise ValueError
  end.

(** [dt.datetime.fromisoformat(s)] on the nineteen-character form
    YYYY-MM-DD HH:MM:SS, the only form [parse_messages] builds (CPython up to
    3.13, where hour 24 is out of range). *)
Definition fromisoformat (s : str) : result datetime :=
  match s with
  | [y1; y2; y3; y4; a; m1; m2; b; d1; d2; sep; h1; h2; c; i1; i2; d; s1; s2] =>
      if (a =? U.HYPHEN) && (b =? U.HYPHEN) && (c =? U.COLON) && (d =? U.COLON)
      then
        let* y := ascii_int_from 0 [y1; y2; y3; y4] in
        let* mo := ascii_int_from 0 [m1; m2] in
        let* dd := ascii_int_from 0 [d1; d2] in
        let* h := ascii_int_from 0 [h1; h2] in
        let* mi := ascii_int_from 0 [i1; i2] in
        let* ss := ascii_int_from 0 [s1; s2] in
        datetime_new y mo dd h mi ss
      else Raise ValueError
  | _ => Raise ValueError
  end.

(** [parse_dt_de] *)
Definition parse_dt_de (d t_hm : str) (t_s : option str) : result datetime :=
  match split_on U.DOT d with
  | [dd; mm; yy] =>
      let* day := int dd in
      let* month := int mm in
      let* year := int yy in
      let year := if year <? 100 then year + 2000 else year in
      match split_on U.COLON t_hm with
      | [hh; mi] =>
          let* ss := match t_s with Some t => int t | None => Ok 0 end in
          let* h := int hh in
          let* m := int mi in
          datetime_new year month day h m ss
      | _ => Raise ValueError
      end
  | _ => Raise ValueError
  end.

(** ** Messages and the parser *)

Record Message := Msg {
  ts : datetime;
  author : str;
  text : str
}.

(** The loop state of [parse_messages]: the list [msgs] and the variable
    [last], a reference to an element of [msgs], kept as its index. *)
Record pstate := PState {
  msgs : list Message;
  last : option nat
}.

Definition add_text (t : str) (m : Message) : Message :=
  Msg (ts m) (author m) (text m ++ t).

(** [if last is not None: last.text += t] *)
Definition append_last (t : str) (st : pstate) : pstate :=
  match last st with
  | Some i => PState (alter (add_text t) i (msgs st)) (last st)
  | None => st
  end.

(** [msgs.append(msg); last = msg] *)
Definition push (m : Message) (st : pstate) : pstate :=
  PState (msgs st ++ [m]) (Some (length (msgs st))).

(** The body of the branch taken when [_pat_iso] matches. *)
Definition header_iso (m : rmatch) : result Message :=
  match groups m 4 with
  | [Some d_s; Some t_s; Some author; Some text] =>
      let* ts := fromisoformat (d_s ++ [U.SPACE] ++ t_s) in
      Ok (Msg ts (_norm_space author) text)
  | _ => Raise TypeError
  end.

(** The body of the branches taken when [_pat_de] or [_pat_bracket]
    matches. *)
Definition header_de (m : rmatch) : result Message :=
  match groups m 5 with
  | [Some d; Some t_hm; t_sec; Some author; Some text] =>
      let* ts := parse_dt_de d t_hm t_sec in
      Ok (Msg ts (_norm_space author) text)
  | _ => Raise TypeError
  end.

(** The marks removed from every line before it is matched. *)
Definition line_marks : list Z := U.BOM :: direction_marks.

(** The line as the patterns see it. *)
Definition clean_line (line : str) : str :=
  let line := rstrip (fun c => c =? U.LF) line in
  match line with
  | [] => line
  | _ => remove_chars line_marks line
  end.

(** What a line that is not empty is taken for. *)
Inductive line_kind :=
| Header (m : Message)
| Continuation.

Definition classify (line : str) : result line_kind :=
  match re_match _pat_iso line with
  | Some m => let* msg := header_iso m in Ok (Header msg)
  | None =>
      match re_match _pat_de line with
      | Some m => let* msg := header_de m in Ok (Header msg)
      | None =>
          match re_match _pat_bracket line with
          | Some m => let* msg := header_de m in Ok (Header msg)
          | None => Ok Continuation
          end
      end
  end.

(** One turn of the loop of [parse_messages]. *)
Definition step (st : pstate) (line : str) : result pstate :=
  let line := clean_line line in
  match line with
  | [] => Ok (append_last [U.LF] st)
  | _ =>
      let* k := classify line in
      match k with
      | Header msg => Ok (push msg st)
      | Continuation => Ok (append_last ([U.LF] ++ line) st)
      end
  end.

Fixpoint loop (st : pstate) (raw : list str) : result pstate :=
  match raw with
  | [] => Ok st
  | line :: raw' => let* st' := step st line in loop st' raw'
  end.

(** The loop of [parse_messages] over the lines of the file. *)
Definition parse_lines (raw : list str) : result (list Message) :=
  let* st := loop (PState [] None) raw in Ok (msgs st).

(** The line boundaries of [str.splitlines]. *)
Definition is_linebreak (c : Z) : bool :=
  ((10 <=? c) && (c <=? 13)) || ((28 <=? c) && (c <=? 30))
  || (c =? 133) || (c =? 8232) || (c =? 8233).

(** [s.splitlines()]; a carriage return followed by a line feed is one
    boundary. *)
Fixpoint splitlines_from (cur : str) (s : str) : list str :=
  match s with
  | [] => match cur with [] => [] | _ => [cur] end
  | c :: s' =>
      if is_linebreak c then
        match s' with
        | c2 :: s'' =>
            if (c =? U.CR) && (c2 =? U.LF) then cur :: splitlines_from [] s''
            else cur :: splitlines_from [] s'
        | [] => cur :: splitlines_from [] s'
        end
      else splitlines_from (cur ++ [c]) s'
  end.

Definition splitlines (s : str) : list str := splitlines_from [] s.

(** [parse_messages], on the decoded text of the chat file. *)
Definition parse_messages (content : str) : result (list Message) :=
  parse_lines (splitlines content).

(** ** URLs *)

(** A cased literal under [re.IGNORECASE]: the letter, its capital and, for
    s, the long s (U+017F), which the [re] module treats as a case variant. *)
Definition ci (s : string) : cls :=
  match py s with
  | [c] => CSet (AChr c :: AChr (c - 32) ::
                 (if c =? 115 then [AChr U.LONG_S] else []))
  | _ => CSet []
  end.

(** Source pattern, compiled with re.IGNORECASE:
    (https?://[^\s<>\]]+) *)
Definition _url_re : re :=
  Grp 1 (cat [ One (ci "h"); One (ci "t"); One (ci "t"); One (ci "p");
               Rep (ci "s") 0 (Some 1%nat) true;
               lit ":"; lit "/"; lit "/";
               plus (CNot [ASpace; AChr 60; AChr 62; AChr 93]) ]).

(** The characters of the argument of [rstrip] in [extract_urls]:
    ) . , ; : ! ? ] and the two quotes. *)
Definition url_punct : list Z := [41; 46; 44; 59; 58; 33; 63; 93; 34; 39].

Definition is_url_punct (c : Z) : bool := existsb (Z.eqb c) url_punct.

(** The first loop of [extract_urls]: the list [urls]. *)
Definition found_urls (text : str) : list str :=
  List.map (fun m => rstrip is_url_punct (default [] (group m 1)))
           (finditer _url_re text).

(** The second loop of [extract_urls], with its set [seen] and list [out]. *)
Fixpoint unique_from (seen : gset str) (out : list str) (urls : list str)
    : list str :=
  match urls with
  | [] => out
  | u :: urls' =>
      if decide (u ∈ seen) then unique_from seen out urls'
      else unique_from ({[u]} ∪ seen) (out ++ [u]) urls'
  end.

(** [extract_urls] *)
Definition extract_urls (text : str) : list str :=
  unique_from ∅ [] (found_urls text).

(** Duplicates removed in first-seen order, as the specification words it:
    every element is kept where it first occurs and dropped from the rest. *)
Fixpoint first_seen (l : list str) : list str :=
  match l with
  | [] => []
  | x :: l' => x :: List.filter (fun y => negb (bool_decide (y = x))) (first_seen l')
  end.

(** ** Link previews *)

Abbreviation bytes := (list Byte.byte).

Record Preview := MkPreview {
  url : str;
  title : str;
  description : str;
  image_data_url : option str
}.

(** The process state [build_preview] works on: the module-level dictionary
    [_preview_cache] and, as a ghost, the addresses requested from the network
    so far, oldest first. *)
Record world := World {
  _preview_cache : gmap str Preview;
  requested : list str
}.

(** A computation that reads and changes the process state. *)
Definition io (A : Type) : Type := world -> A * world.

Definition ret {A} (a : A) : io A := fun w => (a, w).

Definition io_bind {A B} (c : io A) (f : A -> io B) : io B :=
  fun w => let (a, w') := c w in f a w'.

Notation "'do' x '<-' c1 ';' c2" := (io_bind c1 (fun x => c2))
  (at level 10, x name, c1 at level 100, c2 at level 200).

Definition cache_get (u : str) : io (option Preview) :=
  fun w => (_preview_cache w !! u, w).

Definition cache_set (u : str) (p : Preview) : io unit :=
  fun w => (tt, World (<[u := p]> (_preview_cache w)) (requested w)).

(** Python's [a or b] on strings that may be absent: [a] when it is there
    and not empty, otherwise [b]. *)
Definition str_or (a : option str) (b : str) : str :=
  match a with
  | Some (c :: a') => c :: a'
  | _ => b
  end.

Section Previews.

(** The network: what a request for an address yields, given the requests
    made before it; [None] is a request that raises. *)
Variable network : list str -> str -> option (bytes * str).

(** The functions [build_preview] calls that only compute, taken as total
    functions of their arguments: the video identifier of an address, the
    metadata of a page, an address resolved against a base, and the checks
    and encoding of [_download_image_as_data_url] after its request. *)
Variable is_youtube_url : str -> option str.
Variable _parse_meta : bytes -> gmap str str.
Variable _resolve_url : str -> str -> str.
Variable image_as_data_url : str -> bytes * str -> option str.

(** [_http_get]: one request, recorded. *)
Definition _http_get (u : str) : io (option (bytes * str)) :=
  fun w => (network (requested w) u,
            World (_preview_cache w) (requested w ++ [u])).

(** [_download_image_as_data_url]: a request that raises gives [None]. *)
Definition _download_image_as_data_url (img_url : str) : io (option str) :=
  do r <- _http_get img_url;
  ret (match r with
       | Some resp => image_as_data_url img_url resp
       | None => None
       end).

Definition youtube_thumb (vid : str) : str :=
  py "https://img.youtube.com/vi/" ++ vid ++ py "/hqdefault.jpg".

(** [build_preview] *)
Definition build_preview (u : str) : io (option Preview) :=
  do hit <- cache_get u;
  match hit with
  | Some p => ret (Some p)
  | None =>
      match is_youtube_url u with
      | Some (c :: vid) =>
          do img_data <- _download_image_as_data_url (youtube_thumb (c :: vid));
          let prev := MkPreview u (py "YouTube") [] img_data in
          do _x <- cache_set u prev;
          ret (Some prev)
      | _ =>
          do page <- _http_get u;
          match page with
          | None => ret None
          | Some (html_bytes, _ct) =>
              let meta := _parse_meta html_bytes in
              let title := str_or (meta !! py "og:title") (str_or (meta !! py "title") u) in
              let desc := str_or (meta !! py "og:description") (str_or (meta !! py "description") []) in
              let img := str_or (meta !! py "og:image") (str_or (meta !! py "twitter:image") []) in
              do img_data_url <-
                 match img with
                 | [] => ret None
                 | _ => _download_image_as_data_url (_resolve_url u img)
                 end;
              let prev := MkPreview u (strip title) (strip desc) img_data_url in
              do _x <- cache_set u prev;
              ret (Some prev)
          end
      end
  end.

End Previews.

(** ** The vocabulary of the properties *)

(** A token: a run of [str.split()], not empty and free of white space; [P]
    is any further property of its characters. *)
Definition token (P : Z -> Prop) (t : str) : Prop :=
  t <> [] /\ Forall (fun c => isspace c = false /\ P c) t.

(** The state with the text [pre] behind the current position. *)
Definition at_ (pre rest : str) (g : list (nat * str)) : mstate :=
  MState (length pre) rest g.

(** The pattern [r], started after [pre] in front of [xs ++ s] with the groups
    [g], takes [xs] on its first successful path and leaves the groups [g']:
    whatever follows and succeeds there decides the whole match. *)
Definition eats (r : re) (pre xs s : str) (g g' : list (nat * str)) : Prop :=
  forall A (k : mstate -> option A) x,
    k (at_ (pre ++ xs) s g') = Some x ->
    run r (at_ pre (xs ++ s) g) k = Some x.

(** The text [t] starts with no character of the class [c]. *)
Definition stops (c : cls) (t : str) : Prop :=
  match t with
  | [] => True
  | y :: _ => in_cls c y = false
  end.

(** A line in which no header pattern matches, once cleaned: a blank line or
    a continuation candidate. *)
Definition no_header (line : str) : Prop :=
  re_match _pat_iso (clean_line line) = None /\
  re_match _pat_de (clean_line line) = None /\
  re_match _pat_bracket (clean_line line) = None.

(** A line that is not empty once cleaned and that opens the message [m]. *)
Definition header_line (line : str) (m : Message) : Prop :=
  clean_line line <> [] /\ classify (clean_line line) = Ok (Header m).

(** The state while the message [m] is open, [done] being the messages
    before it. *)
Definition open_state (done : list Message) (m : Message) : pstate :=
  PState (done ++ [m]) (Some (length done)).

(** The text the continuation lines [ls] add to the open message. *)
Definition continuation_text (ls : list str) : str :=
  concat (List.map (fun l => U.LF :: clean_line l) ls).

(** A text of between [lo] and [hi] decimal digits. *)
Definition digits (lo hi : nat) (s : str) : Prop :=
  Forall (fun c => isdecimal c = true) s /\ (lo <= length s <= hi)%nat.

(** A text of white space, and one that is not empty. *)
Definition blank (s : str) : Prop := Forall (fun c => isspace c = true) s.
Definition blank1 (s : str) : Prop := blank s /\ s <> [].

(** The number [int] reads from a text of digits. *)
Definition number (s : str) : Z :=
  match int s with Ok n => n | Raise _ => 0 end.

(** The fields of a line DD.MM.YY, H:MM[:SS] - author: text with the white
    space between them. *)
Record de_fields := DeFields {
  f_day : str; f_month : str; f_year : str;
  f_sp1 : str;
  f_hour : str; f_minute : str; f_second : option str;
  f_sp2 : str; f_sp3 : str;
  f_author : str;
  f_sp4 : str;
  f_text : str
}.

Definition second_text (f : de_fields) : str :=
  match f_second f with Some ss => [U.COLON] ++ ss | None => [] end.

(** The line with the fields [f], [dash] standing between time and author. *)
Definition de_line (dash : Z) (f : de_fields) : str :=
  f_day f ++ [U.DOT] ++ f_month f ++ [U.DOT] ++ f_year f ++ [44] ++ f_sp1 f
  ++ f_hour f ++ [U.COLON] ++ f_minute f ++ second_text f
  ++ f_sp2 f ++ [dash] ++ f_sp3 f
  ++ f_author f ++ [U.COLON] ++ f_sp4 f ++ f_text f.

(** The fields are those of the grammar: the digit counts of the pattern,
    white space where it asks for some, an author without colon and a text
    without line feed.  Author and text start with no white space, which
    belongs to the white space before them. *)
Record de_wf (f : de_fields) : Prop := DeWf {
  wf_day : digits 1 2 (f_day f);
  wf_month : digits 1 2 (f_month f);
  wf_year : digits 2 4 (f_year f);
  wf_hour : digits 1 2 (f_hour f);
  wf_minute : digits 2 2 (f_minute f);
  wf_second : forall ss, f_second f = Some ss -> digits 2 2 ss;
  wf_sp1 : blank1 (f_sp1 f);
  wf_sp2 : blank1 (f_sp2 f);
  wf_sp3 : blank1 (f_sp3 f);
  wf_sp4 : blank (f_sp4 f);
  wf_author : f_author f <> [] /\ Forall (fun c => c <> U.COLON) (f_author f);
  wf_author_start : stops space (f_author f);
  wf_text : Forall (fun c => c <> U.LF) (f_text f);
  wf_text_start : stops space (f_text f)
}.

(** The date and time [parse_dt_de] builds from the fields: seconds default
    to 0 and a year below 100 is taken in the century from 2000. *)
Definition de_year (f : de_fields) : Z :=
  let y := number (f_year f) in if y <? 100 then y + 2000 else y.

Definition de_seconds (f : de_fields) : Z :=
  match f_second f with Some ss => number ss | None => 0 end.

Definition de_datetime (f : de_fields) : result datetime :=
  datetime_new (de_year f) (number (f_month f)) (number (f_day f))
               (number (f_hour f)) (number (f_minute f)) (de_seconds f).

(** The groups of a match of [_pat_de] or [_pat_bracket] on the fields [f]. *)
Definition de_groups (f : de_fields) : list (nat * str) :=
  [ (5%nat, f_text f); (4%nat, f_author f) ] ++
  match f_second f with Some ss => [(3%nat, ss)] | None => [] end ++
  [ (2%nat, f_hour f ++ [U.COLON] ++ f_minute f);
    (1%nat, f_day f ++ [U.DOT] ++ f_month f ++ [U.DOT] ++ f_year f) ].

(** The line cut as the parts of [_pat_de] take it. *)
Definition de_line_parts (f : de_fields) : str :=
  (f_day f ++ [U.DOT] ++ f_month f ++ [U.DOT] ++ f_year f) ++ [44] ++ f_sp1 f
  ++ (f_hour f ++ [U.COLON] ++ f_minute f) ++ second_text f
  ++ f_sp2 f ++ [U.HYPHEN] ++ f_sp3 f
  ++ f_author f ++ [U.COLON] ++ f_sp4 f ++ f_text f ++ [].

(** The groups that take part in every match of a pattern. *)
Fixpoint sets (r : re) : list nat :=
  match r with
  | Seq a b => sets a ++ sets b
  | Grp i a => i :: sets a
  | _ => []
  end.

Definition keys (st : mstate) : list nat := List.map fst (m_groups st).

(** A computation that raises nothing but [ValueError]. *)
Definition value_errors {A} (x : result A) : Prop :=
  forall e, x = Raise e -> e = ValueError.

(** The calendar values of the fields are those of a date and a time. *)
Definition de_valid (f : de_fields) : bool :=
  valid_datetime (de_year f) (number (f_month f)) (number (f_day f))
                 (number (f_hour f)) (number (f_minute f)) (de_seconds f).

(** The fields of the line 05.01.24, 9:00 - Alice: Hey. *)
Definition alice_hey : de_fields :=
  DeFields (py "05") (py "01") (py "24") (py " ") (py "9") (py "00") None
           (py " ") (py " ") (py "Alice") (py " ") (py "Hey").

Ltac concrete_wf :=
  constructor;
  try (split; [repeat constructor | vm_compute; lia]);
  try (split; [repeat constructor | discriminate]);
  try (split; [discriminate | repeat constructor; discriminate]);
  try (intros ? ?; discriminate);
  try (repeat constructor; discriminate);
  try reflexivity.

(** Splits a conjunction of closed facts into its parts. *)
Ltac conjuncts := repeat match goal with |- _ /\ _ => split end.

(** The fields of the line 05.13.24, 9:00 - Alice: Hey, with month 13. *)
Definition month_13 : de_fields :=
  DeFields (py "05") (py "13") (py "24") (py " ") (py "9") (py "00") None
           (py " ") (py " ") (py "Alice") (py " ") (py "Hey").

Definition alice_line : str := py "05.01.24, 9:00 - Alice: Hey".
Definition notice_line : str := py "05.01.24, 9:01 - Bob joined".

Definition alice_line_en_dash : str :=
  py "05.01.24, 9:00 " ++ [U.EN_DASH] ++ py " Alice: Hey".




(** An address whose page cannot be fetched: the network is down. *)
Definition offline : list str -> str -> option (bytes * str) := fun _ _ => None.

(** A network that answers every request with an empty page. *)
Definition empty_pages : list str -> str -> option (bytes * str) :=
  fun _ _ => Some ([], []).

(** [build_preview] for addresses that are no video addresses, on pages
    without metadata. *)
Definition plain_preview (network : list str -> str -> option (bytes * str))
    : str -> io (option Preview) :=
  build_preview network (fun _ => None) (fun _ => ∅) (fun _ img => img)
                (fun _ _ => None).

Definition example_url : str := py "http://example.invalid/page".

(** What a pattern can take: [takes r xs rest] holds when [r] matches the
    text [xs] in front of [rest]; where the line starts is left out. *)
Fixpoint takes (r : re) (xs rest : str) : Prop :=
  match r with
  | Bol => xs = []
  | Eol => xs = [] /\ (rest = [] \/ rest = [U.LF])
  | One c => exists y, xs = [y] /\ in_cls c y = true
  | Rep c lo hi _ =>
      Forall (fun y => in_cls c y = true) xs /\ (lo <= length xs)%nat /\
      match hi with Some h => (length xs <= h)%nat | None => True end
  | Seq a b => exists ys zs, xs = ys ++ zs /\ takes a ys (zs ++ rest) /\ takes b zs rest
  | Alt a b => takes a xs rest \/ takes b xs rest
  | Opt a => takes a xs rest \/ xs = []
  | Grp _ a => takes a xs rest
  end.

(** The scheme of a URL the pattern finds: http or https in any case of the
    letters (the long s counts as an s). *)
Definition url_scheme (s : str) : Prop :=
  exists c1 c2 c3 c4 tl,
    s = c1 :: c2 :: c3 :: c4 :: tl /\
    in_cls (ci "h") c1 = true /\ in_cls (ci "t") c2 = true /\
    in_cls (ci "t") c3 = true /\ in_cls (ci "p") c4 = true /\
    (tl = [] \/ exists c5, tl = [c5] /\ in_cls (ci "s") c5 = true).

(** ** Further vocabulary: the other two dialects *)

(** The line [DD.MM.YYYY, H:MM[:SS]] author: text of the bracketed dialect
    with the fields [f]; it has no dash, and the white space [f_sp2] before
    the dash is not part of it. *)
Definition bracket_line (f : de_fields) : str :=
  [91] ++ f_day f ++ [U.DOT] ++ f_month f ++ [U.DOT] ++ f_year f ++ [44] ++ f_sp1 f
  ++ f_hour f ++ [U.COLON] ++ f_minute f ++ second_text f
  ++ [93] ++ f_sp3 f
  ++ f_author f ++ [U.COLON] ++ f_sp4 f ++ f_text f.

(** The bracketed line cut as the parts of [_pat_bracket] take it. *)
Definition bracket_line_parts (f : de_fields) : str :=
  [91] ++ (f_day f ++ [U.DOT] ++ f_month f ++ [U.DOT] ++ f_year f) ++ [44] ++ f_sp1 f
  ++ (f_hour f ++ [U.COLON] ++ f_minute f) ++ second_text f
  ++ [93] ++ f_sp3 f
  ++ f_author f ++ [U.COLON] ++ f_sp4 f ++ f_text f ++ [].

(** The fields of a line YYYY-MM-DD HH:MM:SS author: text; [i_sep] stands
    between date and time. *)
Record iso_fields := IsoFields {
  i_year : str; i_month : str; i_day : str;
  i_sep : Z;
  i_hour : str; i_minute : str; i_second : str;
  i_sp : str;
  i_author : str;
  i_sp4 : str;
  i_text : str
}.

Definition iso_date (f : iso_fields) : str :=
  i_year f ++ [U.HYPHEN] ++ i_month f ++ [U.HYPHEN] ++ i_day f.

Definition iso_time (f : iso_fields) : str :=
  i_hour f ++ [U.COLON] ++ i_minute f ++ [U.COLON] ++ i_second f.

Definition iso_line (f : iso_fields) : str :=
  i_year f ++ [U.HYPHEN] ++ i_month f ++ [U.HYPHEN] ++ i_day f ++ [i_sep f]
  ++ i_hour f ++ [U.COLON] ++ i_minute f ++ [U.COLON] ++ i_second f
  ++ i_sp f ++ i_author f ++ [U.COLON] ++ i_sp4 f ++ i_text f.

Definition iso_line_parts (f : iso_fields) : str :=
  iso_date f ++ [i_sep f] ++ iso_time f
  ++ i_sp f ++ i_author f ++ [U.COLON] ++ i_sp4 f ++ i_text f ++ [].

(** The fields are those of the grammar of [_pat_iso]: decimal digits in the
    counts of the pattern, a space or a T between date and time, white space
    before the author, who has no colon, and a text without line feed. *)
Record iso_wf (f : iso_fields) : Prop := IsoWf {
  iwf_year : digits 4 4 (i_year f);
  iwf_month : digits 2 2 (i_month f);
  iwf_day : digits 2 2 (i_day f);
  iwf_sep : i_sep f = U.SPACE \/ i_sep f = 84;
  iwf_hour : digits 2 2 (i_hour f);
  iwf_minute : digits 2 2 (i_minute f);
  iwf_second : digits 2 2 (i_second f);
  iwf_sp : blank1 (i_sp f);
  iwf_sp4 : blank (i_sp4 f);
  iwf_author : i_author f <> [] /\ Forall (fun c => c <> U.COLON) (i_author f);
  iwf_author_start : stops space (i_author f);
  iwf_text : Forall (fun c => c <> U.LF) (i_text f);
  iwf_text_start : stops space (i_text f)
}.

(** A text of ASCII digits. *)
Definition ascii_digits (s : str) : Prop := Forall (fun c => 48 <= c <= 57) s.

(** All digits of the date and the time are ASCII digits. *)
Definition iso_ascii (f : iso_fields) : Prop :=
  ascii_digits (i_year f ++ i_month f ++ i_day f
                ++ i_hour f ++ i_minute f ++ i_second f).

(** The number [fromisoformat] reads from a text of ASCII digits. *)
Definition ascii_number (s : str) : Z :=
  match ascii_int_from 0 s with Ok n => n | Raise _ => 0 end.

Definition iso_datetime (f : iso_fields) : datetime :=
  DateTime (ascii_number (i_year f)) (ascii_number (i_month f))
           (ascii_number (i_day f)) (ascii_number (i_hour f))
           (ascii_number (i_minute f)) (ascii_number (i_second f)).

Definition iso_valid (f : iso_fields) : bool :=
  valid_datetime (ascii_number (i_year f)) (ascii_number (i_month f))
                 (ascii_number (i_day f)) (ascii_number (i_hour f))
                 (ascii_number (i_minute f)) (ascii_number (i_second f)).

(** The groups of a match of [_pat_iso] on the fields [f]. *)
Definition iso_groups (f : iso_fields) : list (nat * str) :=
  [ (4%nat, i_text f); (3%nat, i_author f); (2%nat, iso_time f);
    (1%nat, iso_date f) ].

(** The fields of the line [13.04.2019, 18:59:06] Carolin: Text. *)
Definition carolin_fields : de_fields :=
  DeFields (py "13") (py "04") (py "2019") (py " ") (py "18") (py "59")
           (Some (py "06")) (py " ") (py " ") (py "Carolin") (py " ") (py "Text").

(** The fields of the line 2024-01-05 09:00:00 Alice: Hello. *)
Definition alice_iso : iso_fields :=
  IsoFields (py "2024") (py "01") (py "05") U.SPACE (py "09") (py "00") (py "00")
            (py " ") (py "Alice") (py " ") (py "Hello").

(** The same line with the year in Arabic-Indic digits. *)
Definition alice_iso_arabic : iso_fields :=
  IsoFields [1634; 1632; 1634; 1636] (py "01") (py "05") U.SPACE
            (py "09") (py "00") (py "00")
            (py " ") (py "Alice") (py " ") (py "Hello").

Ltac concrete_iso_wf :=
  constructor;
  try (split; [repeat constructor | vm_compute; lia]);
  try (split; [repeat constructor | discriminate]);
  try (split; [discriminate | repeat constructor; discriminate]);
  try (left; reflexivity);
  try (repeat constructor; discriminate);
  try reflexivity.


Ltac concrete_de_wf :=
  concrete_wf;
  try (intros ? [= <-]; split; [repeat constructor | vm_compute; lia]).

(** ** Further vocabulary: the parse as a whole *)

(** The message a line opens, when it is a header line. *)
Definition header_of (line : str) : option Message :=
  match clean_line line with
  | [] => None
  | c :: l =>
      match classify (c :: l) with
      | Ok (Header m) => Some m
      | _ => None
      end
  end.

(** The messages of the header lines, in their order. *)
Fixpoint headers (lines : list str) : list Message :=
  match lines with
  | [] => []
  | l :: ls =>
      match header_of l with
      | Some m => m :: headers ls
      | None => headers ls
      end
  end.

Definition option_list {A} (x : option A) : list A :=
  match x with Some a => [a] | None => [] end.

(** The parse as a fold without mutation: [cur] is the open message; a
    header line closes it and opens the next, any other line adds a line
    feed and itself to it, or is dropped when no message is open. *)
Fixpoint assemble (cur : option Message) (lines : list str) : list Message :=
  match lines with
  | [] => option_list cur
  | l :: ls =>
      match header_of l with
      | Some m => option_list cur ++ assemble (Some m) ls
      | None => assemble (add_text (U.LF :: clean_line l) <$> cur) ls
      end
  end.

Definition valid_ts (t : datetime) : bool :=
  valid_datetime (year t) (month t) (day t) (hour t) (minute t) (second t).

(** A message as the parser leaves it: a date and a time that exist, an
    author [_norm_space] leaves as it is, and a text without byte-order mark
    and direction marks. *)
Definition clean_message (m : Message) : Prop :=
  valid_ts (ts m) = true /\
  _norm_space (author m) = author m /\
  Forall (fun c => c ∉ line_marks) (text m).

(** ** Substitution, file names, attachments and HTML text *)

(** [pattern.sub(repl, s)] for a pattern that matches no empty text and a
    replacement without group references: every match, from left to right and
    none overlapping an earlier one, is replaced by [repl]. *)
Fixpoint sub_from (r : re) (repl : str) (pos skip : nat) (s : str) : str :=
  match s with
  | [] => []
  | c :: s' =>
      match skip with
      | S n => sub_from r repl (S pos) n s'
      | O =>
          match match_at r pos s with
          | Some m => repl ++ sub_from r repl (S pos) (Nat.pred (m_len m)) s'
          | None => c :: sub_from r repl (S pos) 0 s'
          end
      end
  end.

Definition re_sub (r : re) (repl : str) (s : str) : str := sub_from r repl 0 0 s.

(** The code points from [lo], [n] of them. *)
Definition code_points (lo : Z) (n : nat) : list Z :=
  List.map (fun i => lo + Z.of_nat i) (List.seq 0 n).

(** The characters of the class [A-Za-z0-9_\-]. *)
Definition stem_chars : list Z :=
  code_points 65 26 ++ code_points 97 26 ++ code_points 48 10 ++ [95; U.HYPHEN].

Definition is_stem_char (c : Z) : bool := existsb (Z.eqb c) stem_chars.

(** Source pattern: [^A-Za-z0-9_\-]+ *)
Definition _stem_re : re := plus (CNot (List.map AChr stem_chars)).

(** [s.strip(chars)] for the characters with [p]. *)
Definition strip_chars (p : Z -> bool) (s : str) : str := rstrip p (lstrip p s).

Definition is_underscore (c : Z) : bool := c =? 95.

(** [safe_filename_stem] *)
Definition safe_filename_stem (stem : str) : str :=
  let stem := re_sub _stem_re [95] stem in
  match strip_chars is_underscore stem with
  | [] => py "WHATSAPP_CHAT"
  | c :: t => c :: t
  end.

(** Source pattern, compiled with re.IGNORECASE:
    <\s*Anhang:\s*([^>]+?)\s*> *)
Definition _attach_re : re :=
  cat [ lit "<"; star space;
        One (ci "a"); One (ci "n"); One (ci "h"); One (ci "a"); One (ci "n");
        One (ci "g"); lit ":"; star space;
        Grp 1 (plus_lazy (CNot [AChr 62])); star space; lit ">" ].

(** [find_attachments] *)
Definition find_attachments (text : str) : list str :=
  List.map (fun m => strip (default [] (group m 1))) (finditer _attach_re text).

(** [strip_attachment_markers] *)
Definition strip_attachment_markers (text : str) : str :=
  strip (re_sub _attach_re [] text).

(** [s.replace(c, r)] for a single character [c]. *)
Definition replace_by (c : Z) (r : str) (s : str) : str :=
  List.concat (List.map (fun x => if x =? c then r else [x]) s).

(** [html.escape(s)], quotes included. *)
Definition html_escape (s : str) : str :=
  let s := replace_by 38 (py "&amp;") s in
  let s := replace_by 60 (py "&lt;") s in
  let s := replace_by 62 (py "&gt;") s in
  let s := replace_by 34 (py "&quot;") s in
  replace_by 39 (py "&#x27;") s.

(** [html_escape_keep_newlines] *)
Definition html_escape_keep_newlines (s : str) : str :=
  join (py "<br>") (splitlines (html_escape s)).

(** The characters that could end or open markup in an HTML text or
    attribute. *)
Definition is_markup (c : Z) : bool :=
  (c =? 60) || (c =? 62) || (c =? 34) || (c =? 39).

(** A text that neither starts nor ends with a character with [p]. *)
Definition no_ends (p : Z -> bool) (s : str) : Prop :=
  (forall c t, s = c :: t -> p c = false) /\
  (forall v c, s = v ++ [c] -> p c = false).

(** Every group of the pattern [r] has the property [G] whenever it is set:
    [G i xs] holds for every text [xs] the body of group [i] can take. *)
Fixpoint groups_have (G : nat -> str -> Prop) (r : re) : Prop :=
  match r with
  | Seq a b => groups_have G a /\ groups_have G b
  | Alt a b => groups_have G a /\ groups_have G b
  | Opt a => groups_have G a
  | Grp i a => groups_have G a /\ forall xs rest, takes a xs rest -> G i xs
  | _ => True
  end.

(** The marker of an attachment with the name [name]. *)
Definition attachment_marker (name : str) : str :=
  py "<Anhang: " ++ name ++ py ">".

(** Every class of the pattern [r] holds characters with [P] only. *)
Fixpoint classes_have (P : Z -> Prop) (r : re) : Prop :=
  match r with
  | One c => forall y, in_cls c y = true -> P y
  | Rep c _ _ _ => forall y, in_cls c y = true -> P y
  | Seq a b => classes_have P a /\ classes_have P b
  | Alt a b => classes_have P a /\ classes_have P b
  | Opt a => classes_have P a
  | Grp _ a => classes_have P a
  | _ => True
  end.

(** The characters a URL of [extract_urls] is made of: no white space, no
    angle bracket and no closing square bracket. *)
Definition is_url_char (c : Z) : Prop :=
  isspace c = false /\ c <> 60 /\ c <> 62 /\ c <> 93.

(** ** The perspective of the export: [choose_me_name] *)

(** [str(i)] for a natural number. *)
Fixpoint uint_str (d : Decimal.uint) : str :=
  match d with
  | Decimal.Nil => []
  | Decimal.D0 d => 48 :: uint_str d
  | Decimal.D1 d => 49 :: uint_str d
  | Decimal.D2 d => 50 :: uint_str d
  | Decimal.D3 d => 51 :: uint_str d
  | Decimal.D4 d => 52 :: uint_str d
  | Decimal.D5 d => 53 :: uint_str d
  | Decimal.D6 d => 54 :: uint_str d
  | Decimal.D7 d => 55 :: uint_str d
  | Decimal.D8 d => 56 :: uint_str d
  | Decimal.D9 d => 57 :: uint_str d
  end.

Definition str_of_nat (n : nat) : str := uint_str (Nat.to_uint n).

(** The pseudo-authors of system notices, in lower case. *)
Definition system_markers : list str :=
  [ py "system"; py "whatsapp"; py "messages to this chat are now secured";
    py "nachrichten und anrufe sind ende-zu-ende-verschl" ++ [252] ++ py "sselt" ].

(** The characters of the argument of [rstrip] in [choose_me_name]: the
    closing parenthesis and the full stop. *)
Definition is_number_end (c : Z) : bool := (c =? 41) || (c =? U.DOT).

Section Perspective.

(** [str.casefold], a function of the text. *)
Variable casefold : str -> str.

(** The first loop: the authors normalised, the empty ones left out, each
    one once. *)
Fixpoint uniq_authors (uniq : list str) (authors : list str) : list str :=
  match authors with
  | [] => uniq
  | a :: authors' =>
      let a2 := _norm_space a in
      match a2 with
      | [] => uniq_authors uniq authors'
      | _ =>
          if bool_decide (a2 ∈ uniq) then uniq_authors uniq authors'
          else uniq_authors (uniq ++ [a2]) authors'
      end
  end.

Definition is_system_marker (a : str) : bool :=
  bool_decide (casefold (_norm_space a) ∈ system_markers).

(** The list [uniq] once the system pseudo-authors are filtered out, unless
    nothing would be left. *)
Definition candidates (authors : list str) : list str :=
  let uniq := uniq_authors [] authors in
  match List.filter (fun a => negb (is_system_marker a)) uniq with
  | [] => uniq
  | uniq2 => uniq2
  end.

(** The dictionary [idx_map]: the numbers shown, from [i] on. *)
Fixpoint idx_map_from (i : nat) (uniq : list str) (m : gmap str str)
    : gmap str str :=
  match uniq with
  | [] => m
  | name :: uniq' => idx_map_from (S i) uniq' (<[str_of_nat i := name]> m)
  end.

(** The dictionary [name_map]: a later name replaces an earlier one with the
    same case-folded form. *)
Definition name_map (uniq : list str) : gmap str str :=
  fold_left (fun m name => <[casefold name := name]> m) uniq ∅.

(** The loop that asks: [inputs] are the lines typed, after which the input
    is at its end. *)
Fixpoint ask (first : str) (idx names : gmap str str) (inputs : list str) : str :=
  match inputs with
  | [] => first
  | line :: inputs' =>
      match _norm_space line with
      | [] => first
      | raw =>
          match idx !! rstrip is_number_end raw with
          | Some name => name
          | None =>
              match names !! casefold raw with
              | Some name => name
              | None => ask first idx names inputs'
              end
          end
      end
  end.

(** [choose_me_name]; [interactive] is what [sys.stdin.isatty()] answers. *)
Definition choose_me_name (interactive : bool) (inputs : list str)
    (authors : list str) : str :=
  match candidates authors with
  | [] => py "Ich"
  | first :: rest =>
      if interactive
      then ask first (idx_map_from 1 (first :: rest) ∅) (name_map (first :: rest)) inputs
      else first
  end.

End Perspective.

(** ** The audit script: paths without names *)

(** The directory names [sanitize] keeps. *)
Definition known_dirs : list str :=
  [ py "documents"; py "images"; py "videos"; py "audios"; py "media";
    py "attachments"; py "_thumbs"; py "_previews"; py "previews" ].

(** [s.startswith(p)] *)
Fixpoint startswith (p s : str) : bool :=
  match p, s with
  | [], _ => true
  | x :: p', y :: s' => (x =? y) && startswith p' s'
  | _ :: _, [] => false
  end.

Definition is_slash (c : Z) : bool := c =? 47.

Section Audit.

(** [str.isalpha] of a character and [str.lower] of a text. *)
Variable isalpha : Z -> bool.
Variable lower : str -> str.

(** The loop of [scrub_component], with its list [out] and its flag. *)
Fixpoint scrub_loop (out : str) (last_underscore : bool) (comp : str) : str :=
  match comp with
  | [] => out
  | ch :: comp' =>
      if isalpha ch then
        if last_underscore then scrub_loop out true comp'
        else scrub_loop (out ++ [95]) true comp'
      else scrub_loop (out ++ [ch]) false comp'
  end.

(** [scrub_component] *)
Definition scrub_component (comp : str) : str :=
  match strip_chars is_underscore (scrub_loop [] false comp) with
  | [] => [95]
  | trimmed => trimmed
  end.

(** The first component of an export: the name of the chat. *)
Definition is_chat_root (lower_ : str) : bool :=
  startswith (py "whatsapp chat") lower_ || startswith (py "whatsapp-chat") lower_.

(** The loop of [sanitize] over the components and their indices. *)
Fixpoint sanitize_loop (idx : nat) (out : list str) (parts : list str) : list str :=
  match parts with
  | [] => out
  | comp :: parts' =>
      let lower_ := lower comp in
      if Nat.eqb idx 0 && is_chat_root lower_ then sanitize_loop (S idx) out parts'
      else if bool_decide (lower_ ∈ known_dirs)
           then sanitize_loop (S idx) (out ++ [lower_]) parts'
           else sanitize_loop (S idx) (out ++ [scrub_component comp]) parts'
  end.

Definition is_component (c : str) : bool :=
  negb (bool_decide (c = [])) && negb (bool_decide (c = py ".")).

(** [sanitize] *)
Definition sanitize (rel : str) : str :=
  let p := strip_chars is_slash (replace_by 92 [47] rel) in
  let parts := List.filter is_component (split_on 47 p) in
  join [47] (sanitize_loop 0 [] parts).

End Audit.

(** [str.isalpha] and [str.lower] on ASCII text. *)
Definition ascii_isalpha (c : Z) : bool :=
  ((65 <=? c) && (c <=? 90)) || ((97 <=? c) && (c <=? 122)).

Definition ascii_lower (s : str) : str :=
  List.map (fun c => if (65 <=? c) && (c <=? 90) then c + 32 else c) s.

(** The characters [scrub_component] keeps where they are: neither letters
    nor underscores. *)
Definition kept (isalpha : Z -> bool) (s : str) : str :=
  List.filter (fun c => negb (isalpha c) && negb (is_underscore c)) s.

(** ** Further vocabulary: the lines that make the parser raise *)

(** [captures r xs rest gs]: the pattern [r] can take [xs] in front of [rest]
    and sets its groups to [gs] on the way, the group set last standing
    first. *)
Fixpoint captures (r : re) (xs rest : str) (gs : list (nat * str)) : Prop :=
  match r with
  | Seq a b =>
      exists ys zs ga gb,
        xs = ys ++ zs /\ captures a ys (zs ++ rest) ga /\ captures b zs rest gb /\
        gs = gb ++ ga
  | Alt a b => captures a xs rest gs \/ captures b xs rest gs
  | Opt a => captures a xs rest gs \/ (xs = [] /\ gs = [])
  | Grp i a => exists ga, captures a xs rest ga /\ gs = (i, xs) :: ga
  | _ => takes r xs rest /\ gs = []
  end.

(** A pattern without groups. *)
Fixpoint groupless (r : re) : bool :=
  match r with
  | Grp _ _ => false
  | Seq a b => groupless a && groupless b
  | Alt a b => groupless a && groupless b
  | Opt a => groupless a
  | _ => true
  end.

(** The fields are those the grammar of [_pat_de] and [_pat_bracket] allows:
    every line one of the two patterns matches is made of such fields.  The
    white space the patterns leave to the author or the text when they go
    back is not excluded here, as it is in [de_wf]. *)
Record de_shape (f : de_fields) : Prop := DeShape {
  sh_day : digits 1 2 (f_day f);
  sh_month : digits 1 2 (f_month f);
  sh_year : digits 2 4 (f_year f);
  sh_hour : digits 1 2 (f_hour f);
  sh_minute : digits 2 2 (f_minute f);
  sh_second : forall ss, f_second f = Some ss -> digits 2 2 ss;
  sh_sp1 : blank1 (f_sp1 f);
  sh_sp2 : blank1 (f_sp2 f);
  sh_sp3 : blank1 (f_sp3 f);
  sh_sp4 : blank (f_sp4 f);
  sh_author : f_author f <> [] /\ Forall (fun c => c <> U.COLON) (f_author f);
  sh_text : Forall (fun c => c <> U.LF) (f_text f)
}.

(** The same for [_pat_iso]. *)
Record iso_shape (f : iso_fields) : Prop := IsoShape {
  ish_year : digits 4 4 (i_year f);
  ish_month : digits 2 2 (i_month f);
  ish_day : digits 2 2 (i_day f);
  ish_sep : i_sep f = U.SPACE \/ i_sep f = 84;
  ish_hour : digits 2 2 (i_hour f);
  ish_minute : digits 2 2 (i_minute f);
  ish_second : digits 2 2 (i_second f);
  ish_sp : blank1 (i_sp f);
  ish_sp4 : blank (i_sp4 f);
  ish_author : i_author f <> [] /\ Forall (fun c => c <> U.COLON) (i_author f);
  ish_text : Forall (fun c => c <> U.LF) (i_text f)
}.

(** A line with the shape of a header whose date and time cannot be read: a
    line of dialect 1 with a decimal digit outside ASCII or with values that
    are no date and time, or a line of dialect 2 or of the bracketed dialect
    with values that are no date and time. *)
Definition unreadable_header (line : str) : Prop :=
  (exists f, iso_shape f /\ line = iso_line f /\
             (~ iso_ascii f \/ iso_valid f = false)) \/
  (exists f, de_shape f /\
             (line = de_line U.HYPHEN f \/ line = bracket_line f) /\
             de_valid f = false).

(** The fields of the line 2024-01-05 99:00:00 Alice: Hello, with hour 99. *)
Definition hour_99 : iso_fields :=
  IsoFields (py "2024") (py "01") (py "05") U.SPACE (py "99") (py "00") (py "00")
            (py " ") (py "Alice") (py " ") (py "Hello").

(** The fields of the line [31.02.2019, 18:59:06] Carolin: Text, with the
    thirty-first of February. *)
Definition february_31 : de_fields :=
  DeFields (py "31") (py "02") (py "2019") (py " ") (py "18") (py "59")
           (Some (py "06")) (py " ") (py " ") (py "Carolin") (py " ") (py "Text").

(** * Properties *)

(** ** String helpers *)

Lemma drop_while_head p c s : p c = false -> drop_while p (c :: s) = c :: s.
Proof. intros H. simpl. now rewrite H. Qed.

Lemma rstrip_snoc p s c : p c = false -> rstrip p (s ++ [c]) = s ++ [c].
Proof.
  intros H. unfold rstrip. rewrite rev_app_distr. simpl.
  rewrite H. simpl. now rewrite rev_involutive.
Qed.

Lemma rstrip_nil p : rstrip p [] = [].
Proof. reflexivity. Qed.

Lemma replace_char_id a b s :
  Forall (fun c => c <> a) s -> replace_char a b s = s.
Proof.
  induction 1 as [|c s Hc _ IH]; simpl; [reflexivity|].
  rewrite IH. destruct (Z.eqb_spec c a); congruence.
Qed.

Lemma remove_char_id a s :
  Forall (fun c => c <> a) s -> remove_char a s = s.
Proof.
  unfold remove_char.
  induction 1 as [|c s Hc _ IH]; simpl; [reflexivity|].
  destruct (Z.eqb_spec c a); [congruence|]. simpl. now rewrite IH.
Qed.

Lemma remove_chars_id cs s :
  Forall (fun c => c ∉ cs) s -> remove_chars cs s = s.
Proof.
  unfold remove_chars. induction cs as [|a cs IH]; intros H; simpl; [reflexivity|].
  rewrite remove_char_id.
  - apply IH. eapply Forall_impl; [exact H|]. intros c Hc Hin. apply Hc. now right.
  - eapply Forall_impl; [exact H|]. intros c Hc ->. apply Hc. now left.
Qed.

Lemma remove_char_Forall (P : Z -> Prop) a s :
  Forall P s -> Forall P (remove_char a s).
Proof.
  induction 1 as [|c s Hc _ IH]; simpl; [constructor|].
  destruct (negb (c =? a)); [constructor|]; assumption.
Qed.

Lemma remove_char_gone a s : Forall (fun c => c <> a) (remove_char a s).
Proof.
  induction s as [|c s IH]; simpl; [constructor|].
  destruct (Z.eqb_spec c a); simpl; [assumption|]. now constructor.
Qed.

Lemma remove_chars_gone cs s : Forall (fun c => c ∉ cs) (remove_chars cs s).
Proof.
  unfold remove_chars. revert s. induction cs as [|a cs IH]; intros s; simpl.
  - apply Forall_forall. intros c _ H. inversion H.
  - specialize (IH (remove_char a s)).
    assert (Ha : Forall (fun c => c <> a)
                   (fold_left (fun acc c => remove_char c acc) cs (remove_char a s))).
    { generalize (remove_char_gone a s). generalize (remove_char a s).
      clear. induction cs as [|b cs IH]; intros t Ht; simpl; [assumption|].
      apply IH. now apply remove_char_Forall. }
    rewrite Forall_forall in IH, Ha. apply Forall_forall. intros c Hc Hin.
    apply elem_of_cons in Hin as [->|Hin]; [now apply (Ha a)|now apply (IH c)].
Qed.

Lemma split_ws_from_tokens (P : Z -> Prop) s : forall cur,
  Forall (fun c => isspace c = false /\ P c) cur ->
  Forall P s ->
  Forall (token P) (split_ws_from cur s).
Proof.
  induction s as [|c s IH]; intros cur Hcur Hs; simpl.
  - destruct cur; [constructor|]. constructor; [|constructor]. now split.
  - inversion Hs as [|? ? Hc Hs']; subst.
    destruct (isspace c) eqn:E.
    + destruct cur.
      * apply IH; [constructor|assumption].
      * constructor; [now split|]. apply IH; [constructor|assumption].
    + apply IH; [|assumption]. apply Forall_app. split; [assumption|].
      constructor; [now split|constructor].
Qed.

Lemma split_ws_from_run P t s cur :
  Forall (fun c => isspace c = false /\ P c) t ->
  split_ws_from cur (t ++ s) = split_ws_from (cur ++ t) s.
Proof.
  intros H. revert cur. induction H as [|c t [Hc _] _ IH]; intros cur; simpl.
  - now rewrite app_nil_r.
  - rewrite Hc, IH, <- app_assoc. reflexivity.
Qed.

Lemma split_ws_join P ts :
  Forall (token P) ts -> split_ws (join [U.SPACE] ts) = ts.
Proof.
  unfold split_ws. induction 1 as [|t ts [Hne Ht] Hts IH]; [reflexivity|].
  destruct ts as [|t' ts].
  - simpl. rewrite <- (app_nil_r t) at 1.
    rewrite (split_ws_from_run P) by assumption. simpl. now destruct t.
  - change (join [U.SPACE] (t :: t' :: ts))
      with (t ++ [U.SPACE] ++ join [U.SPACE] (t' :: ts)).
    rewrite (split_ws_from_run P) by assumption.
    change ([U.SPACE] ++ ?x) with (U.SPACE :: x).
    cbn [split_ws_from app]. change (isspace U.SPACE) with true. cbn iota.
    rewrite IH. now destruct t.
Qed.

Lemma join_tokens_chars P ts :
  Forall (token P) ts ->
  Forall (fun c => c = U.SPACE \/ (isspace c = false /\ P c)) (join [U.SPACE] ts).
Proof.
  induction 1 as [|t ts [Hne Ht] Hts IH]; [constructor|].
  assert (Ht' : Forall (fun c => c = U.SPACE \/ (isspace c = false /\ P c)) t).
  { eapply Forall_impl; [exact Ht|]. intros; now right. }
  destruct ts as [|t' ts]; [exact Ht'|].
  change (join [U.SPACE] (t :: t' :: ts))
    with (t ++ [U.SPACE] ++ join [U.SPACE] (t' :: ts)).
  apply Forall_app. split; [assumption|].
  constructor; [now left|assumption].
Qed.

Lemma join_tokens_ends P ts :
  Forall (token P) ts -> ts <> [] ->
  (exists c s, join [U.SPACE] ts = c :: s /\ isspace c = false) /\
  (exists s c, join [U.SPACE] ts = s ++ [c] /\ isspace c = false).
Proof.
  induction 1 as [|t ts [Hne Ht] Hts IH]; intros Hn; [congruence|].
  assert (Hfirst : exists c t', t = c :: t' /\ isspace c = false).
  { destruct t as [|c t']; [congruence|]. inversion Ht as [|? ? [Hc _] _]; eauto. }
  assert (Hlast : exists t' c, t = t' ++ [c] /\ isspace c = false).
  { destruct (exists_last Hne) as (t' & c & ->).
    apply Forall_app in Ht as [_ Hc]. inversion Hc as [|? ? [Hc' _] _]; eauto. }
  destruct ts as [|t' ts]; [split; assumption|].
  change (join [U.SPACE] (t :: t' :: ts))
    with (t ++ [U.SPACE] ++ join [U.SPACE] (t' :: ts)).
  destruct IH as [_ (s & c & Hs & Hc)]; [congruence|]. split.
  - destruct Hfirst as (c0 & t0 & -> & Hc0). simpl. eauto.
  - exists (t ++ [U.SPACE] ++ s), c. rewrite Hs, <- !app_assoc. now split.
Qed.

Lemma strip_join_tokens P ts :
  Forall (token P) ts -> strip (join [U.SPACE] ts) = join [U.SPACE] ts.
Proof.
  intros H. destruct ts as [|t ts]; [reflexivity|].
  destruct (join_tokens_ends P (t :: ts) H) as [(c & s & Hs & Hc) (s' & c' & Hs' & Hc')];
    [congruence|].
  unfold strip, lstrip. rewrite Hs, drop_while_head by assumption.
  rewrite <- Hs, Hs'. now apply rstrip_snoc.
Qed.

(** [_norm_space] leaves a text made of tokens joined by single spaces as it
    is. *)
Lemma norm_space_join ts :
  Forall (token (fun c => c ∉ direction_marks)) ts ->
  _norm_space (join [U.SPACE] ts) = join [U.SPACE] ts.
Proof.
  intros H. unfold _norm_space.
  pose proof (join_tokens_chars _ ts H) as Hch.
  rewrite replace_char_id.
  2:{ eapply Forall_impl; [exact Hch|]. intros c [->|[Hc _]]; [discriminate|].
      intros ->. discriminate. }
  rewrite (strip_join_tokens _ ts H).
  rewrite remove_chars_id.
  2:{ eapply Forall_impl; [exact Hch|]. intros c [->|[_ Hc]]; [|assumption].
      unfold direction_marks. rewrite !elem_of_cons, elem_of_nil.
      intros [?|[?|[?|[?|[?|[]]]]]]; discriminate. }
  f_equal. now apply (split_ws_join (fun c => c ∉ direction_marks)).
Qed.

(** ** The normaliser *)

(** C10: [_norm_space] is idempotent: normalising a normalised text, as is
    done to author names after their extraction, never changes it. *)
Theorem norm_space_idempotent (s : str) :
  _norm_space (_norm_space s) = _norm_space s.
Proof.
  unfold _norm_space at 2 3.
  apply norm_space_join.
  apply split_ws_from_tokens; [constructor|].
  apply remove_chars_gone.
Qed.

(** ** Reasoning about the matcher *)

Lemma moved_at pre xs s g : moved (at_ pre (xs ++ s) g) s = at_ (pre ++ xs) s g.
Proof. unfold moved, at_. simpl. f_equal. rewrite !length_app. lia. Qed.

Lemma set_group_at i pre xs s g g' :
  set_group i (at_ pre (xs ++ s) g) (at_ (pre ++ xs) s g')
  = at_ (pre ++ xs) s ((i, xs) :: g').
Proof.
  unfold set_group, at_. simpl. do 3 f_equal.
  rewrite length_app, Nat.add_comm, Nat.add_sub. apply take_app_length.
Qed.

Lemma rep_greedy_run {A} c xs s (k : str -> option A) x : forall lo hi,
  Forall (fun y => in_cls c y = true) xs ->
  (lo <= length xs)%nat ->
  match hi with Some h => (length xs <= h)%nat | None => True end ->
  stops c s \/ hi = Some (length xs) ->
  k s = Some x ->
  rep c true lo hi (xs ++ s) k = Some x.
Proof.
  induction xs as [|y xs IH]; intros lo hi Hxs Hlo Hhi Hstop Hk.
  - simpl in *. assert (lo = O) by lia. subst lo.
    destruct s as [|y s']; simpl; [exact Hk|].
    destruct Hstop as [Hy| ->]; [simpl in Hy; now rewrite Hy|].
    simpl. now rewrite andb_false_r.
  - inversion Hxs as [|? ? Hy Hxs']; subst. simpl in Hlo, Hhi.
    cbn [app rep]. rewrite Hy.
    assert (Ha : hi_allows hi = true).
    { destruct hi as [[|h]|]; simpl; [lia|reflexivity|reflexivity]. }
    rewrite Ha. cbn [andb].
    rewrite (IH (Nat.pred lo) (hi_pred hi)); [reflexivity|assumption|lia| | |assumption].
    + destruct hi as [h|]; simpl; [lia|exact I].
    + destruct Hstop as [Hs| ->]; [now left|right]. reflexivity.
Qed.

Lemma rep_lazy_run {A} c xs s (k : str -> option A) x : forall lo,
  Forall (fun y => in_cls c y = true) xs ->
  (lo <= length xs)%nat ->
  (forall y t, y ∈ xs -> k (y :: t) = None) ->
  k s = Some x ->
  rep c false lo None (xs ++ s) k = Some x.
Proof.
  induction xs as [|y xs IH]; intros lo Hxs Hlo Hfail Hk.
  - simpl in *. assert (lo = O) by lia. subst lo.
    destruct s as [|y s']; simpl; [exact Hk|].
    rewrite Hk. now destruct (in_cls c y).
  - inversion Hxs as [|? ? Hy Hxs']; subst. simpl in Hlo.
    cbn [app rep]. rewrite Hy. cbn [hi_allows andb hi_pred].
    assert (Hstop : match lo with O => k (y :: xs ++ s) | S _ => None end = None).
    { destruct lo; [|reflexivity]. apply Hfail. now left. }
    rewrite Hstop. cbn [or_else].
    apply IH; [assumption|lia| |assumption].
    intros z t Hz. apply Hfail. now right.
Qed.

Lemma rep_short_fail {A} c g xs y s (k : str -> option A) : forall lo hi,
  (length xs < lo)%nat ->
  in_cls c y = false ->
  rep c g lo hi (xs ++ y :: s) k = None.
Proof.
  induction xs as [|z xs IH]; intros lo hi Hlo Hy.
  - simpl. rewrite Hy. simpl. destruct lo; [simpl in Hlo; lia|reflexivity].
  - simpl in Hlo. cbn [app rep].
    assert (Hstop : match lo with O => k (z :: xs ++ y :: s) | S _ => None end = None).
    { destruct lo; [lia|reflexivity]. }
    rewrite Hstop.
    destruct (in_cls c z && hi_allows hi); [|reflexivity].
    rewrite IH by (assumption || lia). now destruct g.
Qed.

Lemma eats_seq a b pre xs ys s g g1 g2 :
  eats a pre xs (ys ++ s) g g1 ->
  eats b (pre ++ xs) ys s g1 g2 ->
  eats (Seq a b) pre (xs ++ ys) s g g2.
Proof.
  intros Ha Hb A k x Hk. cbn [run]. rewrite <- app_assoc.
  apply Ha. apply Hb. now rewrite <- app_assoc.
Qed.

Lemma eats_bol xs s g g' r :
  eats r [] xs s g g' -> eats (Seq Bol r) [] xs s g g'.
Proof. intros H A k x Hk. cbn [run at_ m_pos length]. now apply H. Qed.

Lemma eats_eol pre g : eats Eol pre [] [] g g.
Proof. intros A k x Hk. cbn [run at_ m_rest app]. now rewrite app_nil_r in Hk. Qed.

Lemma eats_one c pre y s g :
  in_cls c y = true -> eats (One c) pre [y] s g g.
Proof.
  intros Hy A k x Hk. cbn [run at_ m_rest app]. rewrite Hy.
  change (y :: s) with ([y] ++ s). now rewrite moved_at.
Qed.

Lemma eats_greedy c lo hi pre xs s g :
  Forall (fun y => in_cls c y = true) xs ->
  (lo <= length xs)%nat ->
  match hi with Some h => (length xs <= h)%nat | None => True end ->
  stops c s \/ hi = Some (length xs) ->
  eats (Rep c lo hi true) pre xs s g g.
Proof.
  intros Hxs Hlo Hhi Hstop A k x Hk. cbn [run].
  change (m_rest (at_ pre (xs ++ s) g)) with (xs ++ s).
  apply rep_greedy_run; try assumption. now rewrite moved_at.
Qed.

Lemma eats_grp i a pre xs s g g' :
  eats a pre xs s g g' -> eats (Grp i a) pre xs s g ((i, xs) :: g').
Proof.
  intros Ha A k x Hk. cbn [run]. apply Ha. now rewrite set_group_at.
Qed.

Lemma eats_opt_taken a pre xs s g g' :
  eats a pre xs s g g' -> eats (Opt a) pre xs s g g'.
Proof. intros Ha A k x Hk. cbn [run]. now rewrite (Ha A k x Hk). Qed.

Lemma eats_opt_skipped a pre s g :
  (forall A (k : mstate -> option A), run a (at_ pre s g) k = None) ->
  eats (Opt a) pre [] s g g.
Proof.
  intros Ha A k x Hk. cbn [run app]. rewrite Ha. cbn [or_else].
  now rewrite app_nil_r in Hk.
Qed.

(** A lazy repetition in a group, followed by [r]: it stops at the first
    place where [r] succeeds, [r] failing at every character of [xs]. *)
Lemma eats_lazy_then i c lo r pre xs ys s g g' :
  Forall (fun y => in_cls c y = true) xs ->
  (lo <= length xs)%nat ->
  (forall y t p h A (k : mstate -> option A),
     y ∈ xs -> run r (MState p (y :: t) h) k = None) ->
  eats r (pre ++ xs) ys s ((i, xs) :: g) g' ->
  eats (Seq (Grp i (Rep c lo None false)) r) pre (xs ++ ys) s g g'.
Proof.
  intros Hxs Hlo Hfail Hr A k x Hk. cbn [run].
  change (m_rest (at_ pre ((xs ++ ys) ++ s) g)) with ((xs ++ ys) ++ s).
  rewrite <- app_assoc. apply rep_lazy_run; try assumption.
  - intros y t Hy. apply Hfail. exact Hy.
  - cbv beta. rewrite moved_at, set_group_at.
    apply Hr. now rewrite <- app_assoc.
Qed.

Lemma run_one_fail {A} c r p y t h (k : mstate -> option A) :
  in_cls c y = false -> run (Seq (One c) r) (MState p (y :: t) h) k = None.
Proof. intros Hy. cbn [run m_rest]. now rewrite Hy. Qed.

(** ** The loop of the parser *)

Lemma classify_no_header line :
  no_header line -> classify (clean_line line) = Ok Continuation.
Proof. intros (H1 & H2 & H3). unfold classify. now rewrite H1, H2, H3. Qed.

Lemma step_no_header st line :
  no_header line -> step st line = Ok (append_last (U.LF :: clean_line line) st).
Proof.
  intros H. unfold step. destruct (clean_line line) eqn:E; [reflexivity|].
  rewrite <- E, (classify_no_header line H). reflexivity.
Qed.

Lemma step_header st line m :
  header_line line m -> step st line = Ok (push m st).
Proof.
  intros [Hne H]. unfold step. destruct (clean_line line) eqn:E; [congruence|].
  now rewrite H.
Qed.

Lemma append_last_open t done m :
  append_last t (open_state done m) = open_state done (add_text t m).
Proof.
  unfold append_last, open_state. simpl. f_equal.
  rewrite alter_app_r_alt by lia. now rewrite Nat.sub_diag.
Qed.

Lemma push_open m st : push m st = open_state (msgs st) m.
Proof. reflexivity. Qed.

Lemma add_text_add_text t u m : add_text u (add_text t m) = add_text (t ++ u) m.
Proof. unfold add_text. simpl. now rewrite app_assoc. Qed.

Lemma add_text_nil m : add_text [] m = m.
Proof. destruct m. unfold add_text. simpl. now rewrite app_nil_r. Qed.

Lemma loop_no_header_closed ls :
  Forall no_header ls -> loop (PState [] None) ls = Ok (PState [] None).
Proof.
  induction 1 as [|l ls Hl _ IH]; [reflexivity|].
  simpl. rewrite (step_no_header _ l Hl). simpl. exact IH.
Qed.

Lemma loop_no_header_open ls : forall done m,
  Forall no_header ls ->
  loop (open_state done m) ls = Ok (open_state done (add_text (continuation_text ls) m)).
Proof.
  induction ls as [|l ls IH]; intros done m H.
  - simpl. now rewrite add_text_nil.
  - inversion H as [|? ? Hl Hls]; subst. simpl.
    rewrite (step_no_header _ l Hl). simpl. rewrite append_last_open.
    rewrite (IH _ _ Hls), add_text_add_text. reflexivity.
Qed.

Lemma loop_app st ls1 ls2 :
  loop st (ls1 ++ ls2) = let* st' := loop st ls1 in loop st' ls2.
Proof.
  revert st. induction ls1 as [|l ls1 IH]; intros st; [reflexivity|].
  simpl. destruct (step st l); simpl; [apply IH|reflexivity].
Qed.

(** C9: the lines before the first header line in which no header pattern
    matches are dropped: the parse is that of the lines after them, and two
    such lines followed by one header line give exactly one message. *)
Theorem orphan_lines_dropped (content : str) (orphans rest : list str) :
  splitlines content = orphans ++ rest ->
  Forall no_header orphans ->
  parse_messages content = parse_lines rest /\
  (forall o1 o2 h m,
     orphans = [o1; o2] -> rest = [h] -> header_line h m ->
     parse_messages content = Ok [m]).
Proof.
  intros Hsplit Horph.
  assert (Hdrop : parse_messages content = parse_lines rest).
  { unfold parse_messages, parse_lines. rewrite Hsplit, loop_app.
    now rewrite (loop_no_header_closed orphans Horph). }
  split; [exact Hdrop|].
  intros o1 o2 h m _ -> Hh. rewrite Hdrop.
  unfold parse_lines. simpl. now rewrite (step_header _ h m Hh).
Qed.

(** C1: a header line followed by lines in which no header pattern matches
    gives a single message: its text is the text of the header followed, in
    the order of the lines, by a line feed and the line for each of them, a
    blank line adding the line feed alone. *)
Theorem continuation_absorbed (content h : str) (ls : list str) (m : Message) :
  splitlines content = h :: ls ->
  header_line h m ->
  Forall no_header ls ->
  parse_messages content =
    Ok [Msg (ts m) (author m)
            (text m ++ concat (List.map (fun l => [U.LF] ++ clean_line l) ls))].
Proof.
  intros Hsplit Hh Hls.
  unfold parse_messages, parse_lines. rewrite Hsplit. simpl.
  rewrite (step_header _ h m Hh). simpl. rewrite push_open. simpl.
  now rewrite (loop_no_header_open ls [] m Hls).
Qed.

(** ** Lines of dialect 2 *)

Lemma isspace_cases c :
  isspace c = true ->
  (9 <= c <= 13) \/ (28 <= c <= 32) \/ c = 133 \/ c = 160 \/ c = 5760 \/
  (8192 <= c <= 8202) \/ c = 8232 \/ c = 8233 \/ c = 8239 \/ c = 8287 \/ c = 12288.
Proof. unfold isspace. intros H. lia. Qed.

Lemma decimal_not_space c : isdecimal c = true -> isspace c = false.
Proof.
  intros Hd. destruct (isspace c) eqn:Hs; [|reflexivity].
  apply isspace_cases in Hs.
  assert (Hc : c ∈ [9; 10; 11; 12; 13; 28; 29; 30; 31; 32; 133; 160; 5760; 8192;
                    8193; 8194; 8195; 8196; 8197; 8198; 8199; 8200; 8201; 8202;
                    8232; 8233; 8239; 8287; 12288]).
  { rewrite !elem_of_cons. lia. }
  rewrite !elem_of_cons, elem_of_nil in Hc.
  repeat (destruct Hc as [->|Hc]; [vm_compute in Hd; discriminate|]).
  destruct Hc.
Qed.

Lemma decimal_ne c x : isdecimal x = false -> isdecimal c = true -> c <> x.
Proof. intros Hx Hc ->. congruence. Qed.

Lemma int_from_digits s : forall acc,
  Forall (fun c => isdecimal c = true) s -> exists n, int_from acc s = Ok n.
Proof.
  induction s as [|c s IH]; intros acc H; simpl; [eauto|].
  inversion H as [|? ? Hc Hs]; subst. unfold isdecimal in Hc.
  destruct (digit_value c); [now apply IH|discriminate].
Qed.

Lemma int_digits lo hi s : digits lo hi s -> (1 <= lo)%nat -> int s = Ok (number s).
Proof.
  intros [Hd [Hlo _]] H1. unfold number.
  destruct s as [|c s]; [simpl in Hlo; lia|].
  unfold int. destruct (int_from_digits (c :: s) 0 Hd) as [n ->]. reflexivity.
Qed.

Lemma split_on_from_run sep a rest : forall cur,
  Forall (fun c => c <> sep) a ->
  split_on_from sep cur (a ++ rest) = split_on_from sep (cur ++ a) rest.
Proof.
  induction a as [|c a IH]; intros cur H; simpl; [now rewrite app_nil_r|].
  inversion H as [|? ? Hc Ha]; subst.
  destruct (Z.eqb_spec c sep); [congruence|].
  rewrite IH by assumption. now rewrite <- app_assoc.
Qed.

Lemma split_on_from_end sep a cur :
  Forall (fun c => c <> sep) a -> split_on_from sep cur a = [cur ++ a].
Proof.
  intros H. rewrite <- (app_nil_r a) at 1.
  now rewrite split_on_from_run by assumption.
Qed.

Lemma split_on_3 sep a b c :
  Forall (fun x => x <> sep) a -> Forall (fun x => x <> sep) b ->
  Forall (fun x => x <> sep) c ->
  split_on sep (a ++ [sep] ++ b ++ [sep] ++ c) = [a; b; c].
Proof.
  intros Ha Hb Hc. unfold split_on.
  rewrite split_on_from_run by assumption. simpl. rewrite Z.eqb_refl.
  rewrite split_on_from_run by assumption. simpl. rewrite Z.eqb_refl.
  now rewrite split_on_from_end by assumption.
Qed.

Lemma split_on_2 sep a b :
  Forall (fun x => x <> sep) a -> Forall (fun x => x <> sep) b ->
  split_on sep (a ++ [sep] ++ b) = [a; b].
Proof.
  intros Ha Hb. unfold split_on.
  rewrite split_on_from_run by assumption. simpl. rewrite Z.eqb_refl.
  now rewrite split_on_from_end by assumption.
Qed.

Lemma digits_ne lo hi s x :
  digits lo hi s -> isdecimal x = false -> Forall (fun c => c <> x) s.
Proof.
  intros [H _] Hx. eapply Forall_impl; [exact H|].
  intros c Hc. now apply decimal_ne.
Qed.

Lemma stops_head (P : Z -> Prop) c xs t :
  Forall P xs -> xs <> [] -> (forall y, P y -> in_cls c y = false) ->
  stops c (xs ++ t).
Proof.
  intros H Hne Hc. destruct xs as [|y xs]; [congruence|].
  inversion H; subst. simpl. now apply Hc.
Qed.

Lemma digits_nonempty lo hi s : digits lo hi s -> (1 <= lo)%nat -> s <> [].
Proof. intros [_ [H _]] Hlo ->. simpl in H. lia. Qed.

Lemma eats_digits lo hi pre xs s g :
  digits lo hi xs -> stops digit s \/ hi = length xs ->
  eats (between digit lo hi) pre xs s g g.
Proof.
  intros [Hd [Hlo Hhi]] Hs. apply eats_greedy; try assumption.
  destruct Hs as [Hs| ->]; [now left|now right].
Qed.

Lemma eats_blank1 pre xs s g :
  blank1 xs -> stops space s -> eats (plus space) pre xs s g g.
Proof.
  intros [Hb Hne] Hs. apply eats_greedy; [exact Hb| |exact I|now left].
  destruct xs; [congruence|simpl; lia].
Qed.

(** The date of the line: day, month and year with their dots. *)
Lemma eats_date_de pre dd mm yy s g :
  digits 1 2 dd -> digits 1 2 mm -> digits 2 4 yy -> stops digit s ->
  eats date_de pre (dd ++ [U.DOT] ++ mm ++ [U.DOT] ++ yy) s g g.
Proof.
  intros Hd Hm Hy Hs. unfold date_de. cbn [cat].
  eapply eats_seq; [apply eats_digits; [assumption|now left]|].
  eapply eats_seq; [now apply eats_one|].
  eapply eats_seq; [apply eats_digits; [assumption|now left]|].
  eapply eats_seq; [now apply eats_one|].
  apply eats_digits; [assumption|now left].
Qed.

(** Hour and minute with their colon. *)
Lemma eats_time_hm pre hh mi s g :
  digits 1 2 hh -> digits 2 2 mi ->
  eats time_hm pre (hh ++ [U.COLON] ++ mi) s g g.
Proof.
  intros Hh Hm. unfold time_hm. cbn [cat].
  eapply eats_seq; [apply eats_digits; [assumption|now left]|].
  eapply eats_seq; [now apply eats_one|].
  apply eats_digits; [assumption|right]. destruct Hm as [_ Hl]. lia.
Qed.

(** The optional seconds. *)
Lemma eats_seconds pre f s g :
  (forall ss, f_second f = Some ss -> digits 2 2 ss) ->
  stops (chr ":") s ->
  eats (Opt (Seq (lit ":") (Grp 3 (times digit 2)))) pre (second_text f) s g
       (match f_second f with Some ss => (3%nat, ss) :: g | None => g end).
Proof.
  intros Hss Hs. unfold second_text. destruct (f_second f) as [ss|].
  - specialize (Hss ss eq_refl). apply eats_opt_taken.
    eapply eats_seq; [now apply eats_one|].
    apply eats_grp. apply eats_digits; [assumption|right].
    destruct Hss as [_ Hl]. lia.
  - apply eats_opt_skipped. intros A k.
    destruct s as [|y s]; [reflexivity|]. now apply run_one_fail.
Qed.

Lemma de_line_parts_eq f : de_line_parts f = de_line U.HYPHEN f.
Proof.
  unfold de_line_parts, de_line. rewrite app_nil_r.
  repeat rewrite <- app_assoc. reflexivity.
Qed.

Lemma not_colon_ok (xs : str) :
  Forall (fun c => c <> U.COLON) xs ->
  Forall (fun y => in_cls not_colon y = true) xs.
Proof.
  intros H. eapply Forall_impl; [exact H|]. intros c Hc. simpl.
  destruct (Z.eqb_spec c U.COLON); [congruence|reflexivity].
Qed.

Lemma any_ok (xs : str) :
  Forall (fun c => c <> U.LF) xs -> Forall (fun y => in_cls CAny y = true) xs.
Proof.
  intros H. eapply Forall_impl; [exact H|]. intros c Hc. simpl.
  destruct (Z.eqb_spec c U.LF); [congruence|reflexivity].
Qed.

Lemma blank_stops c (xs t : str) :
  blank1 xs -> (forall y, isspace y = true -> in_cls c y = false) -> stops c (xs ++ t).
Proof. intros [Hb Hne] Hc. eapply stops_head; eauto. Qed.

Lemma space_not_chr x y : isspace x = false -> isspace y = true -> in_cls (CAtom (AChr x)) y = false.
Proof.
  intros Hx Hy. simpl. destruct (Z.eqb_spec y x); [congruence|reflexivity].
Qed.

(** The tail of the three author-bearing patterns: author, colon, white
    space, text and the end of the line. *)
Lemma eats_author_text i j pre f g :
  de_wf f ->
  eats (cat [Grp i (plus_lazy not_colon); lit ":"; star space; Grp j (star CAny); Eol])
       pre (f_author f ++ [U.COLON] ++ f_sp4 f ++ f_text f ++ []) []
       g ((j, f_text f) :: (i, f_author f) :: g).
Proof.
  intros W. cbn [cat]. unfold plus_lazy.
  destruct (wf_author f W) as [Hne Hcol].
  apply eats_lazy_then.
  - now apply not_colon_ok.
  - destruct (f_author f); [congruence|simpl; lia].
  - intros y t p h A k Hy. apply run_one_fail.
    rewrite Forall_forall in Hcol. specialize (Hcol y Hy).
    change ((y =? 58) = false).
    destruct (Z.eqb_spec y 58); [exfalso; now apply Hcol|reflexivity].
  - eapply eats_seq; [now apply eats_one|].
    eapply eats_seq.
    { apply eats_greedy; [exact (wf_sp4 f W)|lia|exact I|left].
      rewrite app_nil_r, app_nil_r. exact (wf_text_start f W). }
    eapply eats_seq.
    { apply eats_grp. apply eats_greedy; [apply any_ok, (wf_text f W)|lia|exact I|now left]. }
    apply eats_eol.
Qed.

Lemma eats_pat_de f :
  de_wf f -> eats _pat_de [] (de_line_parts f) [] [] (de_groups f).
Proof.
  intros W. unfold _pat_de, de_line_parts, de_groups. cbn [cat].
  apply eats_bol.
  eapply eats_seq.
  { apply eats_grp. apply eats_date_de; try apply W. reflexivity. }
  eapply eats_seq; [now apply eats_one|].
  eapply eats_seq.
  { apply eats_blank1; [apply W|]. rewrite app_nil_r, <- app_assoc.
    eapply stops_head; [apply (wf_hour f W)| |].
    - eapply digits_nonempty; [apply W|lia].
    - intros y Hy. now apply decimal_not_space. }
  eapply eats_seq; [apply eats_grp, eats_time_hm; apply W|].
  eapply eats_seq.
  { apply eats_seconds; [apply W|]. rewrite app_nil_r.
    apply blank_stops; [apply W|]. intros y Hy. now apply space_not_chr. }
  eapply eats_seq.
  { apply eats_blank1; [apply W|reflexivity]. }
  eapply eats_seq; [now apply eats_one|].
  eapply eats_seq.
  { apply eats_blank1; [apply W|].
    destruct (wf_author f W) as [Hne _]. pose proof (wf_author_start f W) as Hs.
    destruct (f_author f); [congruence|exact Hs]. }
  destruct (f_second f); now apply (eats_author_text 4 5).
Qed.

Lemma match_pat_de f :
  de_wf f ->
  re_match _pat_de (de_line U.HYPHEN f)
  = Some (RMatch (length (de_line U.HYPHEN f)) (de_groups f)).
Proof.
  intros W. rewrite <- de_line_parts_eq. unfold re_match, match_at.
  rewrite <- (app_nil_r (de_line_parts f)) at 1.
  apply (eats_pat_de f W). cbn [at_ m_pos m_groups app].
  now rewrite Nat.sub_0_r.
Qed.

Lemma run_short_fail {A} i c lo hi g r1 r2 xs y s (k : mstate -> option A) :
  (length xs < lo)%nat -> in_cls c y = false ->
  run (Seq Bol (Seq (Grp i (Seq (Rep c lo hi g) r1)) r2))
      (MState 0 (xs ++ y :: s) []) k = None.
Proof. intros Hlo Hy. cbn [run m_pos m_rest]. now apply rep_short_fail. Qed.

Lemma iso_rejects_de dash f :
  de_wf f -> re_match _pat_iso (de_line dash f) = None.
Proof.
  intros W. unfold re_match, match_at.
  apply (run_short_fail 1 digit 4 (Some 4%nat) true _ _ (f_day f) U.DOT).
  - destruct (wf_day f W) as [_ [_ H]]. lia.
  - reflexivity.
Qed.

Lemma header_de_groups f n :
  de_wf f ->
  header_de (RMatch n (de_groups f))
  = let* t := de_datetime f in
    Ok (Msg t (_norm_space (f_author f)) (f_text f)).
Proof.
  intros W. unfold header_de, de_groups, de_datetime, de_year, de_seconds.
  assert (Hdot : isdecimal U.DOT = false) by reflexivity.
  assert (Hcolon : isdecimal U.COLON = false) by reflexivity.
  assert (Hdt : forall t_sec,
    parse_dt_de (f_day f ++ [U.DOT] ++ f_month f ++ [U.DOT] ++ f_year f)
                (f_hour f ++ [U.COLON] ++ f_minute f) t_sec
    = let* ss := match t_sec with Some t => int t | None => Ok 0 end in
      datetime_new (let y := number (f_year f) in if y <? 100 then y + 2000 else y)
        (number (f_month f)) (number (f_day f))
        (number (f_hour f)) (number (f_minute f)) ss).
  { intros t_sec. unfold parse_dt_de.
    rewrite split_on_3 by (eapply digits_ne; [apply W|assumption]).
    rewrite (int_digits _ _ _ (wf_day f W)), (int_digits _ _ _ (wf_month f W)),
            (int_digits _ _ _ (wf_year f W)) by lia.
    cbn [bind].
    rewrite split_on_2 by (eapply digits_ne; [apply W|assumption]).
    rewrite (int_digits _ _ _ (wf_hour f W)), (int_digits _ _ _ (wf_minute f W)) by lia.
    destruct (match t_sec with Some t => int t | None => Ok 0 end); reflexivity. }
  pose proof (wf_second f W) as Hss.
  destruct (f_second f) as [ss|]; cbn [groups List.map List.seq group m_caps app
    List.find fst snd Nat.eqb fmap option_fmap option_map]; rewrite Hdt.
  - rewrite (int_digits _ _ _ (Hss ss eq_refl)) by lia. reflexivity.
  - reflexivity.
Qed.

(** What [classify] makes of a line of dialect 2: the header with the fields
    of the line, or the exception of [datetime] when they are no date and
    time. *)
Lemma classify_de f :
  de_wf f ->
  classify (de_line U.HYPHEN f)
  = let* t := de_datetime f in
    Ok (Header (Msg t (_norm_space (f_author f)) (f_text f))).
Proof.
  intros W. unfold classify.
  rewrite (iso_rejects_de _ f W), (match_pat_de f W), (header_de_groups f _ W).
  destruct (de_datetime f); reflexivity.
Qed.

Lemma de_line_nonempty dash f : de_wf f -> de_line dash f <> [].
Proof.
  intros W. unfold de_line.
  pose proof (digits_nonempty _ _ _ (wf_day f W)) as H.
  destruct (f_day f); [now elim H|discriminate].
Qed.

Lemma step_de f raw st :
  de_wf f -> clean_line raw = de_line U.HYPHEN f ->
  step st raw
  = let* t := de_datetime f in
    Ok (push (Msg t (_norm_space (f_author f)) (f_text f)) st).
Proof.
  intros W Hraw. unfold step. rewrite Hraw.
  pose proof (de_line_nonempty U.HYPHEN f W) as Hne.
  destruct (de_line U.HYPHEN f) eqn:E; [congruence|]. rewrite <- E.
  rewrite (classify_de f W). destruct (de_datetime f); reflexivity.
Qed.

(** ** Exceptions of the parser *)

Lemma rep_sound {A} c g s (k : str -> option A) x : forall lo hi,
  rep c g lo hi s k = Some x -> exists s', k s' = Some x.
Proof.
  induction s as [|y s IH]; intros lo hi H; simpl in H.
  - destruct lo; [eauto|discriminate].
  - assert (Hstop : match lo with O => k (y :: s) | S _ => None end = Some x ->
                    exists s', k s' = Some x).
    { destruct lo; [eauto|discriminate]. }
    destruct (in_cls c y && hi_allows hi); [|auto].
    destruct g; unfold or_else in H.
    + destruct (rep c true (Nat.pred lo) (hi_pred hi) s k) eqn:E; [|auto].
      inversion H; subst. eapply IH, E.
    + destruct (match lo with O => k (y :: s) | S _ => None end) eqn:E; [auto|].
      eapply IH, H.
Qed.

(** A successful run passes its continuation a state in which the groups set
    before and the groups of the pattern are set. *)
Lemma run_sound r : forall st A (k : mstate -> option A) x,
  run r st k = Some x ->
  exists st', k st' = Some x /\
              (forall i, i ∈ keys st \/ i ∈ sets r -> i ∈ keys st').
Proof.
  induction r as [| |c|c lo hi g|a IHa b IHb|a IHa b IHb|a IHa|i a IHa];
    intros st A k x H; cbn [run] in H.
  - destruct (m_pos st); [|discriminate]. exists st. split; [assumption|].
    intros i [Hi|Hi]; [assumption|inversion Hi].
  - exists st. split.
    + destruct (m_rest st) as [|y [|z t]]; try discriminate; [assumption|].
      destruct (y =? U.LF); [assumption|discriminate].
    + intros i [Hi|Hi]; [assumption|inversion Hi].
  - destruct (m_rest st) as [|y t]; [discriminate|].
    destruct (in_cls c y); [|discriminate].
    eexists. split; [exact H|]. intros i [Hi|Hi]; [exact Hi|inversion Hi].
  - apply rep_sound in H as [s' H]. eexists. split; [exact H|].
    intros i [Hi|Hi]; [exact Hi|inversion Hi].
  - apply IHa in H as (st1 & H & H1). apply IHb in H as (st2 & H & H2).
    exists st2. split; [assumption|]. intros i [Hi|Hi].
    + apply H2. left. apply H1. now left.
    + cbn [sets] in Hi. apply elem_of_app in Hi as [Hi|Hi].
      * apply H2. left. apply H1. now right.
      * apply H2. now right.
  - unfold or_else in H. destruct (run a st k) eqn:E.
    + inversion H; subst. apply IHa in E as (st1 & E & H1).
      exists st1. split; [assumption|]. intros i [Hi|Hi]; [|inversion Hi].
      apply H1. now left.
    + apply IHb in H as (st1 & H & H1).
      exists st1. split; [assumption|]. intros i [Hi|Hi]; [|inversion Hi].
      apply H1. now left.
  - unfold or_else in H. destruct (run a st k) eqn:E.
    + inversion H; subst. apply IHa in E as (st1 & E & H1).
      exists st1. split; [assumption|]. intros i [Hi|Hi]; [|inversion Hi].
      apply H1. now left.
    + exists st. split; [assumption|]. intros i [Hi|Hi]; [assumption|inversion Hi].
  - apply IHa in H as (st1 & H & H1). eexists. split; [exact H|].
    intros j Hj. unfold keys, set_group. cbn [m_groups List.map fst].
    destruct Hj as [Hj|Hj].
    + right. apply H1. now left.
    + cbn [sets] in Hj. apply elem_of_cons in Hj as [->|Hj]; [now left|].
      right. apply H1. now right.
Qed.

Lemma group_of_key n gs i :
  i ∈ List.map fst gs -> exists t, group (RMatch n gs) i = Some t.
Proof.
  unfold group. cbn [m_caps]. induction gs as [|[j t] gs IH]; intros H.
  - inversion H.
  - cbn [List.map fst] in H. cbn [List.find fst].
    destruct (Nat.eqb_spec j i) as [->|Hne]; [simpl; eauto|].
    apply elem_of_cons in H as [->|H]; [congruence|]. now apply IH.
Qed.

(** Every group of [sets r] is there in a match of [r]. *)
Lemma match_groups r s m i :
  re_match r s = Some m -> i ∈ sets r -> exists t, group m i = Some t.
Proof.
  unfold re_match, match_at. intros H Hi.
  apply run_sound in H as (st & H & Hk). inversion H; subst.
  apply group_of_key. apply Hk. now right.
Qed.

Lemma ve_ok {A} (a : A) : value_errors (Ok a).
Proof. intros e H. discriminate. Qed.

Lemma ve_raise {A} : value_errors (@Raise A ValueError).
Proof. intros e H. now inversion H. Qed.

Lemma ve_bind {A B} (x : result A) (f : A -> result B) :
  value_errors x -> (forall a, value_errors (f a)) -> value_errors (bind x f).
Proof.
  intros Hx Hf e H. destruct x as [a|e']; simpl in H.
  - now apply (Hf a).
  - inversion H; subst. now apply Hx.
Qed.

Lemma ve_datetime_new y mo d h mi s : value_errors (datetime_new y mo d h mi s).
Proof. unfold datetime_new. destruct valid_datetime; [apply ve_ok|apply ve_raise]. Qed.

Lemma ve_int_from s : forall acc, value_errors (int_from acc s).
Proof.
  induction s as [|c s IH]; intros acc; simpl; [apply ve_ok|].
  destruct (digit_value c); [apply IH|apply ve_raise].
Qed.

Lemma ve_int s : value_errors (int s).
Proof. destruct s; [apply ve_raise|apply ve_int_from]. Qed.

Lemma ve_ascii_int_from s : forall acc, value_errors (ascii_int_from acc s).
Proof.
  induction s as [|c s IH]; intros acc; simpl; [apply ve_ok|].
  destruct ((48 <=? c) && (c <=? 57)); [apply IH|apply ve_raise].
Qed.

Lemma ve_fromisoformat s : value_errors (fromisoformat s).
Proof.
  unfold fromisoformat.
  do 19 (destruct s as [|? s]; [apply ve_raise|]).
  destruct s; [|apply ve_raise].
  match goal with |- value_errors (if ?b then _ else _) => destruct b end;
    [|apply ve_raise].
  repeat (apply ve_bind; [apply ve_ascii_int_from|intros ?]).
  apply ve_datetime_new.
Qed.

Lemma ve_parse_dt_de d t_hm t_s : value_errors (parse_dt_de d t_hm t_s).
Proof.
  unfold parse_dt_de.
  destruct (split_on U.DOT d) as [|dd [|mm [|yy [|]]]]; try apply ve_raise.
  repeat (apply ve_bind; [apply ve_int|intros ?]).
  destruct (split_on U.COLON t_hm) as [|hh [|mi [|]]]; try apply ve_raise.
  apply ve_bind; [destruct t_s; [apply ve_int|apply ve_ok]|intros ?].
  repeat (apply ve_bind; [apply ve_int|intros ?]).
  apply ve_datetime_new.
Qed.

Lemma ve_header_iso s m : re_match _pat_iso s = Some m -> value_errors (header_iso m).
Proof.
  intros H. unfold header_iso. cbn [groups List.map List.seq].
  destruct (match_groups _ _ _ 1%nat H) as [t1 ->]; [vm_compute; set_solver|].
  destruct (match_groups _ _ _ 2%nat H) as [t2 ->]; [vm_compute; set_solver|].
  destruct (match_groups _ _ _ 3%nat H) as [t3 ->]; [vm_compute; set_solver|].
  destruct (match_groups _ _ _ 4%nat H) as [t4 ->]; [vm_compute; set_solver|].
  apply ve_bind; [apply ve_fromisoformat|intros ?; apply ve_ok].
Qed.

Lemma ve_header_de r s m :
  re_match r s = Some m ->
  (1%nat ∈ sets r /\ 2%nat ∈ sets r /\ 4%nat ∈ sets r /\ 5%nat ∈ sets r) ->
  value_errors (header_de m).
Proof.
  intros H (H1 & H2 & H4 & H5). unfold header_de. cbn [groups List.map List.seq].
  destruct (match_groups _ _ _ 1%nat H H1) as [t1 ->].
  destruct (match_groups _ _ _ 2%nat H H2) as [t2 ->].
  destruct (match_groups _ _ _ 4%nat H H4) as [t4 ->].
  destruct (match_groups _ _ _ 5%nat H H5) as [t5 ->].
  apply ve_bind; [apply ve_parse_dt_de|intros ?; apply ve_ok].
Qed.

(** [classify] raises only [ValueError], and only on a line in which a header
    pattern matches. *)
Lemma classify_raises line e :
  classify line = Raise e ->
  e = ValueError /\
  (re_match _pat_iso line <> None \/ re_match _pat_de line <> None
   \/ re_match _pat_bracket line <> None).
Proof.
  unfold classify. intros H.
  destruct (re_match _pat_iso line) as [m|] eqn:E1.
  { split; [|now left]. pose proof (ve_header_iso _ _ E1) as Hve.
    destruct (header_iso m); [discriminate|]. inversion H; subst. now apply Hve. }
  destruct (re_match _pat_de line) as [m|] eqn:E2.
  { split; [|right; now left].
    assert (Hve : value_errors (header_de m)).
    { eapply ve_header_de; [exact E2|]. vm_compute. set_solver. }
    destruct (header_de m); [discriminate|]. inversion H; subst. now apply Hve. }
  destruct (re_match _pat_bracket line) as [m|] eqn:E3; [|discriminate].
  split; [|right; now right].
  assert (Hve : value_errors (header_de m)).
  { eapply ve_header_de; [exact E3|]. vm_compute. set_solver. }
  destruct (header_de m); [discriminate|]. inversion H; subst. now apply Hve.
Qed.

(** *** What a successful run has matched *)

Lemma rep_takes {A} c g s (k : str -> option A) x : forall lo hi,
  rep c g lo hi s k = Some x ->
  exists xs s', s = xs ++ s' /\ Forall (fun y => in_cls c y = true) xs /\
                (lo <= length xs)%nat /\
                match hi with Some h => (length xs <= h)%nat | None => True end /\
                k s' = Some x.
Proof.
  induction s as [|y s IH]; intros lo hi H; cbn [rep] in H.
  - destruct lo; [|discriminate]. exists [], [].
    repeat split; auto; try (simpl; lia); destruct hi; simpl; (lia || exact I).
  - assert (Hstop : match lo with O => k (y :: s) | S _ => None end = Some x ->
      exists xs s', y :: s = xs ++ s' /\ Forall (fun y => in_cls c y = true) xs /\
                (lo <= length xs)%nat /\
                match hi with Some h => (length xs <= h)%nat | None => True end /\
                k s' = Some x).
    { destruct lo; [|discriminate]. intros Hk. exists [], (y :: s).
      repeat split; auto; try (simpl; lia); destruct hi; simpl; (lia || exact I). }
    destruct (in_cls c y) eqn:Ey; [|exact (Hstop H)].
    destruct (hi_allows hi) eqn:Eh; [|exact (Hstop H)]. cbn [andb] in H.
    assert (Hmore : rep c g (Nat.pred lo) (hi_pred hi) s k = Some x ->
      exists xs s', y :: s = xs ++ s' /\ Forall (fun y => in_cls c y = true) xs /\
                (lo <= length xs)%nat /\
                match hi with Some h => (length xs <= h)%nat | None => True end /\
                k s' = Some x).
    { intros Hr. apply IH in Hr as (xs & s' & -> & Hxs & Hlo & Hhi & Hk).
      exists (y :: xs), s'. repeat split; auto; try (simpl; lia).
      destruct hi as [[|h]|]; simpl in *; [discriminate|lia|exact I]. }
    destruct g; unfold or_else in H.
    + destruct (rep c true (Nat.pred lo) (hi_pred hi) s k) eqn:E; [|exact (Hstop H)].
      inversion H; subst. exact (Hmore eq_refl).
    + destruct (match lo with O => k (y :: s) | S _ => None end) eqn:E.
      * inversion H; subst. exact (Hstop eq_refl).
      * exact (Hmore H).
Qed.

Lemma moved_suffix st xs s' :
  m_rest st = xs ++ s' ->
  m_rest (moved st s') = s' /\ m_pos (moved st s') = (m_pos st + length xs)%nat.
Proof.
  intros H. unfold moved. cbn [m_rest m_pos]. split; [reflexivity|].
  rewrite H, length_app. lia.
Qed.

(** A successful run hands its continuation a state further on in the text,
    and the pattern takes what lies between. *)
Lemma run_takes r : forall st A (k : mstate -> option A) x,
  run r st k = Some x ->
  exists xs st', m_rest st = xs ++ m_rest st' /\
                 m_pos st' = (m_pos st + length xs)%nat /\
                 takes r xs (m_rest st') /\ k st' = Some x.
Proof.
  induction r as [| |c|c lo hi g|a IHa b IHb|a IHa b IHb|a IHa|i a IHa];
    intros st A k x H; cbn [run] in H.
  - destruct (m_pos st) eqn:E; [|discriminate]. exists [], st.
    repeat split; auto; simpl; lia.
  - exists [], st. split; [reflexivity|]. split; [simpl; lia|].
    split; [split; [reflexivity|]|].
    + destruct (m_rest st) as [|y [|z t]]; try discriminate; [now left|].
      destruct (Z.eqb_spec y U.LF); [subst; now right|discriminate].
    + destruct (m_rest st) as [|y [|z t]]; try discriminate; [assumption|].
      destruct (y =? U.LF); [assumption|discriminate].
  - destruct (m_rest st) as [|y t] eqn:E; [discriminate|].
    destruct (in_cls c y) eqn:Ey; [|discriminate].
    destruct (moved_suffix st [y] t E) as [Hr Hp].
    exists [y], (moved st t). rewrite Hr. repeat split; auto.
    exists y. now split.
  - apply rep_takes in H as (xs & s' & Hs & Hxs & Hlo & Hhi & Hk).
    destruct (moved_suffix st xs s' Hs) as [Hr Hp].
    exists xs, (moved st s'). rewrite Hr. repeat split; auto.
  - apply IHa in H as (ys & st1 & Hs1 & Hp1 & Ha & H).
    apply IHb in H as (zs & st2 & Hs2 & Hp2 & Hb & H).
    exists (ys ++ zs), st2. repeat split.
    + now rewrite Hs1, Hs2, app_assoc.
    + rewrite Hp2, Hp1, length_app. lia.
    + exists ys, zs. rewrite <- Hs2. now repeat split.
    + exact H.
  - unfold or_else in H. destruct (run a st k) eqn:E.
    + inversion H; subst. apply IHa in E as (xs & st1 & ? & ? & ? & ?).
      exists xs, st1. repeat split; auto. now left.
    + apply IHb in H as (xs & st1 & ? & ? & ? & ?).
      exists xs, st1. repeat split; auto. now right.
  - unfold or_else in H. destruct (run a st k) eqn:E.
    + inversion H; subst. apply IHa in E as (xs & st1 & ? & ? & ? & ?).
      exists xs, st1. repeat split; auto. now left.
    + exists [], st. repeat split; auto; try (simpl; lia). now right.
  - apply IHa in H as (xs & st1 & Hs & Hp & Ha & H).
    exists xs, (set_group i st st1). repeat split; auto.
Qed.

Lemma match_takes r s m :
  re_match r s = Some m -> exists xs s', s = xs ++ s' /\ takes r xs s'.
Proof.
  unfold re_match, match_at. intros H.
  apply run_takes in H as (xs & st' & Hs & _ & Ht & _). eauto.
Qed.

(** Two texts that start with a run of characters with [P] and go on with a
    character without [P] have the same run. *)
Lemma run_align (P : Z -> Prop) xs : forall ys a b r r',
  Forall P xs -> Forall P ys -> ~ P a -> ~ P b ->
  xs ++ a :: r = ys ++ b :: r' -> xs = ys /\ a = b /\ r = r'.
Proof.
  induction xs as [|x xs IH]; intros ys a b r r' Hxs Hys Ha Hb H.
  - destruct ys as [|y ys]; simpl in H.
    + now inversion H.
    + inversion H; subst. inversion Hys; subst. contradiction.
  - destruct ys as [|y ys]; simpl in H.
    + inversion H; subst. inversion Hxs; subst. contradiction.
    + inversion H; subst. inversion Hxs; subst. inversion Hys; subst.
      destruct (IH ys a b r r') as (-> & -> & ->); auto.
Qed.

Lemma takes_lit s c xs rest : py s = [c] -> takes (lit s) xs rest -> xs = [c].
Proof.
  unfold lit, chr. intros ->. cbn [takes in_cls in_atom].
  intros (y & -> & Hy). apply Z.eqb_eq in Hy. now subst.
Qed.

Lemma digit_in_range zs c d : digit_in zs c = Some d -> 0 <= d <= 9.
Proof.
  induction zs as [|z zs IH]; simpl; [discriminate|].
  destruct ((z <=? c) && (c <? z + 10)) eqn:E; [|exact IH].
  intros [= <-]. lia.
Qed.

Lemma number_two_digits s :
  Forall (fun c => isdecimal c = true) s -> length s = 2%nat -> 0 <= number s < 100.
Proof.
  intros H Hl. destruct s as [|a [|b [|]]]; try discriminate.
  inversion H as [|? ? Ha H']; subst. inversion H' as [|? ? Hb _]; subst.
  unfold number, int, isdecimal in *. simpl.
  destruct (digit_value a) as [da|] eqn:Ea; [|discriminate].
  destruct (digit_value b) as [db|] eqn:Eb; [|discriminate].
  apply digit_in_range in Ea, Eb. lia.
Qed.

Lemma parse_lines_ok_loop lines ms :
  parse_lines lines = Ok ms -> exists st, loop (PState [] None) lines = Ok st.
Proof.
  unfold parse_lines. destruct (loop (PState [] None) lines); [eauto|discriminate].
Qed.

Lemma step_raises st line e :
  step st line = Raise e ->
  clean_line line <> [] /\ classify (clean_line line) = Raise e.
Proof.
  unfold step. destruct (clean_line line) as [|c l] eqn:E; [discriminate|].
  destruct (classify (c :: l)) as [[m|]|e']; simpl; try discriminate.
  intros [= ->]. split; [discriminate|reflexivity].
Qed.

Lemma loop_raises lines : forall st e,
  loop st lines = Raise e ->
  exists l, l ∈ lines /\ clean_line l <> [] /\ classify (clean_line l) = Raise e.
Proof.
  induction lines as [|l lines IH]; intros st e H; simpl in H; [discriminate|].
  destruct (step st l) as [st'|e'] eqn:E; simpl in H.
  - apply IH in H as (l' & Hin & H). exists l'. split; [now right|assumption].
  - inversion H; subst. apply step_raises in E. exists l. split; [now left|assumption].
Qed.

(** ** Dialect 2 *)

(** C2: a line of dialect 2, DD.MM.YY, H:MM[:SS] - author: text, with the
    values of a date and a time opens a message with exactly that date and
    time, seconds left out being 0 and a two-digit year yy the year 2000+yy,
    with the normalised author and the text after the colon; the line
    05.01.24, 9:00 - Alice: Hey gives Alice, 2024 and Hey. *)
Theorem dialect2_header (f : de_fields) (raw : str) :
  de_wf f ->
  clean_line raw = de_line U.HYPHEN f ->
  de_valid f = true ->
  let m := Msg (DateTime (de_year f) (number (f_month f)) (number (f_day f))
                         (number (f_hour f)) (number (f_minute f)) (de_seconds f))
               (_norm_space (f_author f)) (f_text f) in
  (forall st, step st raw = Ok (push m st)) /\
  (forall content, splitlines content = [raw] -> parse_messages content = Ok [m]) /\
  (f_second f = None -> second (ts m) = 0) /\
  (length (f_year f) = 2%nat -> year (ts m) = 2000 + number (f_year f)) /\
  parse_messages (py "05.01.24, 9:00 - Alice: Hey")
  = Ok [Msg (DateTime 2024 1 5 9 0 0) (py "Alice") (py "Hey")].
Proof.
  intros W Hraw Hv m.
  assert (Hstep : forall st, step st raw = Ok (push m st)).
  { intros st. rewrite (step_de f raw st W Hraw).
    unfold de_datetime, datetime_new. unfold de_valid in Hv. now rewrite Hv. }
  split; [exact Hstep|]. split.
  { intros content Hc. unfold parse_messages, parse_lines. rewrite Hc. simpl.
    now rewrite Hstep. }
  split.
  { intros Hs. subst m. cbn [ts second]. unfold de_seconds. now rewrite Hs. }
  split.
  { intros Hl. subst m. cbn [ts year]. unfold de_year.
    destruct (wf_year f W) as [Hd _].
    pose proof (number_two_digits _ Hd Hl) as Hn.
    destruct (Z.ltb_spec (number (f_year f)) 100); lia. }
  vm_compute. reflexivity.
Qed.

Lemma dialect2_header_witness :
  parse_messages (py "05.01.24, 9:00 - Alice: Hey")
  = Ok [Msg (DateTime 2024 1 5 9 0 0) (py "Alice") (py "Hey")].
Proof.
  refine (proj1 (proj2 (dialect2_header alice_hey (py "05.01.24, 9:00 - Alice: Hey")
                          _ _ _)) _ _).
  - concrete_wf.
  - vm_compute. reflexivity.
  - vm_compute. reflexivity.
  - vm_compute. reflexivity.
Defined.

(** ** Header lines with an invalid date or time *)

(** Month 13 in dialect 2 and hour 99 in dialect 1: the patterns match, and
    [parse_messages] raises instead of taking the line for a continuation. *)
Lemma invalid_header_not_skipped :
  re_match _pat_de (py "05.13.24, 9:00 - Alice: Hey") <> None /\
  parse_messages (py "05.13.24, 9:00 - Alice: Hey") = Raise ValueError /\
  re_match _pat_iso (py "2024-01-05 99:00:00 Alice: Hello") <> None /\
  parse_messages (py "2024-01-05 99:00:00 Alice: Hello") = Raise ValueError /\
  ~ (forall content, exists msgs, parse_messages content = Ok msgs).
Proof.
  assert (H : parse_messages (py "05.13.24, 9:00 - Alice: Hey") = Raise ValueError)
    by (vm_compute; reflexivity).
  split; [vm_compute; discriminate|].
  split; [exact H|].
  split; [vm_compute; discriminate|].
  split; [vm_compute; reflexivity|].
  intros Htotal. destruct (Htotal (py "05.13.24, 9:00 - Alice: Hey")) as [msgs Hm].
  rewrite H in Hm. discriminate.
Qed.

(** ** What is removed from a line before it is matched *)

Lemma remove_chars_nil cs : remove_chars cs [] = [].
Proof. unfold remove_chars. induction cs; simpl; auto. Qed.

Lemma rstrip_id p s : Forall (fun c => p c = false) s -> rstrip p s = s.
Proof.
  intros H. destruct s as [|c s] using rev_ind; [reflexivity|].
  apply Forall_app in H as [_ H]. inversion H; subst. now apply rstrip_snoc.
Qed.

Lemma filter_remove_char a (p : Z -> bool) s :
  List.filter p (remove_char a s) = List.filter (fun c => negb (c =? a) && p c) s.
Proof.
  unfold remove_char. induction s as [|c s IH]; simpl; [reflexivity|].
  destruct (negb (c =? a)); simpl; rewrite IH; reflexivity.
Qed.

(** Removing the characters [cs] one after the other keeps exactly the
    characters that are none of them, in their order. *)
Lemma remove_chars_filter cs : forall s,
  remove_chars cs s = List.filter (fun c => negb (existsb (Z.eqb c) cs)) s.
Proof.
  unfold remove_chars. induction cs as [|a cs IH]; intros s; simpl.
  - induction s as [|c s IHs]; simpl; [reflexivity|]. now rewrite <- IHs.
  - rewrite IH, filter_remove_char. apply filter_ext. intros c.
    now rewrite negb_orb.
Qed.

Lemma clean_line_no_lf l :
  Forall (fun c => c <> U.LF) l -> clean_line l = remove_chars line_marks l.
Proof.
  intros H. unfold clean_line. rewrite rstrip_id.
  - destruct l; [now rewrite remove_chars_nil|reflexivity].
  - eapply Forall_impl; [exact H|]. intros c Hc.
    destruct (Z.eqb_spec c U.LF); [contradiction|reflexivity].
Qed.




(** ** Witnesses for the loop *)

Lemma orphan_lines_dropped_witness :
  parse_messages (py "Messages are end-to-end encrypted." ++ [U.LF]
                  ++ py "second orphan" ++ [U.LF] ++ alice_line)
  = Ok [Msg (DateTime 2024 1 5 9 0 0) (py "Alice") (py "Hey")].
Proof.
  refine (proj2 (orphan_lines_dropped _
                   [py "Messages are end-to-end encrypted."; py "second orphan"]
                   [alice_line] _ _) _ _ _ _ eq_refl eq_refl _).
  - vm_compute. reflexivity.
  - repeat (apply List.Forall_cons; [unfold no_header; conjuncts; vm_compute; reflexivity|]).
    apply List.Forall_nil.
  - split; [vm_compute; discriminate|vm_compute; reflexivity].
Defined.

Lemma continuation_absorbed_witness :
  parse_messages (py "2024-01-05 09:00:05 Bob: Hi!" ++ [U.LF]
                  ++ py "continuation of Bob's line" ++ [U.LF] ++ [U.LF]
                  ++ py "last line")
  = Ok [Msg (DateTime 2024 1 5 9 0 5) (py "Bob")
            (py "Hi!" ++ [U.LF] ++ py "continuation of Bob's line"
             ++ [U.LF] ++ [U.LF] ++ py "last line")].
Proof.
  refine (continuation_absorbed _ (py "2024-01-05 09:00:05 Bob: Hi!")
            [py "continuation of Bob's line"; []; py "last line"]
            (Msg (DateTime 2024 1 5 9 0 5) (py "Bob") (py "Hi!")) _ _ _).
  - vm_compute. reflexivity.
  - split; [vm_compute; discriminate|vm_compute; reflexivity].
  - repeat (apply List.Forall_cons; [unfold no_header; conjuncts; vm_compute; reflexivity|]).
    apply List.Forall_nil.
Defined.

(** ** URL extraction *)

Lemma filter_true (l : list str) : List.filter (fun _ => true) l = l.
Proof. induction l as [|x l IH]; simpl; [reflexivity|now rewrite IH]. Qed.

Lemma filter_twice (p q : str -> bool) l :
  List.filter p (List.filter q l) = List.filter (fun x => q x && p x) l.
Proof.
  induction l as [|x l IH]; simpl; [reflexivity|].
  destruct (q x); simpl; now rewrite IH.
Qed.

(** The loop with [seen] and [out] goes on with the first occurrences of the
    elements that are not in [out] yet. *)
Lemma unique_from_first_seen urls : forall (seen : gset str) out,
  (forall u, u ∈ seen <-> u ∈ out) ->
  unique_from seen out urls
  = out ++ List.filter (fun y => bool_decide (y ∉ out)) (first_seen urls).
Proof.
  induction urls as [|u urls IH]; intros seen out Hseen; simpl.
  - now rewrite app_nil_r.
  - destruct (decide (u ∈ seen)) as [Hin|Hnin].
    + rewrite (IH seen out Hseen). f_equal.
      apply Hseen in Hin.
      rewrite bool_decide_eq_false_2 by (intros H; now apply H).
      rewrite filter_twice. apply filter_ext. intros y.
      destruct (bool_decide_reflect (y = u)) as [->|Hne]; simpl; [|reflexivity].
      apply bool_decide_eq_false_2. intros H. now apply H.
    + assert (Hout : u ∉ out) by (intros H; now apply Hnin, Hseen).
      rewrite (IH ({[u]} ∪ seen) (out ++ [u])).
      2:{ intros v. rewrite elem_of_union, elem_of_singleton, elem_of_app,
            list_elem_of_singleton, Hseen. tauto. }
      rewrite (bool_decide_eq_true_2 _ Hout), <- app_assoc. simpl. do 2 f_equal.
      rewrite filter_twice. apply filter_ext. intros y.
      destruct (bool_decide_reflect (y = u)) as [->|Hne]; simpl.
      * apply bool_decide_eq_false_2. intros H. apply H.
        apply elem_of_app. right. now left.
      * apply bool_decide_ext. rewrite elem_of_app, list_elem_of_singleton. tauto.
Qed.

Lemma first_seen_elem l u : u ∈ first_seen l <-> u ∈ l.
Proof.
  induction l as [|x l IH]; simpl; [reflexivity|].
  rewrite !elem_of_cons, list_elem_of_In, filter_In, <- list_elem_of_In, IH.
  destruct (decide (u = x)) as [->|Hne]; [tauto|].
  rewrite (bool_decide_eq_false_2 _ Hne). simpl. tauto.
Qed.

Lemma first_seen_NoDup l : NoDup (first_seen l).
Proof.
  induction l as [|x l IH]; simpl; constructor.
  - rewrite list_elem_of_In, filter_In. intros [_ H].
    now rewrite bool_decide_eq_true_2 in H.
  - apply NoDup_ListNoDup, List.NoDup_filter, NoDup_ListNoDup, IH.
Qed.

Lemma drop_while_split p s :
  exists pre, s = pre ++ drop_while p s /\ Forall (fun c => p c = true) pre.
Proof.
  induction s as [|c s (pre & IH & Hpre)]; simpl.
  - exists []. split; [reflexivity|constructor].
  - destruct (p c) eqn:E.
    + exists (c :: pre). split; [simpl; now rewrite <- IH|now constructor].
    + exists []. split; [reflexivity|constructor].
Qed.

Lemma drop_while_first p s y t : drop_while p s = y :: t -> p y = false.
Proof.
  induction s as [|c s IH]; simpl; [discriminate|].
  destruct (p c) eqn:E; [exact IH|]. intros [= -> _]. exact E.
Qed.

(** What [rstrip] removes is a run of the characters to strip at the end,
    and what it leaves does not end in one. *)
Lemma rstrip_spec p s :
  (exists suffix, s = rstrip p s ++ suffix /\ Forall (fun c => p c = true) suffix) /\
  (forall v c, rstrip p s = v ++ [c] -> p c = false).
Proof.
  unfold rstrip. split.
  - destruct (drop_while_split p (rev s)) as (pre & Hs & Hpre).
    exists (rev pre). split.
    + rewrite <- rev_app_distr, <- Hs. now rewrite rev_involutive.
    + now apply Forall_rev.
  - intros v c H. destruct (drop_while p (rev s)) as [|y t] eqn:E.
    + destruct v; discriminate.
    + simpl in H. apply app_inj_tail in H as [_ ->].
      eapply drop_while_first, E.
Qed.

Lemma finditer_from_match r s : forall pos skip m,
  m ∈ finditer_from r pos skip s ->
  exists before s' pos', s = before ++ s' /\ match_at r pos' s' = Some m.
Proof.
  induction s as [|c s IH]; intros pos skip m H; simpl in H; [inversion H|].
  assert (Hrest : m ∈ finditer_from r (S pos) (Nat.pred skip) s \/
                  (exists n, m ∈ finditer_from r (S pos) n s) ->
                  exists before s' pos',
                    c :: s = before ++ s' /\ match_at r pos' s' = Some m).
  { intros [H'|[n H']]; apply IH in H' as (before & s' & pos' & -> & H');
      exists (c :: before), s', pos'; now split. }
  destruct skip as [|n]; [|apply Hrest; right; eauto].
  destruct (match_at r pos (c :: s)) as [m'|] eqn:E; [|apply Hrest; right; eauto].
  apply elem_of_cons in H as [->|H]; [|apply Hrest; right; eauto].
  exists [], (c :: s), pos. now split.
Qed.

Lemma match_at_groups r pos s m i :
  match_at r pos s = Some m -> i ∈ sets r -> exists t, group m i = Some t.
Proof.
  unfold match_at. intros H Hi.
  apply run_sound in H as (st & H & Hk). inversion H; subst.
  apply group_of_key. apply Hk. now right.
Qed.

(** The first group of a match of a pattern that is one group is the text
    the pattern takes. *)
Lemma match_at_group i a pos s m :
  match_at (Grp i a) pos s = Some m ->
  exists xs s', s = xs ++ s' /\ group m i = Some xs /\ takes a xs s'.
Proof.
  unfold match_at. cbn [run]. intros H.
  apply run_takes in H as (xs & st1 & Hs & Hp & Ht & H).
  cbn [m_rest m_pos] in Hs, Hp. inversion H; subst m.
  exists xs, (m_rest st1). split; [exact Hs|]. split; [|exact Ht].
  unfold group, set_group. cbn [m_caps m_groups List.find fst m_pos m_rest].
  rewrite Nat.eqb_refl. cbn [fmap option_fmap option_map snd]. f_equal.
  rewrite Hp, Hs, Nat.add_comm, Nat.add_sub. apply take_app_length.
Qed.

(** What the URL pattern takes: a scheme, a colon, two slashes and more. *)
Lemma takes_url xs rest :
  takes (cat [ One (ci "h"); One (ci "t"); One (ci "t"); One (ci "p");
               Rep (ci "s") 0 (Some 1%nat) true;
               lit ":"; lit "/"; lit "/";
               plus (CNot [ASpace; AChr 60; AChr 62; AChr 93]) ]) xs rest ->
  exists scheme body, xs = scheme ++ [U.COLON; 47] ++ 47 :: body /\
                      url_scheme scheme.
Proof.
  cbn [cat]. cbn [takes].
  intros (x1 & z1 & -> & (c1 & -> & H1) & x2 & z2 & -> & (c2 & -> & H2)
          & x3 & z3 & -> & (c3 & -> & H3) & x4 & z4 & -> & (c4 & -> & H4)
          & o & z5 & -> & (Ho & _ & Hl) & p1 & z6 & -> & Hp1
          & p2 & z7 & -> & Hp2 & p3 & body & -> & Hp3 & _).
  apply (takes_lit ":" U.COLON _ [] eq_refl) in Hp1.
  apply (takes_lit "/" 47 _ [] eq_refl) in Hp2.
  apply (takes_lit "/" 47 _ [] eq_refl) in Hp3. subst.
  exists (c1 :: c2 :: c3 :: c4 :: o), body. split.
  - reflexivity.
  - exists c1, c2, c3, c4, o. repeat split; try assumption.
    destruct o as [|c5 [|c6 o]]; [now left| |simpl in Hl; lia].
    right. exists c5. split; [reflexivity|]. now inversion Ho.
Qed.

Lemma drop_while_keep p x c y :
  p c = false -> drop_while p (x ++ c :: y) = drop_while p x ++ c :: y.
Proof.
  intros Hc. induction x as [|a x IH]; simpl.
  - now rewrite Hc.
  - destruct (p a); [exact IH|reflexivity].
Qed.

(** [rstrip] stops at the last character that is not to strip. *)
Lemma rstrip_keep p a c b :
  p c = false -> rstrip p (a ++ c :: b) = a ++ c :: rstrip p b.
Proof.
  intros Hc. unfold rstrip.
  rewrite rev_app_distr. simpl. rewrite <- app_assoc. simpl.
  rewrite drop_while_keep by assumption.
  rewrite rev_app_distr. simpl. rewrite rev_involutive, <- app_assoc. reflexivity.
Qed.

(** C8: [extract_urls] returns the matches of the URL pattern, each without
    the sentence punctuation at its end, every URL once and where it is first
    seen.  A match is a piece of the text that starts with http:// or
    https://, in any case of the letters, and so does the URL returned for
    it. *)
Theorem extract_urls_first_seen (text : str) :
  extract_urls text = first_seen (found_urls text) /\
  NoDup (extract_urls text) /\
  (forall u, u ∈ extract_urls text <-> u ∈ found_urls text) /\
  (forall u, u ∈ extract_urls text ->
     exists m token suffix,
       m ∈ finditer _url_re text /\ group m 1 = Some token /\
       token = u ++ suffix /\
       Forall (fun c => is_url_punct c = true) suffix /\
       (forall v c, u = v ++ [c] -> is_url_punct c = false) /\
       (exists before after, text = before ++ token ++ after) /\
       (exists scheme rest, url_scheme scheme /\ u = scheme ++ py "://" ++ rest)).
Proof.
  assert (Heq : extract_urls text = first_seen (found_urls text)).
  { unfold extract_urls. rewrite (unique_from_first_seen _ ∅ []).
    - simpl. apply filter_true.
    - intros u. split; intros H; [now apply not_elem_of_empty in H|inversion H]. }
  split; [exact Heq|]. rewrite Heq. split; [apply first_seen_NoDup|].
  split; [intros u; apply first_seen_elem|].
  intros u Hu. apply (proj1 (first_seen_elem _ _)) in Hu. unfold found_urls in Hu.
  apply list_elem_of_In, in_map_iff in Hu as (m & <- & Hm).
  apply list_elem_of_In in Hm.
  destruct (finditer_from_match _ _ _ _ _ Hm) as (before & s & pos & Htext & Hmatch).
  destruct (match_at_group _ _ _ _ _ Hmatch) as (token & after & Hs & Htok & Htakes).
  rewrite Htok. simpl.
  destruct (rstrip_spec is_url_punct token) as [(suffix & Hsplit & Hsuf) Hlast].
  exists m, token, suffix. split; [assumption|]. split; [assumption|].
  split; [assumption|]. split; [assumption|]. split; [assumption|]. split.
  - exists before, after. now rewrite Htext, Hs.
  - apply takes_url in Htakes as (scheme & body & -> & Hscheme).
    exists scheme, (rstrip is_url_punct body). split; [assumption|].
    replace (scheme ++ [U.COLON; 47] ++ 47 :: body)
      with ((scheme ++ [U.COLON; 47]) ++ 47 :: body) by (now rewrite <- app_assoc).
    rewrite (rstrip_keep is_url_punct (scheme ++ [U.COLON; 47]) 47 body eq_refl).
    now rewrite <- app_assoc.
Qed.

Example extract_urls_example :
  extract_urls (py "see http://a.b/x. and (https://c.d/y), HTTP://a.b/x! then http://a.b/x")
  = [py "http://a.b/x"; py "https://c.d/y"; py "HTTP://a.b/x"].
Proof. vm_compute. reflexivity. Qed.

(** ** The preview cache *)

Section PreviewFacts.

Variable network : list str -> str -> option (bytes * str).
Variable is_youtube_url : str -> option str.
Variable _parse_meta : bytes -> gmap str str.
Variable _resolve_url : str -> str -> str.
Variable image_as_data_url : str -> bytes * str -> option str.

Local Abbreviation preview :=
  (build_preview network is_youtube_url _parse_meta _resolve_url image_as_data_url).

Lemma preview_hit u w p :
  _preview_cache w !! u = Some p -> preview u w = (Some p, w).
Proof.
  intros H. unfold preview, build_preview, io_bind, cache_get. now rewrite H.
Qed.

(** A call that finds nothing in the cache makes one request, and at most
    one more. *)
Lemma preview_miss u w :
  _preview_cache w !! u = None ->
  exists a rest, requested (snd (preview u w)) = requested w ++ a :: rest /\
                 (length rest <= 1)%nat.
Proof.
  intros H.
  unfold preview, build_preview, io_bind, cache_get, cache_set, ret,
    _download_image_as_data_url, _http_get, io_bind, ret.
  rewrite H. cbn [fst snd _preview_cache requested].
  destruct (is_youtube_url u) as [[|c vid]|].
  2:{ cbn. eexists _, []. split; [reflexivity|simpl; lia]. }
  all: destruct (network (requested w) u) as [[html_bytes ct]|];
    [|cbn; eexists _, []; split; [reflexivity|simpl; lia]].
  all: match goal with
       | |- context [match ?img with [] => _ | _ :: _ => _ end] => destruct img
       end; cbn; rewrite <- ?app_assoc.
  all: first [ eexists _, []; split; [reflexivity|simpl; lia]
             | eexists _, [_]; split; [reflexivity|simpl; lia] ].
Qed.

(** A preview that is returned is the one stored for the address. *)
Lemma preview_some u w p w' :
  preview u w = (Some p, w') -> _preview_cache w' !! u = Some p.
Proof.
  unfold preview, build_preview, io_bind, cache_get, cache_set, ret,
    _download_image_as_data_url, _http_get, io_bind, ret.
  destruct (_preview_cache w !! u) as [p0|] eqn:E.
  { intros [= -> ->]. exact E. }
  destruct (is_youtube_url u) as [[|c vid]|].
  2:{ cbn. intros [= <- <-]. cbn. apply lookup_insert_eq. }
  all: destruct (network (requested w) u) as [[html_bytes ct]|];
    [|cbn; discriminate].
  all: match goal with
       | |- context [match ?img with [] => _ | _ :: _ => _ end] => destruct img
       end; cbn; intros [= <- <-]; cbn; apply lookup_insert_eq.
Qed.

(** A call that returns nothing has asked for the page in vain and has
    stored nothing. *)
Lemma preview_none u w w' :
  preview u w = (None, w') ->
  _preview_cache w !! u = None /\
  (forall c vid, is_youtube_url u <> Some (c :: vid)) /\
  w' = World (_preview_cache w) (requested w ++ [u]).
Proof.
  unfold preview, build_preview, io_bind, cache_get, cache_set, ret,
    _download_image_as_data_url, _http_get, io_bind, ret.
  destruct (_preview_cache w !! u) as [p0|] eqn:E; [discriminate|].
  destruct (is_youtube_url u) as [[|c vid]|].
  2:{ cbn. discriminate. }
  all: destruct (network (requested w) u) as [[html_bytes ct]|];
    [|cbn; intros [= <-]; repeat split; discriminate].
  all: match goal with
       | |- context [match ?img with [] => _ | _ :: _ => _ end] => destruct img
       end; cbn; discriminate.
Qed.

(** After a miss that was no video address, the first request is the one
    for the page. *)
Lemma preview_miss_page u w :
  _preview_cache w !! u = None ->
  (forall c vid, is_youtube_url u <> Some (c :: vid)) ->
  exists rest, requested (snd (preview u w)) = requested w ++ u :: rest.
Proof.
  intros H Hy.
  unfold preview, build_preview, io_bind, cache_get, cache_set, ret,
    _download_image_as_data_url, _http_get, io_bind, ret.
  rewrite H. cbn [fst snd _preview_cache requested].
  destruct (is_youtube_url u) as [[|c vid]|]; [|now elim (Hy c vid)|].
  all: destruct (network (requested w) u) as [[html_bytes ct]|];
    [|cbn; now exists []].
  all: match goal with
       | |- context [match ?img with [] => _ | _ :: _ => _ end] => destruct img
       end; cbn; rewrite <- ?app_assoc; eexists; reflexivity.
Qed.

(** C7, amended: [build_preview] is memoised for the previews it builds.
    A hit makes no request and returns the stored preview; a miss makes one
    request and at most one more; a preview once returned is stored, so that
    the next call for the address returns it and requests nothing.  A page
    request that fails stores nothing: the call returns nothing, and the
    next call for the address requests the page again. *)
Theorem preview_memoised (u : str) (w : world) :
  (forall p, _preview_cache w !! u = Some p -> preview u w = (Some p, w)) /\
  (_preview_cache w !! u = None ->
   exists a rest, requested (snd (preview u w)) = requested w ++ a :: rest /\
                  (length rest <= 1)%nat) /\
  (forall p w1, preview u w = (Some p, w1) ->
     _preview_cache w1 !! u = Some p /\ preview u w1 = (Some p, w1)) /\
  (forall w1, preview u w = (None, w1) ->
     _preview_cache w1 = _preview_cache w /\
     requested w1 = requested w ++ [u] /\
     exists rest, requested (snd (preview u w1)) = requested w ++ [u; u] ++ rest).
Proof.
  split; [intros p; apply preview_hit|].
  split; [apply preview_miss|].
  split.
  - intros p w1 H. apply preview_some in H as H1.
    split; [exact H1|now apply preview_hit].
  - intros w1 H. apply preview_none in H as (Hmiss & Hy & ->).
    split; [reflexivity|]. split; [reflexivity|].
    destruct (preview_miss_page u (World (_preview_cache w) (requested w ++ [u]))
                Hmiss Hy) as (rest & Hreq).
    exists rest. rewrite Hreq. cbn [requested]. now rewrite <- app_assoc.
Qed.

End PreviewFacts.

(** Two calls for an address whose page cannot be fetched: both return
    nothing and both ask the network, two requests in all. *)
Lemma failed_fetch_retried :
  let w1 := snd (plain_preview offline example_url (World ∅ [])) in
  let w2 := snd (plain_preview offline example_url w1) in
  fst (plain_preview offline example_url (World ∅ [])) = None /\
  requested w1 = [example_url] /\
  fst (plain_preview offline example_url w1) = None /\
  requested w2 = [example_url; example_url] /\
  length (requested w2) <> 1%nat.
Proof. cbv zeta. conjuncts; vm_compute; (reflexivity || discriminate). Qed.

Lemma extract_urls_first_seen_witness :
  exists scheme rest,
    url_scheme scheme /\ py "http://a.b/x" = scheme ++ py "://" ++ rest.
Proof.
  destruct (extract_urls_first_seen
              (py "see http://a.b/x. and (https://c.d/y), then http://a.b/x"))
    as (_ & _ & _ & H).
  destruct (H (py "http://a.b/x")) as (m & token & suffix & _ & _ & _ & _ & _ & _ & Hs).
  - apply list_elem_of_In. vm_compute. left. reflexivity.
  - exact Hs.
Defined.

Lemma preview_memoised_witness :
  let p := MkPreview example_url example_url [] None in
  let w1 := snd (plain_preview empty_pages example_url (World ∅ [])) in
  _preview_cache w1 !! example_url = Some p /\
  plain_preview empty_pages example_url w1 = (Some p, w1).
Proof.
  cbv zeta.
  refine (proj1 (proj2 (proj2 (preview_memoised empty_pages (fun _ => None)
            (fun _ => ∅) (fun _ img => img) (fun _ _ => None)
            example_url (World ∅ []))))
            (MkPreview example_url example_url [] None) _ _).
  vm_compute. reflexivity.
Defined.

(** ** Lines of dialect 2 with another dash *)

Lemma takes_digits lo hi xs rest :
  takes (between digit lo hi) xs rest ->
  Forall (fun c => isdecimal c = true) xs /\ (lo <= length xs <= hi)%nat.
Proof. cbn [takes between]. intros (H & Hlo & Hhi). repeat split; assumption. Qed.

Lemma takes_blank1 xs rest : takes (plus space) xs rest -> blank1 xs.
Proof.
  cbn [takes plus]. intros (H & Hlo & _). split; [exact H|].
  intros ->. simpl in Hlo. lia.
Qed.

Lemma takes_date_de xs rest :
  takes date_de xs rest ->
  exists d1 d2 d3, xs = d1 ++ U.DOT :: d2 ++ U.DOT :: d3 /\
    digits 1 2 d1 /\ digits 1 2 d2 /\ digits 2 4 d3.
Proof.
  unfold date_de. cbn [cat]. cbn [takes].
  intros (d1 & z1 & -> & H1 & p1 & z2 & -> & Hp1 & d2 & z3 & -> & H2
          & p2 & d3 & -> & Hp2 & H3).
  apply (takes_lit "." U.DOT _ (d2 ++ (p2 ++ d3) ++ rest) eq_refl) in Hp1; subst.
  apply (takes_lit "." U.DOT _ (d3 ++ rest) eq_refl) in Hp2; subst.
  exists d1, d2, d3. split; [reflexivity|].
  split; [exact (takes_digits 1 2 d1 [] H1)|].
  split; [exact (takes_digits 1 2 d2 [] H2)|exact (takes_digits 2 4 d3 [] H3)].
Qed.

Lemma takes_time_hm xs rest :
  takes time_hm xs rest ->
  exists h m, xs = h ++ U.COLON :: m /\ digits 1 2 h /\ digits 2 2 m.
Proof.
  unfold time_hm. cbn [cat]. cbn [takes].
  intros (h & z1 & -> & H1 & p1 & m & -> & Hp1 & H2).
  apply (takes_lit ":" U.COLON _ (m ++ rest) eq_refl) in Hp1; subst.
  exists h, m. split; [reflexivity|].
  split; [exact (takes_digits 1 2 h [] H1)|exact (takes_digits 2 2 m [] H2)].
Qed.

Lemma takes_seconds xs rest :
  takes (Opt (Seq (lit ":") (Grp 3 (times digit 2)))) xs rest ->
  xs = [] \/ exists ss, xs = U.COLON :: ss /\ digits 2 2 ss.
Proof.
  cbn [takes]. intros [(p & ss & -> & Hp & H)| ->]; [right|now left].
  apply (takes_lit ":" U.COLON _ (ss ++ rest) eq_refl) in Hp; subst.
  exists ss. split; [reflexivity|]. exact (takes_digits 2 2 ss [] H).
Qed.

(** What [_pat_de] takes starts like a line of dialect 2 up to the hyphen. *)
Lemma takes_pat_de xs rest :
  takes _pat_de xs rest ->
  exists d1 d2 d3 w1 h m o w2 tail,
    xs = d1 ++ U.DOT :: d2 ++ U.DOT :: d3 ++ 44 :: w1 ++ h ++ U.COLON :: m
         ++ o ++ w2 ++ U.HYPHEN :: tail /\
    digits 1 2 d1 /\ digits 1 2 d2 /\ digits 2 4 d3 /\ blank1 w1 /\
    digits 1 2 h /\ digits 2 2 m /\
    (o = [] \/ exists ss, o = U.COLON :: ss /\ digits 2 2 ss) /\ blank1 w2.
Proof.
  unfold _pat_de. cbn [cat]. cbn [takes].
  intros (b & z0 & -> & -> & D & z1 & -> & HD & c & z2 & -> & Hc
          & w1 & z3 & -> & Hw1 & T & z4 & -> & HT & o & z5 & -> & Ho
          & w2 & z6 & -> & Hw2 & p & tail & -> & Hp & _).
  apply takes_date_de in HD as (d1 & d2 & d3 & -> & H1 & H2 & H3).
  apply (takes_lit "," 44 _ _ eq_refl) in Hc; subst.
  apply takes_time_hm in HT as (h & m & -> & Hh & Hm).
  apply (takes_lit "-" U.HYPHEN _ _ eq_refl) in Hp; subst.
  exists d1, d2, d3, w1, h, m, o, w2, tail. split.
  - simpl. repeat (rewrite <- app_assoc; simpl). reflexivity.
  - repeat split; try (assumption || apply H1 || apply H2 || apply H3 || apply Hh || apply Hm).
    + exact (proj1 (takes_blank1 w1 [] Hw1)).
    + exact (proj2 (takes_blank1 w1 [] Hw1)).
    + exact (takes_seconds o ((w2 ++ [U.HYPHEN] ++ tail) ++ rest) Ho).
    + exact (proj1 (takes_blank1 w2 [] Hw2)).
    + exact (proj2 (takes_blank1 w2 [] Hw2)).
Qed.

Lemma blank_head_not (xs : str) c :
  blank1 xs -> isspace c = false -> forall r r', xs ++ r <> c :: r'.
Proof.
  intros [Hb Hne] Hc r r' H. destruct xs as [|y xs]; [congruence|].
  inversion Hb; subst. inversion H; subst. congruence.
Qed.

(** A line of dialect 2 whose dash is not the ASCII hyphen is no header for
    [_pat_de]. *)
Lemma de_rejects_other_dash dash f :
  de_wf f -> dash <> U.HYPHEN -> isspace dash = false ->
  re_match _pat_de (de_line dash f) = None.
Proof.
  intros W Hdash Hsp.
  destruct (re_match _pat_de (de_line dash f)) as [m|] eqn:E; [exfalso|reflexivity].
  apply match_takes in E as (xs & s' & Hs & Ht).
  apply takes_pat_de in Ht
    as (d1 & d2 & d3 & w1 & h & m' & o & w2 & tail & -> & H1 & H2 & H3 & Hw1
        & Hh & Hm & Ho & Hw2).
  unfold de_line in Hs. repeat (rewrite <- app_assoc in Hs; simpl in Hs).
  assert (Hnd : forall c, isdecimal c = false -> ~ isdecimal c = true) by (intros c ->; discriminate).
  assert (Hns : forall c, isspace c = false -> ~ isspace c = true) by (intros c ->; discriminate).
  apply (run_align (fun c => isdecimal c = true)) in Hs as (_ & _ & Hs);
    [|apply W|apply H1|now apply Hnd|now apply Hnd].
  apply (run_align (fun c => isdecimal c = true)) in Hs as (_ & _ & Hs);
    [|apply W|apply H2|now apply Hnd|now apply Hnd].
  apply (run_align (fun c => isdecimal c = true)) in Hs as (_ & _ & Hs);
    [|apply W|apply H3|now apply Hnd|now apply Hnd].
  pose proof (wf_hour f W) as Wh. pose proof (wf_sp1 f W) as Ws1.
  destruct (f_hour f) as [|hc hh] eqn:Eh; [destruct Wh as [_ [Hl _]]; simpl in Hl; lia|].
  destruct h as [|hc' h']; [destruct Hh as [_ [Hl _]]; simpl in Hl; lia|].
  simpl in Hs.
  assert (Hhc : isdecimal hc = true) by (destruct Wh as [Hd _]; now inversion Hd).
  assert (Hhc' : isdecimal hc' = true) by (destruct Hh as [Hd _]; now inversion Hd).
  apply (run_align (fun c => isspace c = true)) in Hs as (_ & _ & Hs);
    [|apply Ws1|apply Hw1|apply Hns, decimal_not_space, Hhc
     |apply Hns, decimal_not_space, Hhc'].
  apply (run_align (fun c => isdecimal c = true)) in Hs as (_ & _ & Hs);
    [|destruct Wh as [Hd _]; now inversion Hd|destruct Hh as [Hd _]; now inversion Hd
     |now apply Hnd|now apply Hnd].
  apply app_inj_1 in Hs as [_ Hs];
    [|destruct (wf_minute f W) as [_ Hl], Hm as [_ Hl']; lia].
  pose proof (wf_sp2 f W) as Ws2. pose proof (wf_second f W) as Wss.
  unfold second_text in Hs.
  assert (Hfin : forall r r', f_sp2 f ++ dash :: r = w2 ++ U.HYPHEN :: r' -> False).
  { intros r r' H.
    apply (run_align (fun c => isspace c = true)) in H as (_ & H & _);
      [congruence|apply Ws2|apply Hw2|now apply Hns|now apply Hns]. }
  destruct (f_second f) as [ss|]; destruct Ho as [->|(ss' & -> & Hss')]; simpl in Hs.
  - symmetry in Hs. now apply (blank_head_not w2 U.COLON Hw2 eq_refl) in Hs.
  - inversion Hs as [Hs']. apply app_inj_1 in Hs' as [_ Hs'];
      [now apply Hfin in Hs'|].
    destruct (Wss ss eq_refl) as [_ Hl], Hss' as [_ Hl']. lia.
  - now apply Hfin in Hs.
  - now apply (blank_head_not (f_sp2 f) U.COLON Ws2 eq_refl) in Hs.
Qed.

Lemma bracket_rejects_de dash f :
  de_wf f -> re_match _pat_bracket (de_line dash f) = None.
Proof.
  intros W.
  destruct (re_match _pat_bracket (de_line dash f)) as [m|] eqn:E; [exfalso|reflexivity].
  apply match_takes in E as (xs & s' & Hs & Ht).
  unfold _pat_bracket in Ht. cbn [cat] in Ht. cbn [takes] in Ht.
  destruct Ht as (b & z0 & -> & -> & p & z1 & -> & Hp & _).
  apply (takes_lit "[" 91 _ _ eq_refl) in Hp; subst.
  unfold de_line in Hs. destruct (wf_day f W) as [Hd [Hl _]].
  destruct (f_day f) as [|c dd]; [simpl in Hl; lia|].
  inversion Hs; subst. inversion Hd; subst. discriminate.
Qed.

(** ** System notices *)

(** C3: [parse_messages] never tries the system patterns.  A line in which
    no author-bearing pattern matches opens no message, whatever the system
    patterns make of it: it is added to the open message or dropped.  So it
    is with the line 05.01.24, 9:01 - Bob joined, a system notice for
    [_pat_de_sys] with the text Bob joined. *)
Theorem system_notice_is_continuation :
  (forall st line,
     no_header line ->
     step st line = Ok (append_last (U.LF :: clean_line line) st) /\
     length (msgs (append_last (U.LF :: clean_line line) st)) = length (msgs st)) /\
  no_header notice_line /\
  (m ← re_match _pat_de_sys notice_line; group m 4) = Some (py "Bob joined") /\
  parse_messages notice_line = Ok [] /\
  parse_messages (alice_line ++ [U.LF] ++ notice_line)
  = Ok [Msg (DateTime 2024 1 5 9 0 0) (py "Alice")
            (py "Hey" ++ [U.LF] ++ notice_line)].
Proof.
  split.
  { intros st line H. split; [now apply step_no_header|].
    unfold append_last. destruct (last st); [|reflexivity].
    cbn [msgs]. apply length_alter. }
  unfold no_header. conjuncts; vm_compute; reflexivity.
Qed.

(** ** The dash of dialect 2 *)

(** C6: [_pat_de] asks for the ASCII hyphen between time and author, although
    [_pat_de_sys] takes either dash.  A line of dialect 2 written with the en
    dash is no header: it is added to the open message or dropped, where the
    same line with the hyphen opens a message. *)
Theorem en_dash_not_recognised :
  (forall f,
     de_wf f ->
     re_match _pat_de (de_line U.EN_DASH f) = None /\
     classify (de_line U.EN_DASH f) = Ok Continuation /\
     (forall st raw,
        clean_line raw = de_line U.EN_DASH f ->
        step st raw = Ok (append_last (U.LF :: de_line U.EN_DASH f) st))) /\
  parse_messages alice_line
  = Ok [Msg (DateTime 2024 1 5 9 0 0) (py "Alice") (py "Hey")] /\
  alice_line_en_dash = de_line U.EN_DASH alice_hey /\
  parse_messages alice_line_en_dash = Ok [] /\
  re_match _pat_de_sys alice_line_en_dash <> None /\
  re_match _pat_de_sys alice_line <> None.
Proof.
  split.
  { intros f W.
    assert (H1 : re_match _pat_iso (de_line U.EN_DASH f) = None)
      by now apply iso_rejects_de.
    assert (H2 : re_match _pat_de (de_line U.EN_DASH f) = None)
      by (apply de_rejects_other_dash; [assumption|discriminate|reflexivity]).
    assert (H3 : re_match _pat_bracket (de_line U.EN_DASH f) = None)
      by now apply bracket_rejects_de.
    split; [exact H2|]. split.
    - unfold classify. now rewrite H1, H2, H3.
    - intros st raw Hraw. rewrite <- Hraw. apply step_no_header.
      unfold no_header. now rewrite Hraw. }
  conjuncts; vm_compute; (reflexivity || discriminate).
Qed.

(** ** The bracketed dialect and the ISO dialect *)

(** The tail of the author-bearing patterns, for any author and text. *)
Lemma eats_tail i j pre author sp4 text g :
  author <> [] -> Forall (fun c => c <> U.COLON) author ->
  blank sp4 -> Forall (fun c => c <> U.LF) text -> stops space text ->
  eats (cat [Grp i (plus_lazy not_colon); lit ":"; star space; Grp j (star CAny); Eol])
       pre (author ++ [U.COLON] ++ sp4 ++ text ++ []) []
       g ((j, text) :: (i, author) :: g).
Proof.
  intros Hne Hcol Hsp Htext Hstart. cbn [cat]. unfold plus_lazy.
  apply eats_lazy_then.
  - now apply not_colon_ok.
  - destruct author; [congruence|simpl; lia].
  - intros y t p h A k Hy. apply run_one_fail.
    rewrite Forall_forall in Hcol. specialize (Hcol y Hy).
    change ((y =? 58) = false).
    destruct (Z.eqb_spec y 58); [exfalso; now apply Hcol|reflexivity].
  - eapply eats_seq; [now apply eats_one|].
    eapply eats_seq.
    { apply eats_greedy; [exact Hsp|lia|exact I|left].
      rewrite app_nil_r, app_nil_r. exact Hstart. }
    eapply eats_seq.
    { apply eats_grp. apply eats_greedy; [now apply any_ok|lia|exact I|now left]. }
    apply eats_eol.
Qed.

Lemma bracket_line_parts_eq f : bracket_line_parts f = bracket_line f.
Proof.
  unfold bracket_line_parts, bracket_line. rewrite app_nil_r.
  repeat rewrite <- app_assoc. reflexivity.
Qed.

Lemma eats_pat_bracket f :
  de_wf f -> eats _pat_bracket [] (bracket_line_parts f) [] [] (de_groups f).
Proof.
  intros W. unfold _pat_bracket, bracket_line_parts, de_groups. cbn [cat].
  apply eats_bol.
  eapply eats_seq; [now apply eats_one|].
  eapply eats_seq.
  { apply eats_grp. apply eats_date_de; try apply W. reflexivity. }
  eapply eats_seq; [now apply eats_one|].
  eapply eats_seq.
  { apply eats_blank1; [apply W|]. rewrite app_nil_r, <- app_assoc.
    eapply stops_head; [apply (wf_hour f W)| |].
    - eapply digits_nonempty; [apply W|lia].
    - intros y Hy. now apply decimal_not_space. }
  eapply eats_seq; [apply eats_grp, eats_time_hm; apply W|].
  eapply eats_seq.
  { apply eats_seconds; [apply W|]. reflexivity. }
  eapply eats_seq; [now apply eats_one|].
  eapply eats_seq.
  { apply eats_blank1; [apply W|].
    destruct (wf_author f W) as [Hne _]. pose proof (wf_author_start f W) as Hs.
    destruct (f_author f); [congruence|exact Hs]. }
  destruct (wf_author f W) as [Hne Hcol].
  destruct (f_second f);
    apply (eats_tail 4 5); first [assumption | apply W].
Qed.

Lemma match_pat_bracket f :
  de_wf f ->
  re_match _pat_bracket (bracket_line f)
  = Some (RMatch (length (bracket_line f)) (de_groups f)).
Proof.
  intros W. rewrite <- bracket_line_parts_eq. unfold re_match, match_at.
  rewrite <- (app_nil_r (bracket_line_parts f)) at 1.
  apply (eats_pat_bracket f W). cbn [at_ m_pos m_groups app].
  now rewrite Nat.sub_0_r.
Qed.

Lemma iso_rejects_bracket f : re_match _pat_iso (bracket_line f) = None.
Proof.
  unfold re_match, match_at.
  apply (run_short_fail 1 digit 4 (Some 4%nat) true _ _ [] 91); [simpl; lia|reflexivity].
Qed.

Lemma de_rejects_bracket f : re_match _pat_de (bracket_line f) = None.
Proof.
  unfold re_match, match_at.
  apply (run_short_fail 1 digit 1 (Some 2%nat) true _ _ [] 91); [simpl; lia|reflexivity].
Qed.

Lemma classify_bracket f :
  de_wf f ->
  classify (bracket_line f)
  = let* t := de_datetime f in
    Ok (Header (Msg t (_norm_space (f_author f)) (f_text f))).
Proof.
  intros W. unfold classify.
  rewrite (iso_rejects_bracket f), (de_rejects_bracket f), (match_pat_bracket f W),
    (header_de_groups f _ W).
  destruct (de_datetime f); reflexivity.
Qed.

(** The bracketed dialect: a line [DD.MM.YYYY, H:MM[:SS]] author: text with
    the values of a date and a time opens a message with that date and time,
    the normalised author and the text; a line with other values raises
    [ValueError]. *)
Theorem bracket_header (f : de_fields) (raw : str) :
  de_wf f ->
  clean_line raw = bracket_line f ->
  (de_valid f = true ->
   forall st,
     step st raw
     = Ok (push (Msg (DateTime (de_year f) (number (f_month f)) (number (f_day f))
                               (number (f_hour f)) (number (f_minute f))
                               (de_seconds f))
                     (_norm_space (f_author f)) (f_text f)) st)) /\
  (de_valid f = false -> forall st, step st raw = Raise ValueError).
Proof.
  intros W Hraw.
  assert (Hstep : forall st, step st raw
    = let* t := de_datetime f in
      Ok (push (Msg t (_norm_space (f_author f)) (f_text f)) st)).
  { intros st. unfold step. rewrite Hraw.
    assert (Hne : bracket_line f <> []) by discriminate.
    destruct (bracket_line f) eqn:E; [congruence|]. rewrite <- E.
    rewrite (classify_bracket f W). destruct (de_datetime f); reflexivity. }
  split; intros Hv st; rewrite Hstep;
    unfold de_datetime, datetime_new; unfold de_valid in Hv; now rewrite Hv.
Qed.

Lemma bracket_header_witness :
  parse_lines [py "[13.04.2019, 18:59:06] Carolin: Text"]
  = Ok [Msg (DateTime 2019 4 13 18 59 6) (py "Carolin") (py "Text")].
Proof.
  unfold parse_lines. cbn [loop bind].
  rewrite (proj1 (bracket_header carolin_fields
                    (py "[13.04.2019, 18:59:06] Carolin: Text") ltac:(concrete_de_wf)
                    ltac:(vm_compute; reflexivity))
             ltac:(vm_compute; reflexivity)).
  vm_compute. reflexivity.
Defined.

Lemma iso_line_parts_eq f : iso_line_parts f = iso_line f.
Proof.
  unfold iso_line_parts, iso_line, iso_date, iso_time. rewrite app_nil_r.
  repeat rewrite <- app_assoc. reflexivity.
Qed.

Lemma eats_times pre n xs s g :
  digits n n xs -> eats (times digit n) pre xs s g g.
Proof.
  intros [Hd [Hlo Hhi]]. apply eats_greedy; try assumption.
  right. f_equal. lia.
Qed.

Lemma eats_pat_iso f :
  iso_wf f -> eats _pat_iso [] (iso_line_parts f) [] [] (iso_groups f).
Proof.
  intros W. unfold _pat_iso, iso_line_parts, iso_groups. cbn [cat].
  apply eats_bol.
  eapply eats_seq.
  { apply eats_grp. unfold iso_date.
    eapply eats_seq; [apply eats_times, W|].
    eapply eats_seq; [now apply eats_one|].
    eapply eats_seq; [apply eats_times, W|].
    eapply eats_seq; [now apply eats_one|].
    apply eats_times, W. }
  eapply eats_seq.
  { apply eats_one. destruct (iwf_sep f W) as [-> | ->]; reflexivity. }
  eapply eats_seq.
  { apply eats_grp. unfold iso_time.
    eapply eats_seq; [apply eats_times, W|].
    eapply eats_seq; [now apply eats_one|].
    eapply eats_seq; [apply eats_times, W|].
    eapply eats_seq; [now apply eats_one|].
    apply eats_times, W. }
  eapply eats_seq.
  { apply eats_blank1; [apply W|].
    destruct (iwf_author f W) as [Hne _]. pose proof (iwf_author_start f W) as Hs.
    destruct (i_author f); [congruence|exact Hs]. }
  destruct (iwf_author f W) as [Hne Hcol].
  apply (eats_tail 3 4); first [assumption | apply W].
Qed.

Lemma match_pat_iso f :
  iso_wf f ->
  re_match _pat_iso (iso_line f)
  = Some (RMatch (length (iso_line f)) (iso_groups f)).
Proof.
  intros W. rewrite <- iso_line_parts_eq. unfold re_match, match_at.
  rewrite <- (app_nil_r (iso_line_parts f)) at 1.
  apply (eats_pat_iso f W). cbn [at_ m_pos m_groups app].
  now rewrite Nat.sub_0_r.
Qed.

(** [fromisoformat] on a date and a time with the digit counts of the
    pattern reads the six fields. *)
Lemma fromisoformat_fields y mo d h mi s :
  length y = 4%nat -> length mo = 2%nat -> length d = 2%nat ->
  length h = 2%nat -> length mi = 2%nat -> length s = 2%nat ->
  fromisoformat ((y ++ [U.HYPHEN] ++ mo ++ [U.HYPHEN] ++ d) ++ [U.SPACE]
                 ++ h ++ [U.COLON] ++ mi ++ [U.COLON] ++ s)
  = let* y' := ascii_int_from 0 y in
    let* mo' := ascii_int_from 0 mo in
    let* d' := ascii_int_from 0 d in
    let* h' := ascii_int_from 0 h in
    let* mi' := ascii_int_from 0 mi in
    let* s' := ascii_int_from 0 s in
    datetime_new y' mo' d' h' mi' s'.
Proof.
  intros Hy Hmo Hd Hh Hmi Hs.
  destruct y as [|y1 [|y2 [|y3 [|y4 [|]]]]]; try discriminate.
  destruct mo as [|m1 [|m2 [|]]]; try discriminate.
  destruct d as [|d1 [|d2 [|]]]; try discriminate.
  destruct h as [|h1 [|h2 [|]]]; try discriminate.
  destruct mi as [|i1 [|i2 [|]]]; try discriminate.
  destruct s as [|s1 [|s2 [|]]]; try discriminate.
  reflexivity.
Qed.

Lemma ascii_int_from_ok s : forall acc,
  ascii_digits s -> exists n, ascii_int_from acc s = Ok n.
Proof.
  induction s as [|c s IH]; intros acc H; simpl; [eauto|].
  inversion H as [|? ? Hc Hs]; subst.
  replace ((48 <=? c) && (c <=? 57)) with true by lia. now apply IH.
Qed.

Lemma ascii_number_ok s : ascii_digits s -> ascii_int_from 0 s = Ok (ascii_number s).
Proof.
  intros H. unfold ascii_number.
  destruct (ascii_int_from_ok s 0 H) as [n ->]. reflexivity.
Qed.

Lemma ascii_int_from_digits s : forall acc n,
  ascii_int_from acc s = Ok n -> ascii_digits s.
Proof.
  induction s as [|c s IH]; intros acc n H; simpl in H; [constructor|].
  destruct ((48 <=? c) && (c <=? 57)) eqn:E; [|discriminate].
  constructor; [lia|now apply IH in H].
Qed.

Lemma header_iso_groups f n :
  iso_wf f ->
  header_iso (RMatch n (iso_groups f))
  = let* t := fromisoformat (iso_date f ++ [U.SPACE] ++ iso_time f) in
    Ok (Msg t (_norm_space (i_author f)) (i_text f)).
Proof. reflexivity. Qed.

Lemma iso_line_nonempty f : iso_wf f -> iso_line f <> [].
Proof.
  intros W. unfold iso_line. destruct (iwf_year f W) as [_ [H _]].
  destruct (i_year f); [simpl in H; lia|discriminate].
Qed.

Lemma step_iso f raw st :
  iso_wf f -> clean_line raw = iso_line f ->
  step st raw
  = let* t := fromisoformat (iso_date f ++ [U.SPACE] ++ iso_time f) in
    Ok (push (Msg t (_norm_space (i_author f)) (i_text f)) st).
Proof.
  intros W Hraw. unfold step. rewrite Hraw.
  pose proof (iso_line_nonempty f W) as Hne.
  destruct (iso_line f) eqn:E; [congruence|]. rewrite <- E.
  unfold classify. rewrite (match_pat_iso f W), (header_iso_groups f _ W).
  destruct (fromisoformat _); reflexivity.
Qed.

Lemma iso_fromisoformat f :
  iso_wf f ->
  fromisoformat (iso_date f ++ [U.SPACE] ++ iso_time f)
  = let* y' := ascii_int_from 0 (i_year f) in
    let* mo' := ascii_int_from 0 (i_month f) in
    let* d' := ascii_int_from 0 (i_day f) in
    let* h' := ascii_int_from 0 (i_hour f) in
    let* mi' := ascii_int_from 0 (i_minute f) in
    let* s' := ascii_int_from 0 (i_second f) in
    datetime_new y' mo' d' h' mi' s'.
Proof.
  intros W. unfold iso_date, iso_time.
  apply fromisoformat_fields;
    [destruct (iwf_year f W) as [_ H]|destruct (iwf_month f W) as [_ H]
    |destruct (iwf_day f W) as [_ H]|destruct (iwf_hour f W) as [_ H]
    |destruct (iwf_minute f W) as [_ H]|destruct (iwf_second f W) as [_ H]]; lia.
Qed.

(** The ISO dialect: a line YYYY-MM-DD HH:MM:SS author: text (or with a T
    between date and time) written with ASCII digits opens a message with
    that date and time, the normalised author and the text when the values
    are those of a date and a time, and raises [ValueError] when they are
    not. *)
Theorem iso_header (f : iso_fields) (raw : str) :
  iso_wf f ->
  iso_ascii f ->
  clean_line raw = iso_line f ->
  (iso_valid f = true ->
   forall st,
     step st raw
     = Ok (push (Msg (iso_datetime f) (_norm_space (i_author f)) (i_text f)) st)) /\
  (iso_valid f = false -> forall st, step st raw = Raise ValueError).
Proof.
  intros W Ha Hraw. unfold iso_ascii, ascii_digits in Ha.
  rewrite !Forall_app in Ha. destruct Ha as (Hy & Hmo & Hd & Hh & Hmi & Hs).
  assert (Hdt : fromisoformat (iso_date f ++ [U.SPACE] ++ iso_time f)
                = datetime_new (ascii_number (i_year f)) (ascii_number (i_month f))
                    (ascii_number (i_day f)) (ascii_number (i_hour f))
                    (ascii_number (i_minute f)) (ascii_number (i_second f))).
  { rewrite (iso_fromisoformat f W).
    rewrite !ascii_number_ok by assumption. reflexivity. }
  split; intros Hv st; rewrite (step_iso f raw st W Hraw), Hdt;
    unfold datetime_new; unfold iso_valid in Hv; now rewrite Hv.
Qed.

Lemma iso_header_witness :
  step (PState [] None) (py "2024-01-05 09:00:00 Alice: Hello")
  = Ok (push (Msg (iso_datetime alice_iso) (py "Alice") (py "Hello")) (PState [] None)).
Proof.
  refine (proj1 (iso_header alice_iso (py "2024-01-05 09:00:00 Alice: Hello") _ _ _) _
            (PState [] None)).
  - concrete_iso_wf.
  - unfold iso_ascii, ascii_digits. vm_compute.
    repeat (apply List.Forall_cons; [split; discriminate|]). apply List.Forall_nil.
  - vm_compute. reflexivity.
  - vm_compute. reflexivity.
Defined.

(** A line of the ISO dialect in which a digit of the date or the time is a
    decimal digit outside ASCII matches [_pat_iso], whose [\d] takes every
    decimal digit, and makes the parser raise [ValueError]:
    [fromisoformat] reads ASCII digits only. *)
Theorem iso_header_other_digits (f : iso_fields) (raw : str) :
  iso_wf f ->
  ~ iso_ascii f ->
  clean_line raw = iso_line f ->
  re_match _pat_iso (iso_line f) <> None /\
  forall st, step st raw = Raise ValueError.
Proof.
  intros W Hn Hraw. split; [rewrite (match_pat_iso f W); discriminate|].
  intros st. rewrite (step_iso f raw st W Hraw), (iso_fromisoformat f W).
  destruct (ascii_int_from 0 (i_year f)) as [y|e] eqn:Ey;
    [|now rewrite (ve_ascii_int_from _ _ _ Ey)].
  destruct (ascii_int_from 0 (i_month f)) as [mo|e] eqn:Emo;
    [|now rewrite (ve_ascii_int_from _ _ _ Emo)].
  destruct (ascii_int_from 0 (i_day f)) as [d|e] eqn:Ed;
    [|now rewrite (ve_ascii_int_from _ _ _ Ed)].
  destruct (ascii_int_from 0 (i_hour f)) as [h|e] eqn:Eh;
    [|now rewrite (ve_ascii_int_from _ _ _ Eh)].
  destruct (ascii_int_from 0 (i_minute f)) as [mi|e] eqn:Emi;
    [|now rewrite (ve_ascii_int_from _ _ _ Emi)].
  destruct (ascii_int_from 0 (i_second f)) as [s|e] eqn:Es;
    [|now rewrite (ve_ascii_int_from _ _ _ Es)].
  exfalso. apply Hn. unfold iso_ascii, ascii_digits. rewrite !Forall_app.
  repeat split; eapply ascii_int_from_digits; eassumption.
Qed.

Lemma iso_header_other_digits_witness :
  step (PState [] None) ([1634; 1632; 1634; 1636] ++ py "-01-05 09:00:00 Alice: Hello")
  = Raise ValueError.
Proof.
  refine (proj2 (iso_header_other_digits alice_iso_arabic
                   ([1634; 1632; 1634; 1636] ++ py "-01-05 09:00:00 Alice: Hello")
                   _ _ _) (PState [] None)).
  - concrete_iso_wf.
  - unfold iso_ascii, ascii_digits. vm_compute. intros H.
    inversion H as [|? ? [H1 H2] _]. now apply H2.
  - vm_compute. reflexivity.
Defined.

(** *** The header patterns exclude one another *)

Lemma takes_times n xs rest :
  takes (times digit n) xs rest -> digits n n xs.
Proof. cbn [takes times]. intros (H & Hlo & Hhi). repeat split; assumption. Qed.

Lemma takes_pat_iso xs rest :
  takes _pat_iso xs rest ->
  exists d4 tail, xs = d4 ++ U.HYPHEN :: tail /\ digits 4 4 d4.
Proof.
  unfold _pat_iso. cbn [cat]. cbn [takes].
  intros (b & z0 & -> & -> & D & z1 & -> & (d4 & z2 & -> & H4 & p & z3 & -> & Hp & _) & _).
  apply (takes_lit "-" U.HYPHEN _ _ eq_refl) in Hp; subst.
  exists d4, (z3 ++ z1). split.
  - simpl. now rewrite <- app_assoc.
  - exact (takes_times 4 d4 [] H4).
Qed.

Lemma takes_pat_bracket xs rest :
  takes _pat_bracket xs rest -> exists tail, xs = 91 :: tail.
Proof.
  unfold _pat_bracket. cbn [cat]. cbn [takes].
  intros (b & z0 & -> & -> & p & z1 & -> & Hp & _).
  apply (takes_lit "[" 91 _ _ eq_refl) in Hp; subst. eauto.
Qed.

(** No line matches two of the three header patterns: the order in which
    [parse_messages] tries them decides nothing. *)
Theorem header_patterns_exclusive (line : str) :
  (re_match _pat_iso line <> None ->
   re_match _pat_de line = None /\ re_match _pat_bracket line = None) /\
  (re_match _pat_de line <> None ->
   re_match _pat_iso line = None /\ re_match _pat_bracket line = None) /\
  (re_match _pat_bracket line <> None ->
   re_match _pat_iso line = None /\ re_match _pat_de line = None).
Proof.
  assert (Hnd : forall c, isdecimal c = false -> ~ isdecimal c = true)
    by (intros c ->; discriminate).
  assert (Hid : re_match _pat_iso line <> None -> re_match _pat_de line <> None -> False).
  { intros Hi Hd.
    destruct (re_match _pat_iso line) as [mi|] eqn:Ei; [|congruence].
    destruct (re_match _pat_de line) as [md|] eqn:Ed; [|congruence].
    apply match_takes in Ei as (xi & si & Hxi & Hti).
    apply match_takes in Ed as (xd & sd & Hxd & Htd).
    apply takes_pat_iso in Hti as (d4 & tail & -> & H4).
    apply takes_pat_de in Htd as (d1 & d2 & d3 & w1 & h & m & o & w2 & tl & -> & H1 & _).
    rewrite Hxi in Hxd. rewrite <- !app_assoc in Hxd. simpl in Hxd.
    apply (run_align (fun c => isdecimal c = true)) in Hxd as (_ & Hc & _);
      [discriminate|apply H4|apply H1|now apply Hnd|now apply Hnd]. }
  assert (Hib : re_match _pat_iso line <> None -> re_match _pat_bracket line <> None -> False).
  { intros Hi Hb.
    destruct (re_match _pat_iso line) as [mi|] eqn:Ei; [|congruence].
    destruct (re_match _pat_bracket line) as [mb|] eqn:Eb; [|congruence].
    apply match_takes in Ei as (xi & si & Hxi & Hti).
    apply match_takes in Eb as (xb & sb & Hxb & Htb).
    apply takes_pat_iso in Hti as (d4 & tail & -> & [Hd [Hl _]]).
    apply takes_pat_bracket in Htb as (tl & ->).
    rewrite Hxi in Hxb. destruct d4 as [|c d4]; [simpl in Hl; lia|].
    inversion Hxb; subst. inversion Hd; subst. discriminate. }
  assert (Hdb : re_match _pat_de line <> None -> re_match _pat_bracket line <> None -> False).
  { intros Hd Hb.
    destruct (re_match _pat_de line) as [md|] eqn:Ed; [|congruence].
    destruct (re_match _pat_bracket line) as [mb|] eqn:Eb; [|congruence].
    apply match_takes in Ed as (xd & sd & Hxd & Htd).
    apply match_takes in Eb as (xb & sb & Hxb & Htb).
    apply takes_pat_de in Htd as (d1 & d2 & d3 & w1 & h & m & o & w2 & tl & -> & [Hd1 [Hl _]] & _).
    apply takes_pat_bracket in Htb as (tl' & ->).
    rewrite Hxd in Hxb. destruct d1 as [|c d1]; [simpl in Hl; lia|].
    inversion Hxb; subst. inversion Hd1; subst. discriminate. }
  assert (Hnone : forall r, (re_match r line <> None -> False) -> re_match r line = None).
  { intros r H. destruct (re_match r line); [exfalso; apply H; discriminate|reflexivity]. }
  split; [|split]; intros H; split; apply Hnone; intros H'; eauto.
Qed.

(** ** The parse as a whole *)

Lemma step_by_header st l :
  step st l
  = match clean_line l with
    | [] => Ok (append_last [U.LF] st)
    | c :: t =>
        match classify (c :: t) with
        | Ok (Header h) => Ok (push h st)
        | Ok Continuation => Ok (append_last (U.LF :: c :: t) st)
        | Raise e => Raise e
        end
    end.
Proof.
  unfold step. destruct (clean_line l) as [|c t]; [reflexivity|].
  destruct (classify (c :: t)) as [[h|]|e]; reflexivity.
Qed.

Lemma step_ok st l st1 :
  step st l = Ok st1 ->
  (exists h, header_of l = Some h /\ st1 = push h st) \/
  (header_of l = None /\ st1 = append_last (U.LF :: clean_line l) st).
Proof.
  rewrite step_by_header. unfold header_of.
  destruct (clean_line l) as [|c t]; [intros [= <-]; now right|].
  destruct (classify (c :: t)) as [[h|]|e]; intros [= <-]; [left; eauto|now right].
Qed.

Lemma loop_open_assemble lines : forall done m st',
  loop (open_state done m) lines = Ok st' ->
  msgs st' = done ++ assemble (Some m) lines.
Proof.
  induction lines as [|l ls IH]; intros done m st' H; simpl in H.
  - inversion H; subst. reflexivity.
  - destruct (step (open_state done m) l) as [st1|e] eqn:E; [|discriminate].
    simpl in H. apply step_ok in E as [(h & Hh & ->)|[Hh ->]]; cbn [assemble]; rewrite Hh.
    + rewrite push_open in H. apply IH in H. rewrite H. cbn [msgs open_state option_list].
      now rewrite <- app_assoc.
    + rewrite append_last_open in H. apply IH in H. exact H.
Qed.

Lemma loop_closed_assemble lines : forall st',
  loop (PState [] None) lines = Ok st' -> msgs st' = assemble None lines.
Proof.
  induction lines as [|l ls IH]; intros st' H; simpl in H.
  - inversion H; subst. reflexivity.
  - destruct (step (PState [] None) l) as [st1|e] eqn:E; [|discriminate].
    simpl in H. apply step_ok in E as [(h & Hh & ->)|[Hh ->]]; cbn [assemble]; rewrite Hh.
    + rewrite push_open in H. apply loop_open_assemble in H. exact H.
    + now apply IH.
Qed.

Lemma assemble_length lines : forall cur,
  length (assemble cur lines) = (length (option_list cur) + length (headers lines))%nat.
Proof.
  induction lines as [|l ls IH]; intros cur; simpl; [lia|].
  destruct (header_of l) as [h|].
  - rewrite length_app, IH. simpl. lia.
  - rewrite IH. destruct cur; simpl; lia.
Qed.

(** The parser with its list [msgs] and the alias [last] computes the fold
    [assemble]: a message changes only while it is the last one, by the lines
    up to the next header line, and there are as many messages as header
    lines. *)
Theorem parse_lines_assemble (lines : list str) (ms : list Message) :
  parse_lines lines = Ok ms ->
  ms = assemble None lines /\ length ms = length (headers lines).
Proof.
  unfold parse_lines. intros H.
  destruct (loop (PState [] None) lines) as [st|e] eqn:E; [|discriminate].
  inversion H; subst. apply loop_closed_assemble in E.
  split; [exact E|]. rewrite E, assemble_length. reflexivity.
Qed.

Lemma parse_lines_assemble_witness :
  assemble None [py "stray"; py "2024-01-05 09:00:05 Bob: Hi!"; py "more"; [];
                 py "05.01.24, 9:00 - Alice: Hey"]
  = [Msg (DateTime 2024 1 5 9 0 5) (py "Bob") (py "Hi!" ++ [U.LF] ++ py "more" ++ [U.LF]);
     Msg (DateTime 2024 1 5 9 0 0) (py "Alice") (py "Hey")].
Proof.
  symmetry.
  refine (proj1 (parse_lines_assemble
                   [py "stray"; py "2024-01-05 09:00:05 Bob: Hi!"; py "more"; [];
                    py "05.01.24, 9:00 - Alice: Hey"] _ _)).
  vm_compute. reflexivity.
Defined.

(** *** What the messages are made of *)

Lemma run_chars (Q : Z -> Prop) r : forall st A (k : mstate -> option A) x,
  run r st k = Some x ->
  Forall Q (m_rest st) -> Forall (fun p => Forall Q (snd p)) (m_groups st) ->
  exists st', k st' = Some x /\ Forall Q (m_rest st') /\
              Forall (fun p => Forall Q (snd p)) (m_groups st').
Proof.
  induction r as [| |c|c lo hi g|a IHa b IHb|a IHa b IHb|a IHa|i a IHa];
    intros st A k x H Hr Hg; cbn [run] in H.
  - destruct (m_pos st); [eauto|discriminate].
  - exists st. split; [|now split].
    destruct (m_rest st) as [|y [|z t]]; try discriminate; [assumption|].
    destruct (y =? U.LF); [assumption|discriminate].
  - destruct (m_rest st) as [|y t] eqn:E; [discriminate|].
    destruct (in_cls c y); [|discriminate].
    exists (moved st t). split; [exact H|]. split; [now inversion Hr|exact Hg].
  - apply rep_takes in H as (xs & s' & Hs & _ & _ & _ & Hk).
    exists (moved st s'). split; [exact Hk|]. split; [|exact Hg].
    cbn [moved m_rest]. rewrite Hs in Hr. now apply Forall_app in Hr.
  - apply IHa in H as (st1 & H & Hr1 & Hg1); [|assumption..].
    apply IHb in H as (st2 & H & Hr2 & Hg2); eauto.
  - unfold or_else in H. destruct (run a st k) eqn:E.
    + inversion H; subst. eapply IHa; eauto.
    + eapply IHb; eauto.
  - unfold or_else in H. destruct (run a st k) eqn:E.
    + inversion H; subst. eapply IHa; eauto.
    + eauto.
  - apply IHa in H as (st1 & H & Hr1 & Hg1); [|assumption..].
    exists (set_group i st st1). split; [exact H|]. split; [exact Hr1|].
    unfold set_group. cbn [m_groups]. constructor; [|exact Hg1].
    cbn [snd]. now apply Forall_take.
Qed.

(** A group of a match is made of characters of the text. *)
Lemma match_group_chars (Q : Z -> Prop) r s m i t :
  re_match r s = Some m -> Forall Q s -> group m i = Some t -> Forall Q t.
Proof.
  unfold re_match, match_at. intros H Hs Hg.
  apply (run_chars Q) in H as (st & H & _ & Hgs); [|exact Hs|constructor].
  inversion H; subst. unfold group in Hg. cbn [m_caps] in Hg.
  destruct (List.find _ (m_groups st)) as [p|] eqn:E; [|discriminate].
  inversion Hg; subst. apply find_some in E as [E _].
  rewrite Forall_forall in Hgs. apply Hgs. now apply list_elem_of_In.
Qed.

Lemma norm_space_fixed s : _norm_space (_norm_space s) = _norm_space s.
Proof.
  unfold _norm_space at 2 3. apply norm_space_join.
  apply split_ws_from_tokens; [constructor|]. apply remove_chars_gone.
Qed.

Lemma datetime_new_valid y mo d h mi s t :
  datetime_new y mo d h mi s = Ok t -> valid_ts t = true.
Proof.
  unfold datetime_new. destruct (valid_datetime y mo d h mi s) eqn:E; [|discriminate].
  intros [= <-]. exact E.
Qed.

Lemma bind_ok {A B} (x : result A) (f : A -> result B) b :
  bind x f = Ok b -> exists a, x = Ok a /\ f a = Ok b.
Proof. destruct x as [a|e]; simpl; [eauto|discriminate]. Qed.

Lemma fromisoformat_valid s t : fromisoformat s = Ok t -> valid_ts t = true.
Proof.
  unfold fromisoformat.
  do 19 (destruct s as [|? s]; [discriminate|]).
  destruct s; [|discriminate].
  match goal with |- (if ?b then _ else _) = _ -> _ => destruct b end; [|discriminate].
  intros H.
  repeat (apply bind_ok in H as (? & _ & H)).
  eapply datetime_new_valid, H.
Qed.

Lemma parse_dt_de_valid d t_hm t_s t :
  parse_dt_de d t_hm t_s = Ok t -> valid_ts t = true.
Proof.
  unfold parse_dt_de.
  destruct (split_on U.DOT d) as [|dd [|mm [|yy [|]]]]; try discriminate.
  intros H. repeat (apply bind_ok in H as (? & _ & H)).
  destruct (split_on U.COLON t_hm) as [|hh [|mi [|]]]; try discriminate.
  repeat (apply bind_ok in H as (? & _ & H)).
  eapply datetime_new_valid, H.
Qed.

Lemma header_iso_clean line mi m :
  re_match _pat_iso line = Some mi -> Forall (fun c => c ∉ line_marks) line ->
  header_iso mi = Ok m -> clean_message m.
Proof.
  intros Hm Hl. unfold header_iso. cbn [groups List.map List.seq].
  destruct (group mi 1) as [g1|]; [|discriminate].
  destruct (group mi 2) as [g2|]; [|discriminate].
  destruct (group mi 3) as [g3|]; [|discriminate].
  destruct (group mi 4) as [g4|] eqn:E4; [|discriminate].
  intros H. apply bind_ok in H as (t & Ht & H). inversion H; subst.
  split; [eapply fromisoformat_valid, Ht|]. split; [apply norm_space_fixed|].
  cbn [text]. eapply match_group_chars; eauto.
Qed.

Lemma header_de_clean r line md m :
  re_match r line = Some md -> Forall (fun c => c ∉ line_marks) line ->
  header_de md = Ok m -> clean_message m.
Proof.
  intros Hm Hl. unfold header_de. cbn [groups List.map List.seq].
  destruct (group md 1) as [g1|]; [|discriminate].
  destruct (group md 2) as [g2|]; [|discriminate].
  destruct (group md 3) as [g3|];
    (destruct (group md 4) as [g4|]; [|discriminate]);
    (destruct (group md 5) as [g5|] eqn:E5; [|discriminate]);
    intros H; apply bind_ok in H as (t & Ht & H); inversion H; subst;
    (split; [eapply parse_dt_de_valid, Ht|]); (split; [apply norm_space_fixed|]);
    cbn [text]; eapply match_group_chars; eauto.
Qed.

Lemma clean_line_marks l : Forall (fun c => c ∉ line_marks) (clean_line l).
Proof.
  unfold clean_line. destruct (rstrip _ l); [constructor|apply remove_chars_gone].
Qed.

Lemma header_of_clean l m : header_of l = Some m -> clean_message m.
Proof.
  unfold header_of. pose proof (clean_line_marks l) as Hl.
  destruct (clean_line l) as [|c t]; [discriminate|]. unfold classify.
  destruct (re_match _pat_iso (c :: t)) as [mi|] eqn:E1.
  { destruct (header_iso mi) as [m'|] eqn:E; [|discriminate].
    intros [= <-]. eapply header_iso_clean; eauto. }
  destruct (re_match _pat_de (c :: t)) as [md|] eqn:E2.
  { destruct (header_de md) as [m'|] eqn:E; [|discriminate].
    intros [= <-]. eapply header_de_clean; eauto. }
  destruct (re_match _pat_bracket (c :: t)) as [mb|] eqn:E3; [|discriminate].
  destruct (header_de mb) as [m'|] eqn:E; [|discriminate].
  intros [= <-]. eapply header_de_clean; eauto.
Qed.

Lemma add_text_clean l m :
  clean_message m -> clean_message (add_text (U.LF :: clean_line l) m).
Proof.
  intros (Hv & Ha & Ht). split; [exact Hv|]. split; [exact Ha|].
  unfold add_text. cbn [text]. apply Forall_app. split; [exact Ht|].
  constructor; [|apply clean_line_marks].
  unfold line_marks, direction_marks. rewrite !elem_of_cons, elem_of_nil.
  intros [?|[?|[?|[?|[?|[?|[]]]]]]]; discriminate.
Qed.

Lemma assemble_clean lines : forall cur,
  Forall clean_message (option_list cur) -> Forall clean_message (assemble cur lines).
Proof.
  induction lines as [|l ls IH]; intros cur Hc; simpl; [exact Hc|].
  destruct (header_of l) as [h|] eqn:E.
  - apply Forall_app. split; [exact Hc|]. apply IH.
    constructor; [eapply header_of_clean, E|constructor].
  - apply IH. destruct cur as [m|]; [|constructor].
    inversion Hc; subst. constructor; [now apply add_text_clean|constructor].
Qed.

(** Every message the parser returns has a date and a time that exist, an
    author that [_norm_space] leaves as it is, and a text in which no
    byte-order mark and no direction mark is left. *)
Theorem parsed_messages_clean (lines : list str) (ms : list Message) :
  parse_lines lines = Ok ms -> Forall clean_message ms.
Proof.
  unfold parse_lines. intros H.
  destruct (loop (PState [] None) lines) as [st|e] eqn:E; [|discriminate].
  inversion H; subst. apply loop_closed_assemble in E. rewrite E.
  apply assemble_clean. constructor.
Qed.

Lemma parsed_messages_clean_witness :
  Forall clean_message
    [Msg (DateTime 2019 4 13 18 59 6) (py "Carolin B") (py "Text")].
Proof.
  refine (parsed_messages_clean
            [[U.BOM] ++ py "[13.04.2019, 18:59:06] " ++ [U.LRM; U.LRE]
             ++ py "Carolin " ++ [U.NBSP] ++ py "B" ++ [U.PDF] ++ py ": Text"] _ _).
  vm_compute. reflexivity.
Defined.

(** On the date and time fields the header patterns capture, which are
    decimal digits in the counts of the patterns, [parse_dt_de] returns no
    year below 100: a year field whose number is below 100 (24, and 0024 as
    well) stands for that number plus 2000, every other one for its
    number. *)
Theorem parse_dt_de_year (dd mm yy hh mi : str) (t_s : option str) (t : datetime) :
  digits 1 2 dd -> digits 1 2 mm -> digits 2 4 yy ->
  digits 1 2 hh -> digits 2 2 mi ->
  (forall ss, t_s = Some ss -> digits 2 2 ss) ->
  parse_dt_de (dd ++ [U.DOT] ++ mm ++ [U.DOT] ++ yy) (hh ++ [U.COLON] ++ mi) t_s
  = Ok t ->
  100 <= year t <= 9999 /\
  (number yy < 100 -> year t = number yy + 2000) /\
  (100 <= number yy -> year t = number yy).
Proof.
  intros Hdd Hmm Hyy Hhh Hmi Hss.
  assert (Hdot : isdecimal U.DOT = false) by reflexivity.
  assert (Hcolon : isdecimal U.COLON = false) by reflexivity.
  unfold parse_dt_de.
  rewrite split_on_3 by (eapply digits_ne; eassumption).
  rewrite (int_digits _ _ _ Hdd), (int_digits _ _ _ Hmm), (int_digits _ _ _ Hyy) by lia.
  cbn [bind].
  rewrite split_on_2 by (eapply digits_ne; eassumption).
  rewrite (int_digits _ _ _ Hhh), (int_digits _ _ _ Hmi) by lia.
  intros H. apply bind_ok in H as (sv & _ & H). cbn [bind] in H.
  assert (Hnn : 0 <= number yy).
  { pose proof (int_digits _ _ _ Hyy ltac:(lia)) as Hy.
    unfold int in Hy. destruct yy as [|c yy]; [discriminate|].
    assert (Hgen : forall s acc n, 0 <= acc -> int_from acc s = Ok n -> 0 <= n).
    { induction s as [|a s IHs]; intros acc n Hacc Hs; simpl in Hs.
      - inversion Hs; subst. exact Hacc.
      - destruct (digit_value a) as [dg|] eqn:Ed; [|discriminate].
        apply digit_in_range in Ed. apply (IHs (10 * acc + dg)); [lia|exact Hs]. }
    eapply Hgen; [|exact Hy]. lia. }
  unfold datetime_new in H.
  destruct (valid_datetime _ _ _ _ _ _) eqn:E; [|discriminate].
  inversion H; subst. cbn [year].
  unfold valid_datetime in E.
  destruct (Z.ltb_spec (number yy) 100); repeat split; lia.
Qed.

Lemma parse_dt_de_year_witness :
  100 <= year (DateTime 2024 1 5 9 0 0) <= 9999 /\
  year (DateTime 2024 1 5 9 0 0) = number (py "0024") + 2000.
Proof.
  destruct (parse_dt_de_year (py "5") (py "1") (py "0024") (py "9") (py "00") None
              (DateTime 2024 1 5 9 0 0)) as (H1 & H2 & _);
    try (split; [repeat constructor|simpl; lia]).
  - intros ss H. discriminate.
  - vm_compute. reflexivity.
  - split; [exact H1|]. apply H2. vm_compute. reflexivity.
Defined.

(** ** File name stems *)

Lemma drop_while_Forall (Q : Z -> Prop) p s : Forall Q s -> Forall Q (drop_while p s).
Proof.
  induction 1 as [|c s Hc Hs IH]; simpl; [constructor|].
  destruct (p c); [exact IH|now constructor].
Qed.

Lemma rstrip_Forall (Q : Z -> Prop) p s : Forall Q s -> Forall Q (rstrip p s).
Proof.
  intros H. destruct (rstrip_spec p s) as [(suffix & Hs & _) _].
  rewrite Hs in H. now apply Forall_app in H.
Qed.

Lemma strip_chars_Forall (Q : Z -> Prop) p s : Forall Q s -> Forall Q (strip_chars p s).
Proof. intros H. now apply rstrip_Forall, drop_while_Forall. Qed.

Lemma rstrip_head p c t : p c = false -> exists t', rstrip p (c :: t) = c :: t'.
Proof.
  intros Hc. destruct (rstrip_spec p (c :: t)) as [(suffix & Hs & Hsuf) _].
  destruct (rstrip p (c :: t)) as [|c' t'] eqn:E.
  - simpl in Hs. subst suffix. inversion Hsuf; subst. congruence.
  - simpl in Hs. inversion Hs; subst. eauto.
Qed.

(** What [strip] leaves neither starts nor ends with a character to strip. *)
Lemma strip_chars_ends p s : no_ends p (strip_chars p s).
Proof.
  unfold strip_chars, lstrip. split.
  - intros c t H. destruct (drop_while p s) as [|c' t'] eqn:E; [discriminate|].
    pose proof (drop_while_first p s c' t' E) as Hc'.
    destruct (rstrip_head p c' t' Hc') as [t'' Ht]. rewrite Ht in H.
    inversion H; subst. exact Hc'.
  - intros v c H. exact (proj2 (rstrip_spec p (drop_while p s)) v c H).
Qed.

Lemma strip_chars_id p s : no_ends p s -> strip_chars p s = s.
Proof.
  intros [Hh Hl]. unfold strip_chars, lstrip.
  destruct s as [|c t]; [reflexivity|].
  rewrite (drop_while_head p c t (Hh c t eq_refl)).
  destruct (exists_last (l := c :: t)) as (v & x & E); [discriminate|].
  rewrite E. apply rstrip_snoc. exact (Hl v x E).
Qed.

Lemma stem_class c : in_cls (CNot (List.map AChr stem_chars)) c = negb (is_stem_char c).
Proof.
  unfold in_cls, is_stem_char. f_equal.
Qed.

Lemma plus_no_match cl pos c s :
  in_cls cl c = false -> match_at (plus cl) pos (c :: s) = None.
Proof.
  intros H. unfold match_at, plus. cbn [run m_rest].
  apply (rep_short_fail cl true [] c s); [simpl; lia|exact H].
Qed.

Lemma run_of_class cl (s : str) :
  exists xs rest, s = xs ++ rest /\ Forall (fun y => in_cls cl y = true) xs /\
                  stops cl rest.
Proof.
  destruct (drop_while_split (in_cls cl) s) as (pre & Hs & Hpre).
  exists pre, (drop_while (in_cls cl) s). split; [exact Hs|]. split; [exact Hpre|].
  destruct (drop_while (in_cls cl) s) as [|y t] eqn:E; [exact I|].
  simpl. eapply drop_while_first, E.
Qed.

Lemma plus_match cl pos c s :
  in_cls cl c = true -> exists m, match_at (plus cl) pos (c :: s) = Some m.
Proof.
  intros H. destruct (run_of_class cl s) as (xs & rest & -> & Hxs & Hstop).
  unfold match_at, plus. cbn [run m_rest]. eexists.
  change (c :: xs ++ rest) with ((c :: xs) ++ rest).
  apply rep_greedy_run; [now constructor|simpl; lia|exact I|now left|reflexivity].
Qed.

(** Substituting for the runs of a class leaves the replacement and the
    characters outside the class. *)
Lemma sub_plus_chars (Q : Z -> Prop) cl repl s : forall pos skip,
  Forall Q repl -> (forall c, in_cls cl c = false -> Q c) ->
  Forall Q (sub_from (plus cl) repl pos skip s).
Proof.
  induction s as [|c s IH]; intros pos skip Hr Hc; simpl; [constructor|].
  destruct skip as [|n]; [|now apply IH].
  destruct (in_cls cl c) eqn:E.
  - destruct (plus_match cl pos c s E) as [m ->].
    apply Forall_app. split; [exact Hr|now apply IH].
  - rewrite (plus_no_match cl pos c s E). constructor; [now apply Hc|now apply IH].
Qed.

Lemma sub_plus_id cl repl s : forall pos,
  Forall (fun c => in_cls cl c = false) s -> sub_from (plus cl) repl pos 0 s = s.
Proof.
  induction s as [|c s IH]; intros pos H; simpl; [reflexivity|].
  inversion H as [|? ? Hc Hs]; subst.
  rewrite (plus_no_match cl pos c s Hc). f_equal. now apply IH.
Qed.

Lemma safe_stem_default_ok :
  Forall (fun c => is_stem_char c = true) (py "WHATSAPP_CHAT") /\
  no_ends is_underscore (py "WHATSAPP_CHAT").
Proof.
  split; [repeat constructor|]. split.
  - intros c t [= <- _]. reflexivity.
  - intros v c H. change (py "WHATSAPP_CHAT") with (py "WHATSAPP_CHA" ++ [84]) in H.
    apply app_inj_tail in H as [_ <-]. reflexivity.
Qed.

Lemma sub_stem_chars stem :
  Forall (fun c => is_stem_char c = true)
         (strip_chars is_underscore (re_sub _stem_re [95] stem)).
Proof.
  apply strip_chars_Forall. unfold re_sub, _stem_re. apply sub_plus_chars.
  - repeat constructor.
  - intros c H. rewrite stem_class in H. now destruct (is_stem_char c).
Qed.

(** [safe_filename_stem] returns a stem that is not empty, is made of ASCII
    letters, digits, underscores and hyphens only, and neither starts nor
    ends with an underscore. *)
Theorem safe_filename_stem_safe (stem : str) :
  safe_filename_stem stem <> [] /\
  Forall (fun c => is_stem_char c = true) (safe_filename_stem stem) /\
  no_ends is_underscore (safe_filename_stem stem).
Proof.
  unfold safe_filename_stem.
  pose proof (strip_chars_ends is_underscore (re_sub _stem_re [95] stem)) as He.
  pose proof (sub_stem_chars stem) as Hc.
  destruct (strip_chars is_underscore (re_sub _stem_re [95] stem)) as [|c t].
  - split; [discriminate|]. exact safe_stem_default_ok.
  - split; [discriminate|]. now split.
Qed.

(** [safe_filename_stem] changes no stem that is safe already, and applied
    twice it gives what it gives applied once. *)
Theorem safe_filename_stem_fixed (stem : str) :
  (stem <> [] -> Forall (fun c => is_stem_char c = true) stem ->
   no_ends is_underscore stem -> safe_filename_stem stem = stem) /\
  safe_filename_stem (safe_filename_stem stem) = safe_filename_stem stem.
Proof.
  assert (Hfix : forall s, s <> [] -> Forall (fun c => is_stem_char c = true) s ->
                           no_ends is_underscore s -> safe_filename_stem s = s).
  { intros s Hne Hc He. unfold safe_filename_stem, re_sub, _stem_re.
    rewrite sub_plus_id.
    - rewrite (strip_chars_id _ _ He). destruct s; [congruence|reflexivity].
    - eapply Forall_impl; [exact Hc|]. intros c H. rewrite stem_class. now rewrite H. }
  split; [apply Hfix|].
  unfold safe_filename_stem at 2 3.
  pose proof (strip_chars_ends is_underscore (re_sub _stem_re [95] stem)) as He.
  pose proof (sub_stem_chars stem) as Hc.
  destruct (strip_chars is_underscore (re_sub _stem_re [95] stem)) as [|c t].
  - apply Hfix; [discriminate|apply safe_stem_default_ok..].
  - apply Hfix; [discriminate|exact Hc|exact He].
Qed.

Lemma safe_filename_stem_fixed_witness :
  safe_filename_stem (py "Chat_mit-Bob") = py "Chat_mit-Bob".
Proof.
  apply (proj1 (safe_filename_stem_fixed (py "Chat_mit-Bob"))).
  - discriminate.
  - repeat constructor.
  - split.
    + intros c t [= <- _]. reflexivity.
    + intros v c H. change (py "Chat_mit-Bob") with (py "Chat_mit-Bo" ++ [98]) in H.
      apply app_inj_tail in H as [_ <-]. reflexivity.
Defined.

(** ** HTML text *)

Lemma replace_by_chars (Q : Z -> Prop) c r s :
  Forall Q r -> Forall (fun x => x <> c -> Q x) s -> Forall Q (replace_by c r s).
Proof.
  intros Hr. unfold replace_by. induction 1 as [|x s Hx Hs IH]; simpl; [constructor|].
  apply Forall_app. split; [|exact IH].
  destruct (Z.eqb_spec x c); [exact Hr|]. constructor; [now apply Hx|constructor].
Qed.

Lemma html_escape_chars s : Forall (fun c => is_markup c = false) (html_escape s).
Proof.
  unfold html_escape.
  assert (H1 : Forall (fun c => c <> 60)
                 (replace_by 60 (py "&lt;") (replace_by 38 (py "&amp;") s))).
  { apply replace_by_chars; [repeat constructor; discriminate|].
    apply Forall_forall. auto. }
  assert (H2 : Forall (fun c => c <> 60 /\ c <> 62)
                 (replace_by 62 (py "&gt;")
                    (replace_by 60 (py "&lt;") (replace_by 38 (py "&amp;") s)))).
  { apply replace_by_chars; [repeat constructor; discriminate|].
    eapply Forall_impl; [exact H1|]. simpl. auto. }
  assert (H3 : Forall (fun c => (c <> 60 /\ c <> 62) /\ c <> 34)
                 (replace_by 34 (py "&quot;")
                    (replace_by 62 (py "&gt;")
                       (replace_by 60 (py "&lt;") (replace_by 38 (py "&amp;") s))))).
  { apply replace_by_chars; [repeat constructor; discriminate|].
    eapply Forall_impl; [exact H2|]. simpl. auto. }
  assert (H4 : Forall (fun c => ((c <> 60 /\ c <> 62) /\ c <> 34) /\ c <> 39)
                 (replace_by 39 (py "&#x27;")
                    (replace_by 34 (py "&quot;")
                       (replace_by 62 (py "&gt;")
                          (replace_by 60 (py "&lt;") (replace_by 38 (py "&amp;") s)))))).
  { apply replace_by_chars; [repeat constructor; discriminate|].
    eapply Forall_impl; [exact H3|]. simpl. auto. }
  eapply Forall_impl; [exact H4|]. simpl. intros c [[[Ha Hb] Hc] Hd].
  unfold is_markup.
  destruct (Z.eqb_spec c 60); [contradiction|].
  destruct (Z.eqb_spec c 62); [contradiction|].
  destruct (Z.eqb_spec c 34); [contradiction|].
  destruct (Z.eqb_spec c 39); [contradiction|reflexivity].
Qed.

Lemma splitlines_from_chars (Q : Z -> Prop) s : forall cur,
  Forall Q s -> Forall (fun c => Q c /\ is_linebreak c = false) cur ->
  Forall (Forall (fun c => Q c /\ is_linebreak c = false)) (splitlines_from cur s).
Proof.
  induction s as [s IH] using (induction_ltof1 _ (@length Z)). unfold ltof in IH.
  intros cur Hs Hcur. destruct s as [|c s']; cbn [splitlines_from].
  - destruct cur; [constructor|]. constructor; [exact Hcur|constructor].
  - inversion Hs as [|? ? Hc Hs']; subst.
    destruct (is_linebreak c) eqn:E.
    + destruct s' as [|c2 s''].
      * constructor; [exact Hcur|]. apply IH; [simpl; lia|constructor|constructor].
      * inversion Hs'; subst.
        destruct ((c =? U.CR) && (c2 =? U.LF)); (constructor; [exact Hcur|]);
          apply IH; try (simpl; lia); try assumption; constructor.
    + apply IH; [simpl; lia|assumption|].
      apply Forall_app. split; [exact Hcur|]. now repeat constructor.
Qed.

(** [html_escape_keep_newlines] returns lines joined by the tag br: no line
    holds a character that could open or close markup or an attribute value
    (the angle brackets and both quotes), and none holds a line boundary. *)
Theorem html_text_has_only_br (s : str) :
  exists lines,
    html_escape_keep_newlines s = join (py "<br>") lines /\
    Forall (Forall (fun c => is_markup c = false /\ is_linebreak c = false)) lines.
Proof.
  exists (splitlines (html_escape s)). split; [reflexivity|].
  unfold splitlines. apply splitlines_from_chars; [apply html_escape_chars|constructor].
Qed.

(** ** Attachments *)

Lemma run_groups (G : nat -> str -> Prop) r : forall st A (k : mstate -> option A) x,
  groups_have G r ->
  Forall (fun p => G (fst p) (snd p)) (m_groups st) ->
  run r st k = Some x ->
  exists xs st', m_rest st = xs ++ m_rest st' /\
                 m_pos st' = (m_pos st + length xs)%nat /\
                 takes r xs (m_rest st') /\
                 Forall (fun p => G (fst p) (snd p)) (m_groups st') /\
                 k st' = Some x.
Proof.
  induction r as [| |c|c lo hi g|a IHa b IHb|a IHa b IHb|a IHa|i a IHa];
    intros st A k x HG Hg H.
  - apply run_takes in H as HT. cbn [run] in H.
    destruct (m_pos st) eqn:E; [|discriminate]. exists [], st.
    repeat split; auto; simpl; lia.
  - pose proof H as H0. cbn [run] in H.
    exists [], st. split; [reflexivity|]. split; [simpl; lia|].
    split; [split; [reflexivity|]|split; [exact Hg|]].
    + destruct (m_rest st) as [|y [|z t]]; try discriminate; [now left|].
      destruct (Z.eqb_spec y U.LF); [subst; now right|discriminate].
    + destruct (m_rest st) as [|y [|z t]]; try discriminate; [assumption|].
      destruct (y =? U.LF); [assumption|discriminate].
  - cbn [run] in H. destruct (m_rest st) as [|y t] eqn:E; [discriminate|].
    destruct (in_cls c y) eqn:Ey; [|discriminate].
    destruct (moved_suffix st [y] t E) as [Hr Hp].
    exists [y], (moved st t). rewrite Hr. repeat split; auto.
    exists y. now split.
  - cbn [run] in H. apply rep_takes in H as (xs & s' & Hs & Hxs & Hlo & Hhi & Hk).
    destruct (moved_suffix st xs s' Hs) as [Hr Hp].
    exists xs, (moved st s'). rewrite Hr. repeat split; auto.
  - cbn [run] in H. destruct HG as [HGa HGb].
    apply IHa in H as (ys & st1 & Hs1 & Hp1 & Ha & Hg1 & H); [|assumption..].
    apply IHb in H as (zs & st2 & Hs2 & Hp2 & Hb & Hg2 & H); [|assumption..].
    exists (ys ++ zs), st2. repeat split.
    + now rewrite Hs1, Hs2, app_assoc.
    + rewrite Hp2, Hp1, length_app. lia.
    + exists ys, zs. rewrite <- Hs2. now repeat split.
    + exact Hg2.
    + exact H.
  - cbn [run] in H. destruct HG as [HGa HGb].
    unfold or_else in H. destruct (run a st k) eqn:E.
    + inversion H; subst. apply IHa in E as (xs & st1 & ? & ? & ? & ? & ?); [|assumption..].
      exists xs, st1. repeat split; auto. now left.
    + apply IHb in H as (xs & st1 & ? & ? & ? & ? & ?); [|assumption..].
      exists xs, st1. repeat split; auto. now right.
  - cbn [run] in H. cbn [groups_have] in HG.
    unfold or_else in H. destruct (run a st k) eqn:E.
    + inversion H; subst. apply IHa in E as (xs & st1 & ? & ? & ? & ? & ?); [|assumption..].
      exists xs, st1. repeat split; auto. now left.
    + exists [], st. repeat split; auto; try (simpl; lia). now right.
  - cbn [run] in H. destruct HG as [HGa HGi].
    apply IHa in H as (xs & st1 & Hs & Hp & Ha & Hg1 & H); [|assumption..].
    exists xs, (set_group i st st1). repeat split; auto.
    unfold set_group. cbn [m_groups]. constructor; [|exact Hg1].
    cbn [fst snd]. rewrite Hp, Hs.
    replace (m_pos st + length xs - m_pos st)%nat with (length xs) by lia.
    rewrite take_app_length. eapply HGi, Ha.
Qed.

Lemma group_has (G : nat -> str -> Prop) m i t :
  Forall (fun p => G (fst p) (snd p)) (m_caps m) -> group m i = Some t -> G i t.
Proof.
  unfold group. induction 1 as [|[j u] gs Hj Hgs IH]; cbn [List.find fst]; intros H.
  - discriminate.
  - destruct (Nat.eqb_spec j i) as [->|Hne]; [|now apply IH].
    simpl in H. inversion H; subst. exact Hj.
Qed.

Lemma match_group_has (G : nat -> str -> Prop) r pos s m i t :
  groups_have G r -> match_at r pos s = Some m -> group m i = Some t -> G i t.
Proof.
  unfold match_at. intros HG H Ht.
  apply (run_groups G) in H as (xs & st' & _ & _ & _ & Hg & H);
    [|assumption|constructor].
  inversion H; subst. eapply group_has; [|exact Ht]. exact Hg.
Qed.

Lemma finditer_in r m s : forall pos skip,
  In m (finditer_from r pos skip s) -> exists pos' s', match_at r pos' s' = Some m.
Proof.
  induction s as [|c s IH]; intros pos skip H; cbn [finditer_from] in H; [destruct H|].
  destruct skip as [|n]; [|now apply IH in H].
  destruct (match_at r pos (c :: s)) as [m'|] eqn:E; [|now apply IH in H].
  destruct H as [->|H]; [eauto|now apply IH in H].
Qed.

Lemma attach_groups :
  groups_have (fun _ xs => Forall (fun c => c <> 62) xs) _attach_re.
Proof.
  unfold _attach_re. cbn [cat groups_have lit star plus_lazy]. conjuncts; try exact I.
  intros xs rest [H _]. eapply Forall_impl; [exact H|].
  intros c Hc. cbn in Hc. destruct (Z.eqb_spec c 62); [discriminate|assumption].
Qed.

(** Every name [find_attachments] returns is free of the character that
    closes a marker and neither starts nor ends with white space. *)
Theorem find_attachments_names (text name : str) :
  In name (find_attachments text) ->
  Forall (fun c => c <> 62) name /\ no_ends isspace name.
Proof.
  unfold find_attachments. intros H. apply in_map_iff in H as (m & <- & Hm).
  split; [|apply (strip_chars_ends isspace)].
  apply (strip_chars_Forall _ isspace).
  destruct (group m 1) as [t|] eqn:E; [|constructor].
  apply finditer_in in Hm as (pos & s & Hm).
  exact (match_group_has _ _ _ _ _ _ _ attach_groups Hm E).
Qed.

Lemma find_attachments_names_witness :
  In (py "IMG 1.jpg") (find_attachments (py "Foto <anhang:  IMG 1.jpg > hier")) /\
  Forall (fun c => c <> 62) (py "IMG 1.jpg") /\ no_ends isspace (py "IMG 1.jpg").
Proof.
  assert (H : In (py "IMG 1.jpg")
                 (find_attachments (py "Foto <anhang:  IMG 1.jpg > hier"))).
  { vm_compute. now left. }
  split; [exact H|].
  exact (find_attachments_names (py "Foto <anhang:  IMG 1.jpg > hier") (py "IMG 1.jpg") H).
Defined.

Lemma attach_needs_lt pos c s : c <> 60 -> match_at _attach_re pos (c :: s) = None.
Proof.
  intros H. unfold match_at, _attach_re, lit. cbn [cat run m_rest].
  change (chr "<") with (CAtom (AChr 60)). cbn [in_cls in_atom].
  destruct (Z.eqb_spec c 60); [contradiction|reflexivity].
Qed.

Lemma finditer_pass r pre : forall pos s,
  Forall (fun c => forall p t, match_at r p (c :: t) = None) pre ->
  finditer_from r pos 0 (pre ++ s) = finditer_from r (pos + length pre) 0 s.
Proof.
  induction pre as [|c pre IH]; intros pos s H; simpl.
  - now rewrite Nat.add_0_r.
  - inversion H as [|? ? Hc Hpre]; subst. rewrite Hc, IH by assumption.
    f_equal. lia.
Qed.

Lemma finditer_skip r xs : forall pos s,
  finditer_from r pos (length xs) (xs ++ s) = finditer_from r (pos + length xs) 0 s.
Proof.
  induction xs as [|c xs IH]; intros pos s; simpl.
  - now rewrite Nat.add_0_r.
  - rewrite IH. f_equal. lia.
Qed.

Lemma sub_pass r repl pre : forall pos s,
  Forall (fun c => forall p t, match_at r p (c :: t) = None) pre ->
  sub_from r repl pos 0 (pre ++ s) = pre ++ sub_from r repl (pos + length pre) 0 s.
Proof.
  induction pre as [|c pre IH]; intros pos s H; simpl.
  - now rewrite Nat.add_0_r.
  - inversion H as [|? ? Hc Hpre]; subst. rewrite Hc, IH by assumption.
    replace (pos + S (length pre))%nat with (S pos + length pre)%nat by lia.
    reflexivity.
Qed.

Lemma sub_skip r repl xs : forall pos s,
  sub_from r repl pos (length xs) (xs ++ s) = sub_from r repl (pos + length xs) 0 s.
Proof.
  induction xs as [|c xs IH]; intros pos s; simpl.
  - now rewrite Nat.add_0_r.
  - rewrite IH. f_equal. lia.
Qed.

Lemma no_lt_no_match s :
  Forall (fun c => c <> 60) s ->
  Forall (fun c => forall p t, match_at _attach_re p (c :: t) = None) s.
Proof.
  intros H. eapply Forall_impl; [exact H|]. intros c Hc p t. now apply attach_needs_lt.
Qed.

(** A text without the character that opens a marker has no attachments, and
    [strip_attachment_markers] only strips it. *)
Theorem no_marker_no_attachment (text : str) :
  Forall (fun c => c <> 60) text ->
  find_attachments text = [] /\ strip_attachment_markers text = strip text.
Proof.
  intros H. apply no_lt_no_match in H.
  unfold find_attachments, strip_attachment_markers, finditer, re_sub.
  rewrite <- (app_nil_r text).
  rewrite finditer_pass, sub_pass by assumption. split; reflexivity.
Qed.

Lemma no_marker_no_attachment_witness :
  find_attachments (py " Hey > du ") = [] /\
  strip_attachment_markers (py " Hey > du ") = py "Hey > du".
Proof.
  apply (no_marker_no_attachment (py " Hey > du ")).
  repeat constructor; discriminate.
Defined.

Lemma eats_match_at r pre xs s g :
  eats r pre xs s [] g ->
  match_at r (length pre) (xs ++ s) = Some (RMatch (length xs) g).
Proof.
  intros H. unfold match_at. apply (H _ _ _). unfold at_. cbn [m_pos m_groups].
  rewrite length_app. do 2 f_equal. lia.
Qed.

Lemma eats_attach pre name post :
  name <> [] -> Forall (fun c => c <> 62 /\ isspace c = false) name ->
  eats _attach_re pre (attachment_marker name) post [] [(1%nat, name)].
Proof.
  intros Hne Hname. unfold _attach_re, attachment_marker. cbn [cat].
  assert (Hhead : stops space (name ++ py ">" ++ post)).
  { destruct name as [|c t]; [congruence|]. inversion Hname; subst. simpl. tauto. }
  change (py "<Anhang: " ++ name ++ py ">")
    with ([60] ++ [] ++ [65] ++ [110] ++ [104] ++ [97] ++ [110] ++ [103] ++ [58]
            ++ [32] ++ name ++ py ">").
  repeat rewrite <- app_assoc.
  change (?a ++ ?b ++ post) with (a ++ b ++ post).
  replace (([60] ++ [] ++ [65] ++ [110] ++ [104] ++ [97] ++ [110] ++ [103] ++ [58]
             ++ [32] ++ name ++ py ">"))
    with ([60] ++ ([] ++ ([65] ++ ([110] ++ ([104] ++ ([97] ++ ([110] ++ ([103] ++
            ([58] ++ ([32] ++ (name ++ py ">"))))))))))) by reflexivity.
  eapply eats_seq; [now apply eats_one|].
  eapply eats_seq; [apply eats_greedy; [constructor|simpl; lia|exact I|now left]|].
  eapply eats_seq; [now apply eats_one|].
  eapply eats_seq; [now apply eats_one|].
  eapply eats_seq; [now apply eats_one|].
  eapply eats_seq; [now apply eats_one|].
  eapply eats_seq; [now apply eats_one|].
  eapply eats_seq; [now apply eats_one|].
  eapply eats_seq; [now apply eats_one|].
  eapply eats_seq.
  { apply eats_greedy; [repeat constructor|simpl; lia|exact I|left].
    rewrite <- app_assoc. exact Hhead. }
  unfold plus_lazy. apply eats_lazy_then.
  - eapply Forall_impl; [exact Hname|]. intros c [Hc _]. cbn.
    destruct (Z.eqb_spec c 62); [contradiction|reflexivity].
  - destruct name; [congruence|simpl; lia].
  - intros y t p h A k Hy. rewrite Forall_forall in Hname.
    destruct (Hname y Hy) as [H62 Hsp].
    cbn [run star m_rest rep]. cbn [in_cls space in_atom]. rewrite Hsp.
    cbn. change (Z.of_nat (nat_of_ascii ">")) with 62.
    destruct (Z.eqb_spec y 62); [contradiction|reflexivity].
  - change (py ">") with ([] ++ [62]).
    eapply eats_seq; [apply eats_greedy; [constructor|simpl; lia|exact I|now left]|].
    now apply eats_one.
Qed.

(** A text with one marker, written as the exports write it, around a name
    without white space: [find_attachments] returns the name, and
    [strip_attachment_markers] removes the marker and nothing else but the
    white space at the two ends. *)
Theorem attachment_marker_found (pre name post : str) :
  Forall (fun c => c <> 60) pre -> Forall (fun c => c <> 60) post ->
  name <> [] -> Forall (fun c => c <> 62 /\ isspace c = false) name ->
  find_attachments (pre ++ attachment_marker name ++ post) = [name] /\
  strip_attachment_markers (pre ++ attachment_marker name ++ post) = strip (pre ++ post).
Proof.
  intros Hpre Hpost Hne Hname.
  apply no_lt_no_match in Hpre. apply no_lt_no_match in Hpost.
  pose proof (eats_match_at _ _ _ _ _ (eats_attach pre name post Hne Hname)) as Hm.
  assert (Hstrip : strip name = name).
  { apply (strip_chars_id isspace). split.
    - intros c t ->. inversion Hname; subst. tauto.
    - intros v c ->. apply Forall_app in Hname as [_ H]. inversion H; subst. tauto. }
  unfold find_attachments, strip_attachment_markers, finditer, re_sub.
  rewrite finditer_pass, sub_pass by assumption.
  remember (attachment_marker name) as mk eqn:Emk.
  assert (Hmk : exists tl, mk = 60 :: tl) by (subst mk; eexists; reflexivity).
  destruct Hmk as [tl Htl]. rewrite Htl in *. cbn [app finditer_from sub_from].
  cbn [app] in Hm. cbn [Nat.add] in *. rewrite Hm. cbn [m_len length Nat.pred].
  rewrite finditer_skip, sub_skip.
  rewrite <- (app_nil_r post).
  rewrite finditer_pass, sub_pass by assumption.
  cbn [finditer_from sub_from List.map group m_caps List.find fst Nat.eqb fmap
       option_fmap option_map snd default app].
  rewrite !app_nil_r. split; [|reflexivity].
  unfold id. now rewrite Hstrip.
Qed.

Lemma attachment_marker_found_witness :
  find_attachments (py "Schau mal <Anhang: IMG-0001.jpg> hier") = [py "IMG-0001.jpg"] /\
  strip_attachment_markers (py "Schau mal <Anhang: IMG-0001.jpg> hier")
  = py "Schau mal  hier".
Proof.
  apply (attachment_marker_found (py "Schau mal ") (py "IMG-0001.jpg") (py " hier")).
  - repeat constructor; discriminate.
  - repeat constructor; discriminate.
  - discriminate.
  - repeat constructor; discriminate.
Defined.

(** ** The audit script *)

Lemma filter_all_out {A} (p : A -> bool) l :
  Forall (fun c => p c = true) l -> List.filter (fun c => negb (p c)) l = [].
Proof.
  induction 1 as [|c l Hc Hl IH]; simpl; [reflexivity|]. now rewrite Hc.
Qed.

(** Stripping removes nothing but the characters to strip. *)
Lemma strip_chars_filter p s :
  List.filter (fun c => negb (p c)) (strip_chars p s) = List.filter (fun c => negb (p c)) s.
Proof.
  unfold strip_chars, lstrip.
  destruct (rstrip_spec p (drop_while p s)) as [(suffix & Hs & Hsuf) _].
  destruct (drop_while_split p s) as (pre & Hpre & Hp).
  rewrite Hpre at 2. rewrite Hs at 2. rewrite !List.filter_app.
  rewrite (filter_all_out p pre Hp), (filter_all_out p suffix Hsuf).
  now rewrite app_nil_r.
Qed.

Section ScrubFacts.

Variable isalpha : Z -> bool.
Variable lower : str -> str.
Hypothesis underscore_no_letter : isalpha 95 = false.

Lemma scrub_loop_spec comp : forall out lu,
  exists tail, scrub_loop isalpha out lu comp = out ++ tail /\
               Forall (fun c => isalpha c = false) tail /\
               List.filter (fun c => negb (is_underscore c)) tail = kept isalpha comp.
Proof using underscore_no_letter.
  induction comp as [|ch comp IH]; intros out lu; cbn [scrub_loop].
  - exists []. rewrite app_nil_r. repeat split. constructor.
  - unfold kept. cbn [List.filter]. destruct (isalpha ch) eqn:E; cbn [negb andb].
    + destruct lu.
      * exact (IH out true).
      * destruct (IH (out ++ [95]) true) as (tail & H1 & H2 & H3).
        exists (95 :: tail). rewrite H1, <- app_assoc. repeat split.
        -- now constructor.
        -- exact H3.
    + destruct (IH (out ++ [ch]) false) as (tail & H1 & H2 & H3).
      exists (ch :: tail). rewrite H1, <- app_assoc. repeat split.
      * now constructor.
      * cbn [List.filter]. now rewrite H3.
Qed.

Lemma scrub_loop_chars (Q : Z -> Prop) comp : forall out lu,
  Q 95 -> Forall Q out -> Forall Q comp -> Forall Q (scrub_loop isalpha out lu comp).
Proof.
  induction comp as [|ch comp IH]; intros out lu Hu Hout Hcomp; cbn [scrub_loop];
    [exact Hout|].
  inversion Hcomp; subst.
  destruct (isalpha ch); [destruct lu|]; apply IH; try assumption;
    apply Forall_app; split; try assumption; now repeat constructor.
Qed.

Lemma scrub_loop_plain s : forall out lu,
  Forall (fun c => isalpha c = false) s -> scrub_loop isalpha out lu s = out ++ s.
Proof.
  induction s as [|c s IH]; intros out lu H; cbn [scrub_loop].
  - now rewrite app_nil_r.
  - inversion H as [|? ? Hc Hs]; subst. rewrite Hc, IH by assumption.
    now rewrite <- app_assoc.
Qed.

Lemma scrub_loop_map f comp : forall out lu,
  (forall c, isalpha (f c) = isalpha c) ->
  (forall c, isalpha c = false -> f c = c) ->
  scrub_loop isalpha out lu (List.map f comp) = scrub_loop isalpha out lu comp.
Proof.
  intros out lu Hsame Hfix. revert out lu.
  induction comp as [|ch comp IH]; intros out lu; cbn [List.map scrub_loop];
    [reflexivity|].
  rewrite Hsame. destruct (isalpha ch) eqn:E; [destruct lu; apply IH|].
  rewrite (Hfix ch E). apply IH.
Qed.

Lemma scrub_trimmed_plain comp :
  Forall (fun c => isalpha c = false)
         (strip_chars is_underscore (scrub_loop isalpha [] false comp)).
Proof using underscore_no_letter.
  apply strip_chars_Forall.
  destruct (scrub_loop_spec comp [] false) as (tail & -> & H & _). exact H.
Qed.

(** [scrub_component] returns a component that is not empty and holds no
    letter; it is a single underscore or neither starts nor ends with one. *)
Theorem scrub_component_no_letters (comp : str) :
  scrub_component isalpha comp <> [] /\
  Forall (fun c => isalpha c = false) (scrub_component isalpha comp) /\
  (scrub_component isalpha comp = [95] \/
   no_ends is_underscore (scrub_component isalpha comp)).
Proof using underscore_no_letter.
  unfold scrub_component.
  pose proof (strip_chars_ends is_underscore (scrub_loop isalpha [] false comp)) as He.
  pose proof (scrub_trimmed_plain comp) as Hc.
  destruct (strip_chars is_underscore (scrub_loop isalpha [] false comp)) as [|c t].
  - split; [discriminate|]. split; [now repeat constructor|now left].
  - split; [discriminate|]. split; [exact Hc|now right].
Qed.

(** [scrub_component] keeps the characters that are neither letters nor
    underscores, all of them and in their order; everything else it returns
    is underscores. *)
Theorem scrub_component_keeps (comp : str) :
  List.filter (fun c => negb (is_underscore c)) (scrub_component isalpha comp)
  = kept isalpha comp.
Proof using underscore_no_letter.
  assert (H : List.filter (fun c => negb (is_underscore c))
                (strip_chars is_underscore (scrub_loop isalpha [] false comp))
              = kept isalpha comp).
  { rewrite strip_chars_filter.
    destruct (scrub_loop_spec comp [] false) as (tail & -> & _ & H). exact H. }
  unfold scrub_component.
  destruct (strip_chars is_underscore (scrub_loop isalpha [] false comp)) as [|c t];
    [|exact H].
  rewrite <- H. reflexivity.
Qed.

(** [scrub_component] hides the letters: two components that differ in their
    letters only are scrubbed to the same text. *)
Theorem scrub_component_hides (f : Z -> Z) (comp : str) :
  (forall c, isalpha (f c) = isalpha c) ->
  (forall c, isalpha c = false -> f c = c) ->
  scrub_component isalpha (List.map f comp) = scrub_component isalpha comp.
Proof.
  intros Hsame Hfix. unfold scrub_component. now rewrite scrub_loop_map.
Qed.

(** Scrubbing a scrubbed component changes nothing. *)
Theorem scrub_component_idempotent (comp : str) :
  scrub_component isalpha (scrub_component isalpha comp) = scrub_component isalpha comp.
Proof using underscore_no_letter.
  unfold scrub_component at 2 3.
  pose proof (strip_chars_ends is_underscore (scrub_loop isalpha [] false comp)) as He.
  pose proof (scrub_trimmed_plain comp) as Hc.
  destruct (strip_chars is_underscore (scrub_loop isalpha [] false comp)) as [|c t].
  - unfold scrub_component. cbn [scrub_loop]. rewrite underscore_no_letter.
    reflexivity.
  - unfold scrub_component. rewrite scrub_loop_plain by exact Hc.
    cbn [app]. now rewrite (strip_chars_id _ _ He).
Qed.

Lemma split_on_from_free sep s : forall cur,
  Forall (fun c => c <> sep) cur ->
  Forall (Forall (fun c => c <> sep)) (split_on_from sep cur s).
Proof.
  induction s as [|c s IH]; intros cur Hcur; cbn [split_on_from].
  - now repeat constructor.
  - destruct (Z.eqb_spec c sep).
    + constructor; [exact Hcur|]. apply IH. constructor.
    + apply IH. apply Forall_app. split; [exact Hcur|now repeat constructor].
Qed.

Lemma scrub_component_chars (Q : Z -> Prop) comp :
  Q 95 -> Forall Q comp -> Forall Q (scrub_component isalpha comp).
Proof.
  intros Hu Hcomp. unfold scrub_component.
  assert (H : Forall Q (strip_chars is_underscore (scrub_loop isalpha [] false comp))).
  { apply strip_chars_Forall, scrub_loop_chars; [assumption|constructor|assumption]. }
  destruct (strip_chars is_underscore (scrub_loop isalpha [] false comp));
    [now repeat constructor|exact H].
Qed.

Lemma sanitize_loop_all (R : str -> Prop) parts : forall idx out,
  (forall d, d ∈ known_dirs -> R d) ->
  Forall (fun comp => R (scrub_component isalpha comp)) parts ->
  Forall R out -> Forall R (sanitize_loop isalpha lower idx out parts).
Proof.
  induction parts as [|comp parts IH]; intros idx out Hk Hparts Hout;
    cbn [sanitize_loop]; [exact Hout|].
  inversion Hparts; subst.
  destruct (Nat.eqb idx 0 && is_chat_root (lower comp)); [now apply IH|].
  destruct (bool_decide_reflect (lower comp ∈ known_dirs)) as [Hin|Hin];
    apply IH; try assumption; apply Forall_app; split; try assumption;
    repeat constructor; auto.
Qed.

(** [sanitize] returns components joined by slashes, each of them one of the
    directory names it keeps or a text, not empty, without letters and
    without a slash: no name of a chat, a contact or a file survives. *)
Theorem sanitize_components (rel : str) :
  exists comps,
    sanitize isalpha lower rel = join [47] comps /\
    Forall (fun c => c ∈ known_dirs \/
                     (c <> [] /\ Forall (fun x => isalpha x = false /\ x <> 47) c))
           comps.
Proof using underscore_no_letter.
  eexists. split; [reflexivity|].
  apply sanitize_loop_all; [now left| |constructor].
  apply Forall_forall. intros comp Hcomp. right.
  apply list_elem_of_In, filter_In in Hcomp as [Hcomp _].
  assert (Hfree : Forall (fun c => c <> 47) comp).
  { pose proof (split_on_from_free 47
      (strip_chars is_slash (replace_by 92 [47] rel)) [] ltac:(constructor)) as H.
    rewrite Forall_forall in H. apply H. now apply list_elem_of_In. }
  pose proof (scrub_component_chars (fun c => c <> 47) comp ltac:(discriminate) Hfree) as H47.
  assert (Hc : scrub_component isalpha comp <> [] /\
               Forall (fun c => isalpha c = false) (scrub_component isalpha comp)).
  { unfold scrub_component. pose proof (scrub_trimmed_plain comp) as Hc.
    destruct (strip_chars is_underscore (scrub_loop isalpha [] false comp));
      (split; [discriminate|]); [now repeat constructor|exact Hc]. }
  destruct Hc as [Hne Hc]. split; [exact Hne|].
  rewrite Forall_forall in *. intros x Hx. split; [now apply Hc|now apply H47].
Qed.

End ScrubFacts.

Lemma scrub_component_no_letters_witness :
  scrub_component ascii_isalpha (py "IMG-2019_a.jpg") = py "-2019__." /\
  Forall (fun c => ascii_isalpha c = false) (scrub_component ascii_isalpha (py "IMG-2019_a.jpg")).
Proof.
  split; [reflexivity|].
  exact (proj1 (proj2 (scrub_component_no_letters ascii_isalpha eq_refl (py "IMG-2019_a.jpg")))).
Defined.

Lemma scrub_component_keeps_witness :
  List.filter (fun c => negb (is_underscore c))
    (scrub_component ascii_isalpha (py "IMG-2019_a.jpg")) = py "-2019.".
Proof. exact (scrub_component_keeps ascii_isalpha eq_refl (py "IMG-2019_a.jpg")). Defined.

Lemma scrub_component_hides_witness :
  scrub_component ascii_isalpha (py "Bob-2019.jpg")
  = scrub_component ascii_isalpha (py "bob-2019.jpg").
Proof.
  apply (scrub_component_hides ascii_isalpha
           (fun c => if (65 <=? c) && (c <=? 90) then c + 32 else c) (py "Bob-2019.jpg")).
  - intros c. destruct ((65 <=? c) && (c <=? 90)) eqn:E; [|reflexivity].
    unfold ascii_isalpha. rewrite E. apply andb_true_iff in E as [H1 H2].
    apply Z.leb_le in H1, H2. cbn [orb]. apply orb_true_iff. right.
    apply andb_true_iff. split; apply Z.leb_le; lia.
  - intros c H. unfold ascii_isalpha in H. apply orb_false_iff in H as [H _].
    now rewrite H.
Defined.

Lemma scrub_component_idempotent_witness :
  scrub_component ascii_isalpha (scrub_component ascii_isalpha (py "a1b_2c"))
  = scrub_component ascii_isalpha (py "a1b_2c").
Proof. exact (scrub_component_idempotent ascii_isalpha eq_refl (py "a1b_2c")). Defined.

Lemma sanitize_components_witness :
  exists comps,
    sanitize ascii_isalpha ascii_lower (py "WhatsApp Chat - Bob/Images/IMG-2019_a.jpg")
    = join [47] comps /\
    Forall (fun c => c ∈ known_dirs \/
                     (c <> [] /\ Forall (fun x => ascii_isalpha x = false /\ x <> 47) c))
           comps.
Proof.
  exact (sanitize_components ascii_isalpha ascii_lower eq_refl
           (py "WhatsApp Chat - Bob/Images/IMG-2019_a.jpg")).
Defined.

(** ** The shape of a normalised text *)

(** [_norm_space] returns runs of characters joined by single spaces: every
    run is not empty and holds neither white space (a non-breaking space is
    white space) nor a direction mark, so the text neither starts nor ends
    with a space and has no two spaces in a row. *)
Theorem norm_space_shape (s : str) :
  exists ts, _norm_space s = join [U.SPACE] ts /\
             Forall (token (fun c => c ∉ direction_marks)) ts.
Proof.
  eexists. split; [reflexivity|].
  apply split_ws_from_tokens; [constructor|]. apply remove_chars_gone.
Qed.

(** ** The characters of a URL *)

Lemma takes_chars (P : Z -> Prop) r : forall xs rest,
  classes_have P r -> takes r xs rest -> Forall P xs.
Proof.
  induction r as [| |c|c lo hi g|a IHa b IHb|a IHa b IHb|a IHa|i a IHa];
    intros xs rest HP H; cbn [takes classes_have] in *.
  - subst. constructor.
  - destruct H as [-> _]. constructor.
  - destruct H as (y & -> & Hy). repeat constructor. now apply HP.
  - destruct H as (H & _). eapply Forall_impl; [exact H|]. exact HP.
  - destruct H as (ys & zs & -> & Ha & Hb). destruct HP as [HPa HPb].
    apply Forall_app. split; [eapply IHa|eapply IHb]; eassumption.
  - destruct HP as [HPa HPb]. destruct H as [H|H]; [eapply IHa|eapply IHb]; eassumption.
  - destruct H as [H| ->]; [eapply IHa; eassumption|constructor].
  - eapply IHa; eassumption.
Qed.

Ltac class_chars :=
  let y := fresh "y" in
  let Hy := fresh "Hy" in
  intros y Hy;
  match type of Hy with
  | in_cls ?C y = true =>
      let C' := eval vm_compute in C in change C with C' in Hy
  end;
  cbn [in_cls in_atom existsb] in Hy;
  repeat (apply orb_true_iff in Hy as [Hy|Hy]);
  try discriminate;
  apply Z.eqb_eq in Hy; subst y; unfold is_url_char; conjuncts;
  (reflexivity || discriminate).

Lemma url_classes :
  classes_have is_url_char
    (cat [ One (ci "h"); One (ci "t"); One (ci "t"); One (ci "p");
           Rep (ci "s") 0 (Some 1%nat) true;
           lit ":"; lit "/"; lit "/";
           plus (CNot [ASpace; AChr 60; AChr 62; AChr 93]) ]).
Proof.
  cbn [cat classes_have lit plus]. conjuncts; try class_chars.
  intros y Hy. cbn [in_cls in_atom existsb] in Hy.
  apply negb_true_iff in Hy.
  apply orb_false_iff in Hy as [H1 Hy]. apply orb_false_iff in Hy as [H2 Hy].
  apply orb_false_iff in Hy as [H3 Hy]. apply orb_false_iff in Hy as [H4 _].
  unfold is_url_char. conjuncts; [exact H1|now apply Z.eqb_neq..].
Qed.

Lemma extract_urls_found text u : u ∈ extract_urls text -> u ∈ found_urls text.
Proof.
  unfold extract_urls. rewrite (unique_from_first_seen _ ∅ []).
  - cbn [app]. intros H. apply list_elem_of_In, filter_In in H as [H _].
    apply list_elem_of_In in H. now apply first_seen_elem.
  - intros v. split; intros H; [now apply not_elem_of_empty in H|inversion H].
Qed.

(** No URL of [extract_urls] holds white space, an angle bracket or a closing
    square bracket. *)
Theorem extract_urls_chars (text u : str) :
  u ∈ extract_urls text -> Forall is_url_char u.
Proof.
  intros H. apply extract_urls_found in H. unfold found_urls in H.
  apply list_elem_of_In, in_map_iff in H as (m & <- & Hm).
  apply list_elem_of_In in Hm.
  destruct (finditer_from_match _ _ _ _ _ Hm) as (before & s & pos & _ & Hmatch).
  destruct (match_at_group _ _ _ _ _ Hmatch) as (token & after & _ & -> & Htakes).
  cbn [default]. apply rstrip_Forall.
  exact (takes_chars _ _ _ _ url_classes Htakes).
Qed.

Lemma extract_urls_chars_witness :
  py "https://c.d/y" ∈ extract_urls (py "see (https://c.d/y), <HTTP://a.b/x>") /\
  Forall is_url_char (py "https://c.d/y").
Proof.
  assert (H : py "https://c.d/y" ∈ extract_urls (py "see (https://c.d/y), <HTTP://a.b/x>")).
  { apply list_elem_of_In. vm_compute. left. reflexivity. }
  split; [exact H|].
  exact (extract_urls_chars (py "see (https://c.d/y), <HTTP://a.b/x>") (py "https://c.d/y") H).
Defined.

(** ** The perspective of the export *)

Lemma uniq_authors_sound (R : str -> Prop) authors : forall uniq,
  (forall a, a ∈ authors -> _norm_space a <> [] -> R (_norm_space a)) ->
  Forall R uniq -> Forall R (uniq_authors uniq authors).
Proof.
  induction authors as [|a authors IH]; intros uniq HR Huniq; cbn [uniq_authors];
    [exact Huniq|].
  assert (HR' : forall b, b ∈ authors -> _norm_space b <> [] -> R (_norm_space b)).
  { intros b Hb. apply HR. now right. }
  pose proof (HR a ltac:(now left)) as Ha.
  destruct (_norm_space a) as [|c t] eqn:E; [now apply IH|].
  destruct (bool_decide (c :: t ∈ uniq)); apply IH; try assumption.
  apply Forall_app. split; [exact Huniq|]. repeat constructor. now apply Ha.
Qed.

Lemma uniq_authors_keeps authors : forall uniq r,
  r ∈ uniq -> r ∈ uniq_authors uniq authors.
Proof.
  induction authors as [|a authors IH]; intros uniq r Hr; cbn [uniq_authors];
    [exact Hr|].
  destruct (_norm_space a) as [|c t]; [now apply IH|].
  destruct (bool_decide (c :: t ∈ uniq)); apply IH; [exact Hr|].
  apply elem_of_app. now left.
Qed.

Lemma uniq_authors_complete authors : forall uniq a,
  a ∈ authors -> _norm_space a <> [] -> _norm_space a ∈ uniq_authors uniq authors.
Proof.
  induction authors as [|b authors IH]; intros uniq a Ha Hne; [inversion Ha|].
  cbn [uniq_authors]. apply elem_of_cons in Ha as [->|Ha].
  - destruct (_norm_space b) as [|c t] eqn:E; [congruence|].
    destruct (bool_decide_reflect (c :: t ∈ uniq)) as [Hin|Hin].
    + now apply uniq_authors_keeps.
    + apply uniq_authors_keeps. apply elem_of_app. right. now left.
  - destruct (_norm_space b) as [|c t]; [now apply IH|].
    destruct (bool_decide (c :: t ∈ uniq)); now apply IH.
Qed.

Lemma idx_map_from_values uniq : forall i (m : gmap str str) k v,
  idx_map_from i uniq m !! k = Some v -> v ∈ uniq \/ m !! k = Some v.
Proof.
  induction uniq as [|name uniq IH]; intros i m k v H; cbn [idx_map_from] in H;
    [now right|].
  apply IH in H as [H|H]; [left; now right|].
  apply lookup_insert_Some in H as [[_ <-]|[_ H]]; [left; now left|now right].
Qed.

Section PerspectiveFacts.

Variable casefold : str -> str.

Lemma name_map_values uniq k v :
  name_map casefold uniq !! k = Some v -> v ∈ uniq.
Proof.
  unfold name_map.
  assert (H : forall (m : gmap str str),
            fold_left (fun m name => <[casefold name := name]> m) uniq m !! k = Some v ->
            v ∈ uniq \/ m !! k = Some v).
  { induction uniq as [|name uniq IH]; intros m H; cbn [fold_left] in H; [now right|].
    apply IH in H as [H|H]; [left; now right|].
    apply lookup_insert_Some in H as [[_ <-]|[_ H]]; [left; now left|now right]. }
  intros Hk. apply H in Hk as [Hk|Hk]; [exact Hk|].
  rewrite lookup_empty in Hk. discriminate.
Qed.

Lemma ask_values (l : list str) (first : str) (idx names : gmap str str)
    (inputs : list str) :
  first ∈ l ->
  (forall k v, idx !! k = Some v -> v ∈ l) ->
  (forall k v, names !! k = Some v -> v ∈ l) ->
  ask casefold first idx names inputs ∈ l.
Proof.
  intros Hf Hi Hn. induction inputs as [|line inputs IH]; cbn [ask]; [exact Hf|].
  destruct (_norm_space line) as [|c t]; [exact Hf|].
  destruct (idx !! rstrip is_number_end (c :: t)) as [name|] eqn:E1; [eapply Hi, E1|].
  destruct (names !! casefold (c :: t)) as [name|] eqn:E2; [eapply Hn, E2|exact IH].
Qed.

Lemma candidates_sub authors r :
  r ∈ candidates casefold authors -> r ∈ uniq_authors [] authors.
Proof.
  unfold candidates.
  destruct (List.filter _ (uniq_authors [] authors)) as [|x l] eqn:E; [auto|].
  intros H. rewrite <- E in H. apply list_elem_of_In, filter_In in H as [H _].
  now apply list_elem_of_In.
Qed.

Lemma candidates_real authors r0 :
  r0 ∈ uniq_authors [] authors -> is_system_marker casefold r0 = false ->
  forall r, r ∈ candidates casefold authors -> is_system_marker casefold r = false.
Proof.
  intros H0 Hreal r. unfold candidates.
  destruct (List.filter _ (uniq_authors [] authors)) as [|x l] eqn:E.
  - assert (Hin : In r0 (List.filter (fun a => negb (is_system_marker casefold a))
                           (uniq_authors [] authors))).
    { apply filter_In. split; [now apply list_elem_of_In|now rewrite Hreal]. }
    rewrite E in Hin. destruct Hin.
  - intros H. rewrite <- E in H. apply list_elem_of_In, filter_In in H as [_ H].
    now apply negb_true_iff in H.
Qed.

Lemma choose_in_candidates interactive inputs authors :
  candidates casefold authors <> [] ->
  choose_me_name casefold interactive inputs authors ∈ candidates casefold authors.
Proof.
  intros Hne. unfold choose_me_name.
  destruct (candidates casefold authors) as [|first rest]; [congruence|].
  destruct interactive; [|now left].
  apply ask_values; [now left| |apply name_map_values].
  intros k v H. apply idx_map_from_values in H as [H|H]; [exact H|].
  rewrite lookup_empty in H. discriminate.
Qed.

Lemma candidates_nil authors :
  candidates casefold authors = [] -> uniq_authors [] authors = [].
Proof.
  unfold candidates.
  destruct (List.filter _ (uniq_authors [] authors)); [auto|discriminate].
Qed.

(** [choose_me_name] returns the normalised name of one of the authors, and
    that name is not empty; it returns Ich when there is none, that is, when
    every author's name is empty once normalised.  This holds with a terminal
    or without, whatever is typed. *)
Theorem choose_me_name_author (interactive : bool) (inputs authors : list str) :
  (choose_me_name casefold interactive inputs authors = py "Ich" /\
   forall a, a ∈ authors -> _norm_space a = []) \/
  (choose_me_name casefold interactive inputs authors <> [] /\
   exists a, a ∈ authors /\
             choose_me_name casefold interactive inputs authors = _norm_space a).
Proof.
  destruct (candidates casefold authors) as [|first rest] eqn:E.
  - left. split; [unfold choose_me_name; now rewrite E|].
    intros a Ha. apply candidates_nil in E.
    destruct (_norm_space a) as [|c t] eqn:Ea; [reflexivity|].
    pose proof (uniq_authors_complete authors [] a Ha) as H.
    rewrite Ea, E in H. specialize (H ltac:(discriminate)). inversion H.
  - right.
    pose proof (choose_in_candidates interactive inputs authors) as H.
    rewrite E in H. specialize (H ltac:(discriminate)). rewrite <- E in H.
    apply candidates_sub in H.
    pose proof (uniq_authors_sound
      (fun r => r <> [] /\ exists a, a ∈ authors /\ r = _norm_space a) authors []) as Hs.
    assert (Hall : Forall (fun r => r <> [] /\ exists a, a ∈ authors /\ r = _norm_space a)
                     (uniq_authors [] authors)).
    { apply Hs; [|constructor]. intros a Ha Hne. split; [exact Hne|]. exists a. now split. }
    rewrite Forall_forall in Hall. now apply Hall.
Qed.

(** When one author at least is no system pseudo-author, [choose_me_name]
    returns none of the pseudo-authors, whatever is typed. *)
Theorem choose_me_name_real (interactive : bool) (inputs authors : list str) (a : str) :
  a ∈ authors -> _norm_space a <> [] ->
  casefold (_norm_space a) ∉ system_markers ->
  casefold (choose_me_name casefold interactive inputs authors) ∉ system_markers.
Proof.
  intros Ha Hne Hreal.
  pose proof (uniq_authors_complete authors [] a Ha Hne) as Hu.
  assert (Hr0 : is_system_marker casefold (_norm_space a) = false).
  { unfold is_system_marker. rewrite norm_space_fixed.
    now apply bool_decide_eq_false_2. }
  assert (Hc : candidates casefold authors <> []).
  { intros E. apply candidates_nil in E. rewrite E in Hu. inversion Hu. }
  pose proof (choose_in_candidates interactive inputs authors Hc) as Hin.
  pose proof (candidates_real authors _ Hu Hr0 _ Hin) as Hm.
  apply candidates_sub in Hin.
  assert (Hall : Forall (fun r => _norm_space r = r) (uniq_authors [] authors)).
  { apply uniq_authors_sound; [|constructor]. intros; apply norm_space_fixed. }
  rewrite Forall_forall in Hall. rewrite <- (Hall _ Hin).
  unfold is_system_marker in Hm. now apply bool_decide_eq_false_1 in Hm.
Qed.

End PerspectiveFacts.

Lemma choose_me_name_real_witness :
  ascii_lower (choose_me_name ascii_lower true [py "system"; py "2)"]
                 [py "System"; py " Bob "; py "Alice"]) ∉ system_markers.
Proof.
  apply (choose_me_name_real ascii_lower true [py "system"; py "2)"]
           [py "System"; py " Bob "; py "Alice"] (py " Bob ")).
  - apply list_elem_of_In. right. left. reflexivity.
  - vm_compute. discriminate.
  - intros H. apply list_elem_of_In in H. vm_compute in H.
    repeat (destruct H as [H|H]; [discriminate|]). exact H.
Defined.

(** ** The cache of previews as a dictionary *)

Section PreviewCache.

Variable network : list str -> str -> option (bytes * str).
Variable is_youtube_url : str -> option str.
Variable _parse_meta : bytes -> gmap str str.
Variable _resolve_url : str -> str -> str.
Variable image_as_data_url : str -> bytes * str -> option str.

Local Abbreviation preview_of :=
  (build_preview network is_youtube_url _parse_meta _resolve_url image_as_data_url).

Lemma preview_step u w :
  (_preview_cache (snd (preview_of u w)) = _preview_cache w \/
   exists p, url p = u /\ _preview_cache w !! u = None /\
             _preview_cache (snd (preview_of u w)) = <[u := p]> (_preview_cache w)) /\
  exists more, requested (snd (preview_of u w)) = requested w ++ more.
Proof.
  unfold build_preview, io_bind, cache_get, cache_set, ret,
    _download_image_as_data_url, _http_get, io_bind, ret.
  destruct (_preview_cache w !! u) as [p0|] eqn:E.
  { cbn. split; [now left|]. exists []. now rewrite app_nil_r. }
  destruct (is_youtube_url u) as [[|c vid]|].
  2:{ cbn. split; [|eexists; reflexivity].
      right. eexists. split; [|split; reflexivity]. reflexivity. }
  all: destruct (network (requested w) u) as [[html_bytes ct]|];
    [|cbn; split; [now left|eexists; reflexivity]].
  all: match goal with
       | |- context [match ?img with [] => _ | _ :: _ => _ end] => destruct img
       end; cbn; rewrite <- ?app_assoc;
    (split; [|eexists; reflexivity]);
    right; eexists; (split; [|split; reflexivity]); reflexivity.
Qed.

(** [build_preview] changes the dictionary at the address it is called for
    and nowhere else, never changes or removes an entry, keeps every preview
    under its own address, and only adds to the requests made. *)
Theorem preview_cache_frame (u : str) (w : world) :
  (forall k p, _preview_cache w !! k = Some p -> url p = k) ->
  (forall k p, _preview_cache w !! k = Some p ->
               _preview_cache (snd (preview_of u w)) !! k = Some p) /\
  (forall k, k <> u ->
             _preview_cache (snd (preview_of u w)) !! k = _preview_cache w !! k) /\
  (forall k p, _preview_cache (snd (preview_of u w)) !! k = Some p -> url p = k) /\
  (exists more, requested (snd (preview_of u w)) = requested w ++ more).
Proof.
  intros Hkey. destruct (preview_step u w) as [[Hc|(p & Hp & Hmiss & Hc)] Hreq];
    rewrite Hc.
  - conjuncts; auto.
  - conjuncts; [| | |exact Hreq].
    + intros k q Hk. destruct (decide (k = u)) as [->|Hne]; [congruence|].
      now rewrite lookup_insert_ne.
    + intros k Hne. now rewrite lookup_insert_ne.
    + intros k q Hk. apply lookup_insert_Some in Hk as [[<- <-]|[_ Hk]];
        [exact Hp|now apply Hkey].
Qed.

End PreviewCache.

Lemma preview_cache_frame_witness :
  _preview_cache
    (snd (plain_preview empty_pages example_url
            (World {[ py "http://a.b/" := MkPreview (py "http://a.b/") (py "A") [] None ]}
                   [py "http://a.b/"])))
    !! py "http://a.b/"
  = Some (MkPreview (py "http://a.b/") (py "A") [] None) /\
  (exists p,
     _preview_cache
       (snd (plain_preview empty_pages example_url
               (World {[ py "http://a.b/" := MkPreview (py "http://a.b/") (py "A") [] None ]}
                      [py "http://a.b/"])))
       !! example_url = Some p /\ url p = example_url) /\
  exists more,
    requested
      (snd (plain_preview empty_pages example_url
              (World {[ py "http://a.b/" := MkPreview (py "http://a.b/") (py "A") [] None ]}
                     [py "http://a.b/"])))
    = [py "http://a.b/"] ++ more.
Proof.
  destruct (preview_cache_frame empty_pages (fun _ => None)
              (fun _ => ∅) (fun _ img => img) (fun _ _ => None)
              example_url
              (World {[ py "http://a.b/" := MkPreview (py "http://a.b/") (py "A") [] None ]}
                     [py "http://a.b/"]))
    as (Hkept & _ & Hkey & Hreq).
  - intros k p H. cbn [_preview_cache] in H.
    apply lookup_singleton_Some in H as [<- <-]. reflexivity.
  - split; [|split; [|exact Hreq]].
    + apply Hkept. cbn [_preview_cache]. apply lookup_singleton_eq.
    + assert (Hnew : _preview_cache
                       (snd (plain_preview empty_pages example_url
                               (World {[ py "http://a.b/"
                                         := MkPreview (py "http://a.b/") (py "A") [] None ]}
                                      [py "http://a.b/"])))
                       !! example_url
                     = Some (MkPreview example_url example_url [] None))
        by (vm_compute; reflexivity).
      eexists. split; [exact Hnew|exact (Hkey _ _ Hnew)].
Defined.

(** ** Messages are parsed one by one *)

Lemma step_open l d m :
  (exists d' m', step (open_state d m) l = Ok (open_state d' m') /\
                 forall done, step (open_state (done ++ d) m) l
                              = Ok (open_state (done ++ d') m')) \/
  (exists e, step (open_state d m) l = Raise e /\
             forall done, step (open_state (done ++ d) m) l = Raise e).
Proof.
  unfold step. destruct (clean_line l) as [|c t].
  - left. exists d, (add_text [U.LF] m). rewrite append_last_open.
    split; [reflexivity|]. intros done. now rewrite append_last_open.
  - destruct (classify (c :: t)) as [[msg|]|e]; cbn [bind].
    + left. exists (d ++ [m]), msg. split; [reflexivity|].
      intros done. rewrite push_open.
      change (msgs (open_state (done ++ d) m)) with ((done ++ d) ++ [m]).
      now rewrite <- app_assoc.
    + left. exists d, (add_text ([U.LF] ++ c :: t) m). rewrite append_last_open.
      split; [reflexivity|]. intros done. now rewrite append_last_open.
    + right. exists e. split; [reflexivity|]. intros done. reflexivity.
Qed.

Lemma loop_open ls : forall d m,
  (exists d' m', loop (open_state d m) ls = Ok (open_state d' m') /\
                 forall done, loop (open_state (done ++ d) m) ls
                              = Ok (open_state (done ++ d') m')) \/
  (exists e, loop (open_state d m) ls = Raise e /\
             forall done, loop (open_state (done ++ d) m) ls = Raise e).
Proof.
  induction ls as [|l ls IH]; intros d m; cbn [loop].
  - left. exists d, m. split; [reflexivity|]. intros done. reflexivity.
  - destruct (step_open l d m) as [(d1 & m1 & H1 & H1')|(e & H1 & H1')].
    + rewrite H1. cbn [bind].
      destruct (IH d1 m1) as [(d2 & m2 & H2 & H2')|(e & H2 & H2')].
      * left. exists d2, m2. split; [exact H2|].
        intros done. rewrite H1'. cbn [bind]. apply H2'.
      * right. exists e. split; [exact H2|].
        intros done. rewrite H1'. cbn [bind]. apply H2'.
    + right. exists e. rewrite H1. split; [reflexivity|].
      intros done. now rewrite H1'.
Qed.

(** A header line closes what came before it: the messages of a file are
    those of the lines before a header line followed by those of the lines
    from it on, and the parse raises when one of the two parts does. *)
Theorem parse_lines_split (before after : list str) (h : str) (m : Message) :
  header_line h m ->
  parse_lines (before ++ h :: after)
  = let* a := parse_lines before in
    let* b := parse_lines (h :: after) in
    Ok (a ++ b).
Proof.
  intros Hh. unfold parse_lines. rewrite loop_app.
  destruct (loop (PState [] None) before) as [st1|e]; cbn [bind loop]; [|reflexivity].
  rewrite !(step_header _ h m Hh). cbn [bind]. rewrite !push_open. cbn [msgs].
  rewrite <- (app_nil_r (msgs st1)) at 1.
  destruct (loop_open after [] m) as [(d' & m' & H & H')|(e & H & H')];
    rewrite H, H'; cbn [bind]; [|reflexivity].
  unfold open_state. cbn [msgs]. now rewrite app_assoc.
Qed.

Lemma parse_lines_split_witness :
  parse_lines ([py "2024-01-05 09:00:05 Bob: Hi!"; py "more"]
               ++ py "05.01.24, 9:00 - Alice: Hey" :: [py "and more"])
  = let* a := parse_lines [py "2024-01-05 09:00:05 Bob: Hi!"; py "more"] in
    let* b := parse_lines (py "05.01.24, 9:00 - Alice: Hey" :: [py "and more"]) in
    Ok (a ++ b).
Proof.
  apply (parse_lines_split _ _ _ (Msg (DateTime 2024 1 5 9 0 0) (py "Alice") (py "Hey"))).
  split; [vm_compute; discriminate|vm_compute; reflexivity].
Defined.

Lemma header_patterns_exclusive_witness :
  re_match _pat_de (py "[13.04.2019, 18:59:06] Carolin: Text") = None /\
  re_match _pat_iso (py "[13.04.2019, 18:59:06] Carolin: Text") = None.
Proof.
  destruct (proj2 (proj2 (header_patterns_exclusive
                            (py "[13.04.2019, 18:59:06] Carolin: Text"))))
    as [Hi Hd]; [vm_compute; discriminate|].
  split; [exact Hd|exact Hi].
Defined.

(** ** Which lines make the parser raise *)

Lemma run_captures r : forall st A (k : mstate -> option A) x,
  run r st k = Some x ->
  exists xs st' gs, m_rest st = xs ++ m_rest st' /\
                    m_pos st' = (m_pos st + length xs)%nat /\
                    captures r xs (m_rest st') gs /\
                    m_groups st' = gs ++ m_groups st /\
                    k st' = Some x.
Proof.
  induction r as [| |c|c lo hi g|a IHa b IHb|a IHa b IHb|a IHa|i a IHa];
    intros st A k x H; cbn [run] in H.
  - destruct (m_pos st) eqn:E; [|discriminate]. exists [], st, [].
    cbn [captures takes]. repeat split; auto; simpl; lia.
  - exists [], st, []. cbn [captures takes].
    split; [reflexivity|]. split; [simpl; lia|].
    split; [split; [split; [reflexivity|]|reflexivity]|split; [reflexivity|]].
    + destruct (m_rest st) as [|y [|z t]]; try discriminate; [now left|].
      destruct (Z.eqb_spec y U.LF); [subst; now right|discriminate].
    + destruct (m_rest st) as [|y [|z t]]; try discriminate; [assumption|].
      destruct (y =? U.LF); [assumption|discriminate].
  - destruct (m_rest st) as [|y t] eqn:E; [discriminate|].
    destruct (in_cls c y) eqn:Ey; [|discriminate].
    destruct (moved_suffix st [y] t E) as [Hr Hp].
    exists [y], (moved st t), []. rewrite Hr. cbn [captures takes].
    repeat split; auto. exists y. now split.
  - apply rep_takes in H as (xs & s' & Hs & Hxs & Hlo & Hhi & Hk).
    destruct (moved_suffix st xs s' Hs) as [Hr Hp].
    exists xs, (moved st s'), []. rewrite Hr. cbn [captures takes].
    repeat split; auto.
  - apply IHa in H as (ys & st1 & ga & Hs1 & Hp1 & Ha & Hg1 & H).
    apply IHb in H as (zs & st2 & gb & Hs2 & Hp2 & Hb & Hg2 & H).
    exists (ys ++ zs), st2, (gb ++ ga). split; [now rewrite Hs1, Hs2, app_assoc|].
    split; [rewrite Hp2, Hp1, length_app; lia|].
    split; [|split; [now rewrite Hg2, Hg1, app_assoc|exact H]].
    cbn [captures]. exists ys, zs, ga, gb. rewrite <- Hs2. now repeat split.
  - unfold or_else in H. destruct (run a st k) eqn:E.
    + inversion H; subst. apply IHa in E as (xs & st1 & gs & ? & ? & ? & ? & ?).
      exists xs, st1, gs. cbn [captures]. repeat split; auto.
    + apply IHb in H as (xs & st1 & gs & ? & ? & ? & ? & ?).
      exists xs, st1, gs. cbn [captures]. repeat split; auto.
  - unfold or_else in H. destruct (run a st k) eqn:E.
    + inversion H; subst. apply IHa in E as (xs & st1 & gs & ? & ? & ? & ? & ?).
      exists xs, st1, gs. cbn [captures]. repeat split; auto.
    + exists [], st, []. cbn [captures]. repeat split; auto; simpl; lia.
  - apply IHa in H as (xs & st1 & ga & Hs & Hp & Ha & Hg & H).
    exists xs, (set_group i st st1), ((i, xs) :: ga). split; [exact Hs|].
    split; [exact Hp|]. split; [cbn [captures]; eauto|]. split; [|exact H].
    unfold set_group. cbn [m_groups]. rewrite Hg, Hp, Hs.
    replace (m_pos st + length xs - m_pos st)%nat with (length xs) by lia.
    now rewrite take_app_length.
Qed.

(** The groups of a match are those the pattern captures on a text it takes
    at the start of the line. *)
Lemma match_captures r s m :
  re_match r s = Some m ->
  exists xs rest, s = xs ++ rest /\ captures r xs rest (m_caps m).
Proof.
  unfold re_match, match_at. intros H.
  apply run_captures in H as (xs & st' & gs & Hs & _ & Hc & Hg & H).
  cbn [m_rest m_groups] in Hs, Hg. rewrite app_nil_r in Hg.
  inversion H; subst m. cbn [m_caps]. rewrite Hg. eauto.
Qed.

Lemma captures_plain r : forall xs rest gs,
  groupless r = true -> captures r xs rest gs -> takes r xs rest /\ gs = [].
Proof.
  induction r as [| |c|c lo hi g|a IHa b IHb|a IHa b IHb|a IHa|i a IHa];
    intros xs rest gs Hg H; cbn [groupless captures takes] in *;
    try exact H; try discriminate.
  - apply andb_true_iff in Hg as [Hga Hgb].
    destruct H as (ys & zs & ga & gb & -> & Ha & Hb & ->).
    apply IHa in Ha as [Ha ->]; [|assumption].
    apply IHb in Hb as [Hb ->]; [|assumption]. split; [eauto|reflexivity].
  - apply andb_true_iff in Hg as [Hga Hgb].
    destruct H as [H|H]; [apply IHa in H as [H ->]|apply IHb in H as [H ->]];
      auto.
  - destruct H as [H|[-> ->]]; [apply IHa in H as [H ->]|]; auto.
Qed.

Lemma captures_seq a b xs rest gs :
  captures (Seq a b) xs rest gs ->
  exists ys zs ga gb,
    xs = ys ++ zs /\ captures a ys (zs ++ rest) ga /\ captures b zs rest gb /\
    gs = gb ++ ga.
Proof. intros H. exact H. Qed.

Lemma captures_grp i a xs rest gs :
  captures (Grp i a) xs rest gs ->
  exists ga, captures a xs rest ga /\ gs = (i, xs) :: ga.
Proof. intros H. exact H. Qed.

Lemma captures_lit s c xs rest gs :
  py s = [c] -> captures (lit s) xs rest gs -> xs = [c] /\ gs = [].
Proof.
  intros Hs H. apply captures_plain in H as [H ->]; [|reflexivity].
  split; [eapply takes_lit; eassumption|reflexivity].
Qed.

Lemma captures_blank1 xs rest gs :
  captures (plus space) xs rest gs -> blank1 xs /\ gs = [].
Proof.
  intros H. apply captures_plain in H as [H ->]; [|reflexivity].
  split; [eapply takes_blank1, H|reflexivity].
Qed.

(** The end of the three header patterns: the author in group [i], the
    colon, white space and the text in group [j], up to the end of the
    line. *)
Lemma captures_tail i j xs rest gs :
  captures (Seq (Grp i (plus_lazy not_colon))
             (Seq (lit ":") (Seq (star space) (Seq (Grp j (star CAny)) Eol))))
           xs rest gs ->
  exists author sp4 text,
    xs = author ++ [U.COLON] ++ sp4 ++ text /\
    (author <> [] /\ Forall (fun c => c <> U.COLON) author) /\
    blank sp4 /\ Forall (fun c => c <> U.LF) text /\
    gs = [(j, text); (i, author)] /\ (rest = [] \/ rest = [U.LF]).
Proof.
  intros H.
  apply captures_seq in H as (a & z1 & g1 & g2 & -> & Ha & H & ->).
  apply captures_grp in Ha as (ga & Ha & ->).
  apply captures_plain in Ha as [Ha ->]; [|reflexivity].
  apply captures_seq in H as (c & z2 & g3 & g4 & -> & Hc & H & ->).
  apply (captures_lit ":" U.COLON) in Hc as [-> ->]; [|reflexivity].
  apply captures_seq in H as (w & z3 & g5 & g6 & -> & Hw & H & ->).
  apply captures_plain in Hw as [Hw ->]; [|reflexivity].
  apply captures_seq in H as (t & e & g7 & g8 & -> & Ht & He & ->).
  apply captures_grp in Ht as (gt & Ht & ->).
  apply captures_plain in Ht as [Ht ->]; [|reflexivity].
  apply captures_plain in He as [He ->]; [|reflexivity].
  cbn [takes plus_lazy star] in Ha, Hw, Ht, He.
  destruct Ha as (Ha & Hlen & _). destruct Hw as (Hw & _). destruct Ht as (Ht & _).
  destruct He as [-> He].
  exists a, w, t. rewrite !app_nil_r. split; [reflexivity|].
  split; [split|].
  - intros ->. simpl in Hlen. lia.
  - eapply Forall_impl; [exact Ha|]. intros y Hy. cbn in Hy.
    destruct (Z.eqb_spec y U.COLON); [discriminate|assumption].
  - split; [exact Hw|]. split; [|split; [reflexivity|exact He]].
    eapply Forall_impl; [exact Ht|]. intros y Hy. cbn in Hy.
    destruct (Z.eqb_spec y U.LF); [discriminate|assumption].
Qed.

(** Date, comma, white space, hour and minute, and the seconds when they are
    there: the part the patterns of dialect 2 and of the bracketed dialect
    share. *)
Lemma captures_stamp_de r xs rest gs :
  captures (Seq (Grp 1 date_de)
             (Seq (lit ",") (Seq (plus space) (Seq (Grp 2 time_hm)
               (Seq (Opt (Seq (lit ":") (Grp 3 (times digit 2)))) r)))))
           xs rest gs ->
  exists d1 d2 d3 w1 h m sec zs gr,
    digits 1 2 d1 /\ digits 1 2 d2 /\ digits 2 4 d3 /\ blank1 w1 /\
    digits 1 2 h /\ digits 2 2 m /\ (forall ss, sec = Some ss -> digits 2 2 ss) /\
    xs = d1 ++ [U.DOT] ++ d2 ++ [U.DOT] ++ d3 ++ [44] ++ w1
         ++ h ++ [U.COLON] ++ m
         ++ match sec with Some ss => [U.COLON] ++ ss | None => [] end ++ zs /\
    captures r zs rest gr /\
    gs = gr ++ match sec with Some ss => [(3%nat, ss)] | None => [] end
         ++ [ (2%nat, h ++ [U.COLON] ++ m);
              (1%nat, d1 ++ [U.DOT] ++ d2 ++ [U.DOT] ++ d3) ].
Proof.
  intros H.
  apply captures_seq in H as (D & z1 & g1 & g2 & -> & HD & H & ->).
  apply captures_grp in HD as (gD & HD & ->).
  apply captures_plain in HD as [HD ->]; [|reflexivity].
  apply takes_date_de in HD as (d1 & d2 & d3 & -> & H1 & H2 & H3).
  apply captures_seq in H as (c & z2 & g3 & g4 & -> & Hc & H & ->).
  apply (captures_lit "," 44) in Hc as [-> ->]; [|reflexivity].
  apply captures_seq in H as (w1 & z3 & g5 & g6 & -> & Hw & H & ->).
  apply captures_blank1 in Hw as [Hw ->].
  apply captures_seq in H as (T & z4 & g7 & g8 & -> & HT & H & ->).
  apply captures_grp in HT as (gT & HT & ->).
  apply captures_plain in HT as [HT ->]; [|reflexivity].
  apply takes_time_hm in HT as (h & m & -> & Hh & Hm).
  apply captures_seq in H as (o & zs & go & gr & -> & Ho & Hr & ->).
  cbn [captures] in Ho. destruct Ho as [Ho|[-> ->]].
  - destruct Ho as (p & ss & gp & gss & -> & Hp & Hss & ->).
    apply (captures_lit ":" U.COLON) in Hp as [-> ->]; [|reflexivity].
    destruct Hss as (g9 & [Hss ->] & ->). apply takes_times in Hss.
    exists d1, d2, d3, w1, h, m, (Some ss), zs, gr.
    repeat (split; [assumption|]).
    split; [now intros ? [= <-]|].
    split; [simpl; repeat (rewrite <- app_assoc; simpl); reflexivity|].
    split; [exact Hr|].
    rewrite !app_nil_r. repeat (rewrite <- app_assoc; simpl). reflexivity.
  - exists d1, d2, d3, w1, h, m, None, zs, gr.
    repeat (split; [assumption|]).
    split; [discriminate|].
    split; [simpl; repeat (rewrite <- app_assoc; simpl); reflexivity|].
    split; [exact Hr|].
    rewrite !app_nil_r. repeat (rewrite <- app_assoc; simpl). reflexivity.
Qed.

(** Every text [_pat_de] takes is a line of dialect 2, and the groups are
    its fields. *)
Lemma captures_pat_de xs rest gs :
  captures _pat_de xs rest gs ->
  exists f, de_shape f /\ xs = de_line U.HYPHEN f /\ gs = de_groups f /\
            (rest = [] \/ rest = [U.LF]).
Proof.
  unfold _pat_de. cbn [cat]. intros H.
  apply captures_seq in H as (b & z0 & g0 & g1 & -> & Hb & H & ->).
  apply captures_plain in Hb as [Hb ->]; [|reflexivity]. cbn [takes] in Hb. subst b.
  apply captures_stamp_de in H
    as (d1 & d2 & d3 & w1 & h & m & sec & zs & gr & H1 & H2 & H3 & Hw1 & Hh & Hm
        & Hsec & -> & H & ->).
  apply captures_seq in H as (w2 & z1 & g2 & g3 & -> & Hw2 & H & ->).
  apply captures_blank1 in Hw2 as [Hw2 ->].
  apply captures_seq in H as (p & z2 & g4 & g5 & -> & Hp & H & ->).
  apply (captures_lit "-" U.HYPHEN) in Hp as [-> ->]; [|reflexivity].
  apply captures_seq in H as (w3 & z3 & g6 & g7 & -> & Hw3 & H & ->).
  apply captures_blank1 in Hw3 as [Hw3 ->].
  apply captures_tail in H as (author & sp4 & text & -> & Ha & Hs4 & Ht & -> & Hrest).
  exists (DeFields d1 d2 d3 w1 h m sec w2 w3 author sp4 text).
  split; [constructor; assumption|].
  split; [|split; [|exact Hrest]].
  - unfold de_line, second_text. cbn [f_day f_month f_year f_sp1 f_hour f_minute
      f_second f_sp2 f_sp3 f_author f_sp4 f_text].
    destruct sec; simpl; repeat (rewrite <- app_assoc; simpl); reflexivity.
  - unfold de_groups. cbn [f_day f_month f_year f_sp1 f_hour f_minute
      f_second f_sp2 f_sp3 f_author f_sp4 f_text].
    rewrite !app_nil_r. destruct sec; reflexivity.
Qed.

(** Every text [_pat_bracket] takes is a line of the bracketed dialect. *)
Lemma captures_pat_bracket xs rest gs :
  captures _pat_bracket xs rest gs ->
  exists f, de_shape f /\ xs = bracket_line f /\ gs = de_groups f /\
            (rest = [] \/ rest = [U.LF]).
Proof.
  unfold _pat_bracket. cbn [cat]. intros H.
  apply captures_seq in H as (b & z0 & g0 & g1 & -> & Hb & H & ->).
  apply captures_plain in Hb as [Hb ->]; [|reflexivity]. cbn [takes] in Hb. subst b.
  apply captures_seq in H as (o & z00 & g00 & g01 & -> & Ho & H & ->).
  apply (captures_lit "[" 91) in Ho as [-> ->]; [|reflexivity].
  apply captures_stamp_de in H
    as (d1 & d2 & d3 & w1 & h & m & sec & zs & gr & H1 & H2 & H3 & Hw1 & Hh & Hm
        & Hsec & -> & H & ->).
  apply captures_seq in H as (p & z2 & g4 & g5 & -> & Hp & H & ->).
  apply (captures_lit "]" 93) in Hp as [-> ->]; [|reflexivity].
  apply captures_seq in H as (w3 & z3 & g6 & g7 & -> & Hw3 & H & ->).
  apply captures_blank1 in Hw3 as [Hw3 ->].
  apply captures_tail in H as (author & sp4 & text & -> & Ha & Hs4 & Ht & -> & Hrest).
  exists (DeFields d1 d2 d3 w1 h m sec [U.SPACE] w3 author sp4 text).
  split; [constructor; try assumption; split; [repeat constructor|discriminate]|].
  split; [|split; [|exact Hrest]].
  - unfold bracket_line, second_text. cbn [f_day f_month f_year f_sp1 f_hour f_minute
      f_second f_sp2 f_sp3 f_author f_sp4 f_text].
    destruct sec; simpl; repeat (rewrite <- app_assoc; simpl); reflexivity.
  - unfold de_groups. cbn [f_day f_month f_year f_sp1 f_hour f_minute
      f_second f_sp2 f_sp3 f_author f_sp4 f_text].
    rewrite !app_nil_r. destruct sec; reflexivity.
Qed.

(** Every text [_pat_iso] takes is a line of dialect 1. *)
Lemma captures_pat_iso xs rest gs :
  captures _pat_iso xs rest gs ->
  exists f, iso_shape f /\ xs = iso_line f /\ gs = iso_groups f /\
            (rest = [] \/ rest = [U.LF]).
Proof.
  unfold _pat_iso. cbn [cat]. intros H.
  apply captures_seq in H as (b & z0 & g0 & g1 & -> & Hb & H & ->).
  apply captures_plain in Hb as [Hb ->]; [|reflexivity]. cbn [takes] in Hb. subst b.
  apply captures_seq in H as (D & z1 & g2 & g3 & -> & HD & H & ->).
  apply captures_grp in HD as (gD & HD & ->).
  apply captures_plain in HD as [HD ->]; [|reflexivity].
  cbn [takes] in HD.
  destruct HD as (y & r1 & -> & Hy & p1 & r2 & -> & Hp1 & mo & r3 & -> & Hmo
                  & p2 & d & -> & Hp2 & Hd).
  apply (takes_lit "-" U.HYPHEN _ _ eq_refl) in Hp1; subst p1.
  apply (takes_lit "-" U.HYPHEN _ _ eq_refl) in Hp2; subst p2.
  apply takes_times in Hy. apply takes_times in Hmo. apply takes_times in Hd.
  apply captures_seq in H as (s & z2 & g4 & g5 & -> & Hs & H & ->).
  apply captures_plain in Hs as [Hs ->]; [|reflexivity].
  cbn [takes] in Hs. destruct Hs as (sep & -> & Hsep).
  apply captures_seq in H as (T & z3 & g6 & g7 & -> & HT & H & ->).
  apply captures_grp in HT as (gT & HT & ->).
  apply captures_plain in HT as [HT ->]; [|reflexivity].
  cbn [takes] in HT.
  destruct HT as (h & r4 & -> & Hh & p3 & r5 & -> & Hp3 & mi & r6 & -> & Hmi
                  & p4 & se & -> & Hp4 & Hse).
  apply (takes_lit ":" U.COLON _ _ eq_refl) in Hp3; subst p3.
  apply (takes_lit ":" U.COLON _ _ eq_refl) in Hp4; subst p4.
  apply takes_times in Hh. apply takes_times in Hmi. apply takes_times in Hse.
  apply captures_seq in H as (w & z4 & g8 & g9 & -> & Hw & H & ->).
  apply captures_blank1 in Hw as [Hw ->].
  apply captures_tail in H as (author & sp4 & text & -> & Ha & Hs4 & Ht & -> & Hrest).
  exists (IsoFields y mo d sep h mi se w author sp4 text).
  split.
  { constructor; try assumption. cbn [i_sep]. cbn in Hsep.
    apply orb_true_iff in Hsep as [Hsep|Hsep]; [left; now apply Z.eqb_eq in Hsep|].
    apply orb_true_iff in Hsep as [Hsep|Hsep]; [right; now apply Z.eqb_eq in Hsep|].
    discriminate. }
  split; [|split; [|exact Hrest]].
  - unfold iso_line. cbn [i_year i_month i_day i_sep i_hour i_minute i_second i_sp
      i_author i_sp4 i_text].
    simpl. repeat (rewrite <- app_assoc; simpl). reflexivity.
  - unfold iso_groups, iso_date, iso_time.
    cbn [i_year i_month i_day i_sep i_hour i_minute i_second i_sp
      i_author i_sp4 i_text].
    rewrite !app_nil_r. simpl. repeat (rewrite <- app_assoc; simpl). reflexivity.
Qed.

(** What [parse_dt_de] returns for the fields of a line, whatever white space
    its author or text starts with. *)
Lemma header_de_shape f n :
  de_shape f ->
  header_de (RMatch n (de_groups f))
  = let* t := de_datetime f in
    Ok (Msg t (_norm_space (f_author f)) (f_text f)).
Proof.
  intros W. unfold header_de, de_groups, de_datetime, de_year, de_seconds.
  assert (Hdot : isdecimal U.DOT = false) by reflexivity.
  assert (Hcolon : isdecimal U.COLON = false) by reflexivity.
  assert (Hdt : forall t_sec,
    parse_dt_de (f_day f ++ [U.DOT] ++ f_month f ++ [U.DOT] ++ f_year f)
                (f_hour f ++ [U.COLON] ++ f_minute f) t_sec
    = let* ss := match t_sec with Some t => int t | None => Ok 0 end in
      datetime_new (let y := number (f_year f) in if y <? 100 then y + 2000 else y)
        (number (f_month f)) (number (f_day f))
        (number (f_hour f)) (number (f_minute f)) ss).
  { intros t_sec. unfold parse_dt_de.
    rewrite split_on_3 by (eapply digits_ne; [apply W|assumption]).
    rewrite (int_digits _ _ _ (sh_day f W)), (int_digits _ _ _ (sh_month f W)),
            (int_digits _ _ _ (sh_year f W)) by lia.
    cbn [bind].
    rewrite split_on_2 by (eapply digits_ne; [apply W|assumption]).
    rewrite (int_digits _ _ _ (sh_hour f W)), (int_digits _ _ _ (sh_minute f W)) by lia.
    destruct (match t_sec with Some t => int t | None => Ok 0 end); reflexivity. }
  pose proof (sh_second f W) as Hss.
  destruct (f_second f) as [ss|]; cbn [groups List.map List.seq group m_caps app
    List.find fst snd Nat.eqb fmap option_fmap option_map]; rewrite Hdt.
  - rewrite (int_digits _ _ _ (Hss ss eq_refl)) by lia. reflexivity.
  - reflexivity.
Qed.

Lemma de_datetime_raises f e : de_datetime f = Raise e -> de_valid f = false.
Proof.
  unfold de_datetime, datetime_new, de_valid.
  destruct (valid_datetime _ _ _ _ _ _); [discriminate|reflexivity].
Qed.

(** [fromisoformat] on the date and time of a line of dialect 1 raises on a
    digit outside ASCII and on values that are no date and time, and only
    then. *)
Lemma iso_stamp f :
  iso_shape f ->
  (forall e, fromisoformat (iso_date f ++ [U.SPACE] ++ iso_time f) = Raise e ->
             e = ValueError /\ (~ iso_ascii f \/ iso_valid f = false)) /\
  (~ iso_ascii f \/ iso_valid f = false ->
   fromisoformat (iso_date f ++ [U.SPACE] ++ iso_time f) = Raise ValueError).
Proof.
  intros W.
  assert (Hf : fromisoformat (iso_date f ++ [U.SPACE] ++ iso_time f)
    = let* y' := ascii_int_from 0 (i_year f) in
      let* mo' := ascii_int_from 0 (i_month f) in
      let* d' := ascii_int_from 0 (i_day f) in
      let* h' := ascii_int_from 0 (i_hour f) in
      let* mi' := ascii_int_from 0 (i_minute f) in
      let* s' := ascii_int_from 0 (i_second f) in
      datetime_new y' mo' d' h' mi' s').
  { unfold iso_date, iso_time.
    apply fromisoformat_fields;
      [destruct (ish_year f W) as [_ H]|destruct (ish_month f W) as [_ H]
      |destruct (ish_day f W) as [_ H]|destruct (ish_hour f W) as [_ H]
      |destruct (ish_minute f W) as [_ H]|destruct (ish_second f W) as [_ H]]; lia. }
  rewrite Hf. clear Hf.
  assert (Hascii : iso_ascii f ->
    (let* y' := ascii_int_from 0 (i_year f) in
     let* mo' := ascii_int_from 0 (i_month f) in
     let* d' := ascii_int_from 0 (i_day f) in
     let* h' := ascii_int_from 0 (i_hour f) in
     let* mi' := ascii_int_from 0 (i_minute f) in
     let* s' := ascii_int_from 0 (i_second f) in
     datetime_new y' mo' d' h' mi' s')
    = if iso_valid f then Ok (iso_datetime f) else Raise ValueError).
  { intros Ha. unfold iso_ascii, ascii_digits in Ha. rewrite !Forall_app in Ha.
    destruct Ha as (Hy & Hmo & Hd & Hh & Hmi & Hs).
    rewrite !ascii_number_ok by assumption. reflexivity. }
  assert (Hother : ~ iso_ascii f ->
    (let* y' := ascii_int_from 0 (i_year f) in
     let* mo' := ascii_int_from 0 (i_month f) in
     let* d' := ascii_int_from 0 (i_day f) in
     let* h' := ascii_int_from 0 (i_hour f) in
     let* mi' := ascii_int_from 0 (i_minute f) in
     let* s' := ascii_int_from 0 (i_second f) in
     datetime_new y' mo' d' h' mi' s') = Raise ValueError).
  { intros Hn.
    destruct (ascii_int_from 0 (i_year f)) as [y|e] eqn:Ey;
      [|now rewrite (ve_ascii_int_from _ _ _ Ey)].
    destruct (ascii_int_from 0 (i_month f)) as [mo|e] eqn:Emo;
      [|now rewrite (ve_ascii_int_from _ _ _ Emo)].
    destruct (ascii_int_from 0 (i_day f)) as [d|e] eqn:Ed;
      [|now rewrite (ve_ascii_int_from _ _ _ Ed)].
    destruct (ascii_int_from 0 (i_hour f)) as [h|e] eqn:Eh;
      [|now rewrite (ve_ascii_int_from _ _ _ Eh)].
    destruct (ascii_int_from 0 (i_minute f)) as [mi|e] eqn:Emi;
      [|now rewrite (ve_ascii_int_from _ _ _ Emi)].
    destruct (ascii_int_from 0 (i_second f)) as [s|e] eqn:Es;
      [|now rewrite (ve_ascii_int_from _ _ _ Es)].
    exfalso. apply Hn. unfold iso_ascii, ascii_digits. rewrite !Forall_app.
    repeat split; eapply ascii_int_from_digits; eassumption. }
  assert (Hdec : iso_ascii f \/ ~ iso_ascii f).
  { unfold iso_ascii, ascii_digits.
    destruct (decide (Forall (fun c => 48 <= c <= 57)
                        (i_year f ++ i_month f ++ i_day f
                         ++ i_hour f ++ i_minute f ++ i_second f)));
      [now left|now right]. }
  split.
  - intros e H. destruct Hdec as [Ha|Hn].
    + rewrite (Hascii Ha) in H. destruct (iso_valid f) eqn:Ev; [discriminate|].
      inversion H; subst. split; [reflexivity|now right].
    + rewrite (Hother Hn) in H. inversion H; subst. split; [reflexivity|now left].
  - intros [Hn|Hv]; [now apply Hother|].
    destruct Hdec as [Ha|Hn]; [|now apply Hother].
    rewrite (Hascii Ha), Hv. reflexivity.
Qed.

Lemma header_caps m : header_de m = header_de (RMatch 0 (m_caps m)) /\
                      header_iso m = header_iso (RMatch 0 (m_caps m)).
Proof. destruct m. split; reflexivity. Qed.

(** A line on which [classify] raises is an unreadable header, a line feed
    at its end apart. *)
Lemma classify_raises_unreadable line e :
  classify line = Raise e ->
  exists xs rest, line = xs ++ rest /\ (rest = [] \/ rest = [U.LF]) /\
                  unreadable_header xs.
Proof.
  unfold classify. intros H.
  destruct (re_match _pat_iso line) as [m|] eqn:Ei.
  { apply match_captures in Ei as (xs & rest & -> & Hc).
    apply captures_pat_iso in Hc as (f & W & -> & Hg & Hrest).
    rewrite (proj2 (header_caps m)), Hg in H.
    change (header_iso (RMatch 0 (iso_groups f)))
      with (let* t := fromisoformat (iso_date f ++ [U.SPACE] ++ iso_time f) in
            Ok (Msg t (_norm_space (i_author f)) (i_text f))) in H.
    destruct (fromisoformat (iso_date f ++ [U.SPACE] ++ iso_time f)) as [t|e'] eqn:E;
      [discriminate|].
    exists (iso_line f), rest. split; [reflexivity|]. split; [exact Hrest|].
    left. exists f. split; [exact W|]. split; [reflexivity|].
    exact (proj2 (proj1 (iso_stamp f W) e' E)). }
  destruct (re_match _pat_de line) as [m|] eqn:Ed.
  { apply match_captures in Ed as (xs & rest & -> & Hc).
    apply captures_pat_de in Hc as (f & W & -> & Hg & Hrest).
    rewrite (proj1 (header_caps m)), Hg, (header_de_shape f 0 W) in H.
    destruct (de_datetime f) as [t|e'] eqn:E; [discriminate|].
    exists (de_line U.HYPHEN f), rest. split; [reflexivity|]. split; [exact Hrest|].
    right. exists f. split; [exact W|]. split; [now left|].
    eapply de_datetime_raises, E. }
  destruct (re_match _pat_bracket line) as [m|] eqn:Eb; [|discriminate].
  apply match_captures in Eb as (xs & rest & -> & Hc).
  apply captures_pat_bracket in Hc as (f & W & -> & Hg & Hrest).
  rewrite (proj1 (header_caps m)), Hg, (header_de_shape f 0 W) in H.
  destruct (de_datetime f) as [t|e'] eqn:E; [discriminate|].
  exists (bracket_line f), rest. split; [reflexivity|]. split; [exact Hrest|].
  right. exists f. split; [exact W|]. split; [now right|].
  eapply de_datetime_raises, E.
Qed.

Lemma filter_Forall {A} (P : A -> Prop) p l : Forall P l -> Forall P (List.filter p l).
Proof.
  induction 1 as [|c l Hc Hl IH]; simpl; [constructor|].
  destruct (p c); [now constructor|exact IH].
Qed.

Lemma clean_line_free l :
  Forall (fun c => c <> U.LF) l -> Forall (fun c => c <> U.LF) (clean_line l).
Proof.
  intros H. rewrite (clean_line_no_lf l H), remove_chars_filter.
  now apply filter_Forall.
Qed.

Lemma splitlines_free content :
  Forall (Forall (fun c => c <> U.LF)) (splitlines content).
Proof.
  assert (H : Forall (Forall (fun c => True /\ is_linebreak c = false))
                (splitlines_from [] content)).
  { apply splitlines_from_chars; [apply Forall_forall; auto|constructor]. }
  unfold splitlines. eapply Forall_impl; [exact H|].
  intros l Hl. eapply Forall_impl; [exact Hl|]. intros c [_ Hc] ->. discriminate.
Qed.

Lemma parse_raises_unreadable content e :
  parse_messages content = Raise e ->
  exists l, l ∈ splitlines content /\ unreadable_header (clean_line l).
Proof.
  unfold parse_messages, parse_lines. intros H.
  destruct (loop (PState [] None) (splitlines content)) as [st|e'] eqn:E;
    [discriminate|].
  apply loop_raises in E as (l & Hin & _ & Hl).
  exists l. split; [exact Hin|].
  apply classify_raises_unreadable in Hl as (xs & rest & Hx & [->| ->] & Hu).
  - rewrite app_nil_r in Hx. now rewrite Hx.
  - exfalso. pose proof (splitlines_free content) as Hfree.
    rewrite Forall_forall in Hfree. specialize (Hfree l Hin).
    apply clean_line_free in Hfree. rewrite Hx in Hfree.
    apply Forall_app in Hfree as [_ Hfree]. inversion Hfree; subst. congruence.
Qed.

Lemma iso_wf_shape f : iso_wf f -> iso_shape f.
Proof. intros W. constructor; apply W. Qed.

Lemma de_wf_shape f : de_wf f -> de_shape f.
Proof. intros W. constructor; apply W. Qed.

(** *** Every line of the shape of a header is matched *)

(** A greedy repetition gives back its last character when what follows
    fails after the whole run and succeeds after the run without it. *)
Lemma rep_greedy_back {A} c xs x s (k : str -> option A) r : forall lo,
  Forall (fun y => in_cls c y = true) xs -> in_cls c x = true -> stops c s ->
  (lo <= length xs)%nat ->
  k s = None -> k (x :: s) = Some r ->
  rep c true lo None (xs ++ x :: s) k = Some r.
Proof.
  induction xs as [|y xs IH]; intros lo Hxs Hx Hs Hlo Hfail Hk.
  - simpl in Hlo. assert (lo = O) by lia. subst lo.
    cbn [app rep]. rewrite Hx. cbn [hi_allows andb Nat.pred hi_pred].
    assert (Hrest : rep c true 0 None s k = None).
    { destruct s as [|z s']; cbn [rep]; [exact Hfail|].
      simpl in Hs. rewrite Hs. cbn [andb]. exact Hfail. }
    rewrite Hrest. cbn [or_else]. exact Hk.
  - inversion Hxs as [|? ? Hy Hxs']; subst. cbn [app rep]. rewrite Hy.
    cbn [hi_allows andb hi_pred].
    rewrite (IH (Nat.pred lo)); try assumption; [reflexivity|simpl in Hlo; lia].
Qed.

Lemma run_seq_plus {A} c r st (k : mstate -> option A) :
  run (Seq (plus c) r) st k
  = rep c true 1 None (m_rest st) (fun s' => run r (moved st s') k).
Proof. reflexivity. Qed.

(** White space, author, colon, white space and text up to the end of the
    line are matched whatever white space author and text start with: the
    white space before them takes it, but for the last character of an author
    made of white space alone. *)
Lemma eats_space_tail i j sp author sp4 text :
  blank1 sp -> author <> [] -> Forall (fun c => c <> U.COLON) author ->
  blank sp4 -> Forall (fun c => c <> U.LF) text ->
  exists author' text',
    author' <> [] /\ Forall (fun c => c <> U.COLON) author' /\
    Forall (fun c => c <> U.LF) text' /\
    forall pre g,
      eats (Seq (plus space)
              (Seq (Grp i (plus_lazy not_colon))
                 (Seq (lit ":") (Seq (star space) (Seq (Grp j (star CAny)) Eol)))))
           pre (sp ++ author ++ [U.COLON] ++ sp4 ++ text ++ []) []
           g ((j, text') :: (i, author') :: g).
Proof.
  intros [Hsp Hspne] Hne Hcol Hs4 Htext.
  destruct (drop_while_split isspace text) as (tw & Ht & Htw).
  assert (Hstart : stops space (drop_while isspace text)).
  { destruct (drop_while isspace text) as [|y t] eqn:E; [exact I|].
    simpl. eapply drop_while_first, E. }
  assert (Htext' : Forall (fun c => c <> U.LF) (drop_while isspace text))
    by now apply drop_while_Forall.
  assert (Hs4' : blank (sp4 ++ tw)) by (apply Forall_app; now split).
  destruct (drop_while_split isspace author) as (aw & Ha & Haw).
  destruct (drop_while isspace author) as [|c a'] eqn:Ea.
  - rewrite app_nil_r in Ha. subst aw.
    destruct (exists_last Hne) as (ws & x & Hau).
    rewrite Hau in Haw, Hcol. apply Forall_app in Haw as [Hws Hx].
    apply Forall_app in Hcol as [_ Hxc].
    inversion Hx as [|? ? Hx' _]; subst. inversion Hxc as [|? ? Hxc' _]; subst.
    exists [x], (drop_while isspace text).
    split; [discriminate|]. split; [now repeat constructor|]. split; [exact Htext'|].
    intros pre g A k r Hk. rewrite run_seq_plus.
    change (m_rest (at_ pre ((sp ++ (ws ++ [x]) ++ [U.COLON] ++ sp4 ++ text ++ []) ++ []) g))
      with ((sp ++ (ws ++ [x]) ++ [U.COLON] ++ sp4 ++ text ++ []) ++ []).
    assert (Hline : sp ++ (ws ++ [x]) ++ [U.COLON] ++ sp4 ++ text ++ []
                    = (sp ++ ws) ++ x :: U.COLON :: (sp4 ++ tw)
                      ++ drop_while isspace text ++ []).
    { rewrite Ht at 1. repeat (rewrite <- app_assoc; simpl). reflexivity. }
    rewrite Hline in Hk. rewrite app_nil_r, Hline.
    apply rep_greedy_back.
    + apply Forall_app. now split.
    + exact Hx'.
    + reflexivity.
    + rewrite length_app. destruct sp; [congruence|simpl; lia].
    + reflexivity.
    + cbv beta. rewrite moved_at.
      change (x :: U.COLON :: (sp4 ++ tw) ++ drop_while isspace text ++ [])
        with (([x] ++ [U.COLON] ++ (sp4 ++ tw) ++ drop_while isspace text ++ []))
        in Hk |- *.
      rewrite <- (app_nil_r ([x] ++ [U.COLON] ++ (sp4 ++ tw)
                              ++ drop_while isspace text ++ [])) at 1.
      apply (eats_tail i j (pre ++ sp ++ ws) [x] (sp4 ++ tw)
               (drop_while isspace text) g); try assumption;
        [discriminate|].
      repeat rewrite <- app_assoc in Hk. repeat rewrite <- app_assoc. exact Hk.
  - exists (c :: a'), (drop_while isspace text).
    assert (Hcol' : Forall (fun y => y <> U.COLON) (c :: a')).
    { rewrite Ha in Hcol. now apply Forall_app in Hcol. }
    split; [discriminate|]. split; [exact Hcol'|]. split; [exact Htext'|].
    intros pre g.
    assert (Hline : sp ++ author ++ [U.COLON] ++ sp4 ++ text ++ []
                    = (sp ++ aw) ++ (c :: a') ++ [U.COLON] ++ (sp4 ++ tw)
                      ++ drop_while isspace text ++ []).
    { rewrite Ha, Ht at 1. repeat (rewrite <- app_assoc; simpl). reflexivity. }
    rewrite Hline.
    eapply eats_seq.
    + apply eats_blank1.
      * split; [apply Forall_app; now split|]. destruct sp; [congruence|discriminate].
      * simpl. eapply drop_while_first, Ea.
    + apply (eats_tail i j); try assumption. discriminate.
Qed.

Lemma eats_shape_de f author' text' :
  de_shape f ->
  (forall pre g,
     eats (Seq (plus space)
             (Seq (Grp 4 (plus_lazy not_colon))
                (Seq (lit ":") (Seq (star space) (Seq (Grp 5 (star CAny)) Eol)))))
          pre (f_sp3 f ++ f_author f ++ [U.COLON] ++ f_sp4 f ++ f_text f ++ []) []
          g ((5%nat, text') :: (4%nat, author') :: g)) ->
  eats _pat_de [] (de_line_parts f) [] []
       ([ (5%nat, text'); (4%nat, author') ] ++
        match f_second f with Some ss => [(3%nat, ss)] | None => [] end ++
        [ (2%nat, f_hour f ++ [U.COLON] ++ f_minute f);
          (1%nat, f_day f ++ [U.DOT] ++ f_month f ++ [U.DOT] ++ f_year f) ]).
Proof.
  intros W Htail. unfold _pat_de, de_line_parts. cbn [cat].
  apply eats_bol.
  eapply eats_seq.
  { apply eats_grp. apply eats_date_de; try apply W. reflexivity. }
  eapply eats_seq; [now apply eats_one|].
  eapply eats_seq.
  { apply eats_blank1; [apply W|]. rewrite app_nil_r, <- app_assoc.
    eapply stops_head; [apply (sh_hour f W)| |].
    - eapply digits_nonempty; [apply W|lia].
    - intros y Hy. now apply decimal_not_space. }
  eapply eats_seq; [apply eats_grp, eats_time_hm; apply W|].
  eapply eats_seq.
  { apply eats_seconds; [apply W|]. rewrite app_nil_r.
    apply blank_stops; [apply W|]. intros y Hy. now apply space_not_chr. }
  eapply eats_seq.
  { apply eats_blank1; [apply W|reflexivity]. }
  eapply eats_seq; [now apply eats_one|].
  destruct (f_second f); apply Htail.
Qed.

Lemma eats_shape_bracket f author' text' :
  de_shape f ->
  (forall pre g,
     eats (Seq (plus space)
             (Seq (Grp 4 (plus_lazy not_colon))
                (Seq (lit ":") (Seq (star space) (Seq (Grp 5 (star CAny)) Eol)))))
          pre (f_sp3 f ++ f_author f ++ [U.COLON] ++ f_sp4 f ++ f_text f ++ []) []
          g ((5%nat, text') :: (4%nat, author') :: g)) ->
  eats _pat_bracket [] (bracket_line_parts f) [] []
       ([ (5%nat, text'); (4%nat, author') ] ++
        match f_second f with Some ss => [(3%nat, ss)] | None => [] end ++
        [ (2%nat, f_hour f ++ [U.COLON] ++ f_minute f);
          (1%nat, f_day f ++ [U.DOT] ++ f_month f ++ [U.DOT] ++ f_year f) ]).
Proof.
  intros W Htail. unfold _pat_bracket, bracket_line_parts. cbn [cat].
  apply eats_bol.
  eapply eats_seq; [now apply eats_one|].
  eapply eats_seq.
  { apply eats_grp. apply eats_date_de; try apply W. reflexivity. }
  eapply eats_seq; [now apply eats_one|].
  eapply eats_seq.
  { apply eats_blank1; [apply W|]. rewrite app_nil_r, <- app_assoc.
    eapply stops_head; [apply (sh_hour f W)| |].
    - eapply digits_nonempty; [apply W|lia].
    - intros y Hy. now apply decimal_not_space. }
  eapply eats_seq; [apply eats_grp, eats_time_hm; apply W|].
  eapply eats_seq.
  { apply eats_seconds; [apply W|]. reflexivity. }
  eapply eats_seq; [now apply eats_one|].
  destruct (f_second f); apply Htail.
Qed.

Lemma eats_shape_iso f author' text' :
  iso_shape f ->
  (forall pre g,
     eats (Seq (plus space)
             (Seq (Grp 3 (plus_lazy not_colon))
                (Seq (lit ":") (Seq (star space) (Seq (Grp 4 (star CAny)) Eol)))))
          pre (i_sp f ++ i_author f ++ [U.COLON] ++ i_sp4 f ++ i_text f ++ []) []
          g ((4%nat, text') :: (3%nat, author') :: g)) ->
  eats _pat_iso [] (iso_line_parts f) [] []
       [ (4%nat, text'); (3%nat, author'); (2%nat, iso_time f); (1%nat, iso_date f) ].
Proof.
  intros W Htail. unfold _pat_iso, iso_line_parts. cbn [cat].
  apply eats_bol.
  eapply eats_seq.
  { apply eats_grp. unfold iso_date.
    eapply eats_seq; [apply eats_times, W|].
    eapply eats_seq; [now apply eats_one|].
    eapply eats_seq; [apply eats_times, W|].
    eapply eats_seq; [now apply eats_one|].
    apply eats_times, W. }
  eapply eats_seq.
  { apply eats_one. destruct (ish_sep f W) as [-> | ->]; reflexivity. }
  eapply eats_seq.
  { apply eats_grp. unfold iso_time.
    eapply eats_seq; [apply eats_times, W|].
    eapply eats_seq; [now apply eats_one|].
    eapply eats_seq; [apply eats_times, W|].
    eapply eats_seq; [now apply eats_one|].
    apply eats_times, W. }
  apply Htail.
Qed.

Lemma eats_match r xs g :
  eats r [] xs [] [] g -> re_match r xs = Some (RMatch (length xs) g).
Proof.
  intros H. unfold re_match, match_at. rewrite <- (app_nil_r xs) at 1.
  apply H. cbn [at_ m_pos m_groups app]. now rewrite Nat.sub_0_r.
Qed.

(** A line of the shape of dialect 2 or of the bracketed dialect is a header
    line with the date and time of its fields, or makes [classify] raise
    when they are none. *)
Lemma classify_shape_de f :
  de_shape f ->
  exists author' text',
    classify (de_line U.HYPHEN f)
    = (let* t := de_datetime f in Ok (Header (Msg t author' text'))) /\
    classify (bracket_line f)
    = (let* t := de_datetime f in Ok (Header (Msg t author' text'))).
Proof.
  intros W.
  destruct (eats_space_tail 4 5 (f_sp3 f) (f_author f) (f_sp4 f) (f_text f))
    as (a' & t' & Hne & Hcol & Ht & Htail); try apply W.
  pose (f' := DeFields (f_day f) (f_month f) (f_year f) (f_sp1 f) (f_hour f)
                (f_minute f) (f_second f) (f_sp2 f) (f_sp3 f) a' (f_sp4 f) t').
  assert (W' : de_shape f') by (constructor; cbn; try apply W; auto).
  exists (_norm_space a'), t'. split.
  - unfold classify.
    assert (Hiso : re_match _pat_iso (de_line U.HYPHEN f) = None).
    { unfold re_match, match_at.
      apply (run_short_fail 1 digit 4 (Some 4%nat) true _ _ (f_day f) U.DOT).
      - destruct (sh_day f W) as [_ [_ H]]. lia.
      - reflexivity. }
    rewrite Hiso, <- de_line_parts_eq.
    rewrite (eats_match _ _ _ (eats_shape_de f a' t' W Htail)).
    change ([(5%nat, t'); (4%nat, a')] ++
            match f_second f with Some ss => [(3%nat, ss)] | None => [] end ++
            [(2%nat, f_hour f ++ [U.COLON] ++ f_minute f);
             (1%nat, f_day f ++ [U.DOT] ++ f_month f ++ [U.DOT] ++ f_year f)])
      with (de_groups f').
    rewrite (header_de_shape f' _ W').
    change (de_datetime f') with (de_datetime f).
    destruct (de_datetime f); reflexivity.
  - unfold classify.
    rewrite (iso_rejects_bracket f), (de_rejects_bracket f), <- bracket_line_parts_eq.
    rewrite (eats_match _ _ _ (eats_shape_bracket f a' t' W Htail)).
    change ([(5%nat, t'); (4%nat, a')] ++
            match f_second f with Some ss => [(3%nat, ss)] | None => [] end ++
            [(2%nat, f_hour f ++ [U.COLON] ++ f_minute f);
             (1%nat, f_day f ++ [U.DOT] ++ f_month f ++ [U.DOT] ++ f_year f)])
      with (de_groups f').
    rewrite (header_de_shape f' _ W').
    change (de_datetime f') with (de_datetime f).
    destruct (de_datetime f); reflexivity.
Qed.

(** The same for dialect 1. *)
Lemma classify_shape_iso f :
  iso_shape f ->
  exists author' text',
    classify (iso_line f)
    = let* t := fromisoformat (iso_date f ++ [U.SPACE] ++ iso_time f) in
      Ok (Header (Msg t author' text')).
Proof.
  intros W.
  destruct (eats_space_tail 3 4 (i_sp f) (i_author f) (i_sp4 f) (i_text f))
    as (a' & t' & Hne & Hcol & Ht & Htail); try apply W.
  exists (_norm_space a'), t'. unfold classify.
  rewrite <- iso_line_parts_eq.
  rewrite (eats_match _ _ _ (eats_shape_iso f a' t' W Htail)).
  change (header_iso (RMatch (length (iso_line_parts f))
            [(4%nat, t'); (3%nat, a'); (2%nat, iso_time f); (1%nat, iso_date f)]))
    with (let* t := fromisoformat (iso_date f ++ [U.SPACE] ++ iso_time f) in
          Ok (Msg t (_norm_space a') t')).
  destruct (fromisoformat (iso_date f ++ [U.SPACE] ++ iso_time f)); reflexivity.
Qed.

(** An unreadable header makes [classify] raise. *)
Lemma classify_unreadable line :
  unreadable_header line -> classify line = Raise ValueError.
Proof.
  intros [(f & W & -> & Hbad)|(f & W & Hline & Hv)].
  - destruct (classify_shape_iso f W) as (a' & t' & ->).
    now rewrite (proj2 (iso_stamp f W) Hbad).
  - destruct (classify_shape_de f W) as (a' & t' & Hde & Hbr).
    assert (Hdt : de_datetime f = Raise ValueError).
    { unfold de_datetime, datetime_new. unfold de_valid in Hv. now rewrite Hv. }
    destruct Hline as [-> | ->]; [rewrite Hde|rewrite Hbr]; now rewrite Hdt.
Qed.

Lemma step_classify_raises st raw e :
  classify (clean_line raw) = Raise e -> step st raw = Raise e.
Proof.
  intros H. unfold step. destruct (clean_line raw) as [|c l] eqn:E.
  - vm_compute in H. discriminate.
  - now rewrite H.
Qed.

Lemma loop_hits l e lines : forall st,
  l ∈ lines -> (forall st', step st' l = Raise e) ->
  exists e', loop st lines = Raise e'.
Proof.
  induction lines as [|l' lines IH]; intros st Hin Hl; [inversion Hin|].
  cbn [loop]. apply elem_of_cons in Hin as [<-|Hin].
  - rewrite Hl. cbn [bind]. eauto.
  - destruct (step st l') as [st'|e']; cbn [bind]; [now apply IH|eauto].
Qed.

(** C4, amended: a line of the shape of a header of any of the three dialects
    whose date or time is no calendar value makes [parse_messages] raise
    [ValueError], and so does a line of dialect 1 with a decimal digit
    outside ASCII in its date or time: the exceptions of [datetime] are not
    caught.  The parser raises nothing else and raises on such lines only:
    it raises exactly on the files that hold one, and returns a list of
    messages for every other file. *)
Theorem invalid_header_raises :
  (forall (raw : str) (before after : list str) (ms : list Message),
     unreadable_header (clean_line raw) ->
     parse_lines before = Ok ms ->
     parse_lines (before ++ raw :: after) = Raise ValueError) /\
  (forall lines e,
     parse_lines lines = Raise e ->
     e = ValueError /\
     exists l, l ∈ lines /\ ~ no_header l /\
               classify (clean_line l) = Raise ValueError) /\
  (forall content,
     (exists e, parse_messages content = Raise e) <->
     (exists l, l ∈ splitlines content /\ unreadable_header (clean_line l))) /\
  (forall content,
     (forall l, l ∈ splitlines content -> ~ unreadable_header (clean_line l)) ->
     exists msgs, parse_messages content = Ok msgs).
Proof.
  split; [|split; [|split]].
  - intros raw before after ms Hbad Hbefore.
    apply parse_lines_ok_loop in Hbefore as [st Hst].
    unfold parse_lines. rewrite loop_app, Hst. cbn [bind loop].
    now rewrite (step_classify_raises st raw _ (classify_unreadable _ Hbad)).
  - intros lines e H. unfold parse_lines in H.
    destruct (loop (PState [] None) lines) as [st|e'] eqn:E; [discriminate|].
    inversion H; subst. apply loop_raises in E as (l & Hin & Hne & Hl).
    destruct (classify_raises _ _ Hl) as [-> Hm]. split; [reflexivity|].
    exists l. split; [assumption|]. split; [|assumption].
    intros (H1 & H2 & H3). destruct Hm as [Hm|[Hm|Hm]]; contradiction.
  - intros content. split.
    + intros [e H]. eapply parse_raises_unreadable, H.
    + intros (l & Hin & Hbad). unfold parse_messages, parse_lines.
      destruct (loop_hits l ValueError (splitlines content) (PState [] None) Hin)
        as [e' ->]; [|cbn [bind]; eauto].
      intros st'. apply step_classify_raises, classify_unreadable, Hbad.
  - intros content Hgood.
    destruct (parse_messages content) as [msgs|e] eqn:E; [eauto|].
    apply parse_raises_unreadable in E as (l & Hin & Hbad).
    now elim (Hgood l Hin).
Qed.

Lemma invalid_header_raises_witness :
  parse_lines [py "2024-01-05 09:00:00 Alice: Hello";
               py "05.13.24, 9:00 - Alice: Hey";
               py "more"] = Raise ValueError /\
  parse_lines [py "[31.02.2019, 18:59:06] Carolin: Text"] = Raise ValueError /\
  parse_lines [py "2024-01-05 99:00:00 Alice: Hello"] = Raise ValueError /\
  parse_lines [[1634; 1632; 1634; 1636] ++ py "-01-05 09:00:00 Alice: Hello"]
  = Raise ValueError.
Proof.
  destruct invalid_header_raises as (Hraise & _).
  split; [|split; [|split]].
  - refine (Hraise (py "05.13.24, 9:00 - Alice: Hey")
              [py "2024-01-05 09:00:00 Alice: Hello"] [py "more"]
              [Msg (DateTime 2024 1 5 9 0 0) (py "Alice") (py "Hello")] _ _).
    + right. exists month_13. split; [apply de_wf_shape; concrete_wf|].
      split; [left; vm_compute; reflexivity|vm_compute; reflexivity].
    + vm_compute. reflexivity.
  - refine (Hraise (py "[31.02.2019, 18:59:06] Carolin: Text") [] [] [] _ _).
    + right. exists february_31. split; [apply de_wf_shape; concrete_de_wf|].
      split; [right; vm_compute; reflexivity|vm_compute; reflexivity].
    + reflexivity.
  - refine (Hraise (py "2024-01-05 99:00:00 Alice: Hello") [] [] [] _ _).
    + left. exists hour_99. split; [apply iso_wf_shape; concrete_iso_wf|].
      split; [vm_compute; reflexivity|right; vm_compute; reflexivity].
    + reflexivity.
  - refine (Hraise ([1634; 1632; 1634; 1636] ++ py "-01-05 09:00:00 Alice: Hello")
              [] [] [] _ _).
    + left. exists alice_iso_arabic. split; [apply iso_wf_shape; concrete_iso_wf|].
      split; [vm_compute; reflexivity|left].
      unfold iso_ascii, ascii_digits. vm_compute. intros H.
      inversion H as [|? ? [H1 H2] _]. now apply H2.
    + reflexivity.
Defined.
